(** * City resolution of transport orders: a shallow embedding of
      [src/extractors/city_extractor.py] and the properties of its
      specification.

    Python [str] values are lists of Unicode code points.  The character
    tables ([isspace], [isalnum], case mappings) are exact on the repertoire
    the program is written for -- Basic Latin, Latin-1 Supplement, Latin
    Extended-A (U+0000..U+017F, which holds every Polish and German letter)
    and U+1E9E -- together with every Unicode white-space and line-break
    character.  Code points outside that repertoire are uncased symbols that
    are neither letters nor digits.

    The [re] module is embedded as a backtracking matcher over a syntax tree
    of patterns: leftmost match, greedy repetition, ordered alternation,
    capture groups, [\b], and IGNORECASE as [sre] compiles it. *)

From Stdlib Require Import List NArith ZArith Bool Ascii String Lia PeanoNat.
From Stdlib Require Import Uint63 Floats.
Import ListNotations.

Set Implicit Arguments.

(** ** Python strings *)

Module Py.

Definition char := N.
Definition str := list char.

Local Open Scope N_scope.

(** Decoding of a UTF-8 source literal into code points. *)
Fixpoint utf8 (bs : list N) : str :=
  match bs with
  | [] => []
  | b :: r =>
    if b <? 0x80 then b :: utf8 r
    else if b <? 0xE0 then
      match r with
      | b1 :: r1 => ((b - 0xC0) * 64 + (b1 - 0x80)) :: utf8 r1
      | [] => [b]
      end
    else if b <? 0xF0 then
      match r with
      | b1 :: b2 :: r2 =>
        ((b - 0xE0) * 4096 + (b1 - 0x80) * 64 + (b2 - 0x80)) :: utf8 r2
      | _ => [b]
      end
    else
      match r with
      | b1 :: b2 :: b3 :: r3 =>
        ((b - 0xF0) * 262144 + (b1 - 0x80) * 4096 + (b2 - 0x80) * 64
         + (b3 - 0x80)) :: utf8 r3
      | _ => [b]
      end
  end.

Definition u (s : string) : str :=
  utf8 (List.map N_of_ascii (list_ascii_of_string s)).

(** The single character of a one-character literal. *)
Definition ch (s : string) : char := hd 0 (u s).

Definition between (lo hi c : char) : bool := (lo <=? c) && (c <=? hi).

Definition mem (c : char) (l : list char) : bool := existsb (N.eqb c) l.

(** [str.isspace] on one character, which is also [\s] of [re]. *)
Definition isspace (c : char) : bool :=
  between 0x09 0x0D c || between 0x1C 0x20 c
  || mem c [0x85; 0xA0; 0x1680; 0x2028; 0x2029; 0x202F; 0x205F; 0x3000]
  || between 0x2000 0x200A c.

(** Line boundaries of [str.splitlines]. *)
Definition islinebreak (c : char) : bool :=
  between 0x0A 0x0D c || between 0x1C 0x1E c || mem c [0x85; 0x2028; 0x2029].

(** [\d] of [re]: decimal digits. *)
Definition isdecimal (c : char) : bool := between 0x30 0x39 c.

(** [str.isdigit] on one character: decimal digits and superscript digits. *)
Definition isdigit (c : char) : bool :=
  isdecimal c || mem c [0xB2; 0xB3; 0xB9].

Definition isalnum (c : char) : bool :=
  isdigit c || between 0x41 0x5A c || between 0x61 0x7A c
  || mem c [0xAA; 0xB5; 0xBA; 0xBC; 0xBD; 0xBE]
  || between 0xC0 0xD6 c || between 0xD8 0xF6 c || between 0xF8 0x17F c
  || (c =? 0x1E9E).

(** The characters on which the tables of this module are exact. *)
Definition in_repertoire (c : char) : bool :=
  (c <=? 0x17F) || (c =? 0x1E9E) || isspace c || islinebreak c.

(** [\w] of [re]. *)
Definition isword (c : char) : bool := isalnum c || (c =? 0x5F).

(** Simple (one to one) case mappings. *)
Definition tolower (c : char) : char :=
  if between 0x41 0x5A c then c + 32
  else if between 0xC0 0xDE c && negb (c =? 0xD7) then c + 32
  else if c =? 0x130 then 0x69
  else if c =? 0x178 then 0xFF
  else if c =? 0x1E9E then 0xDF
  else if (between 0x100 0x12F c || between 0x132 0x137 c
           || between 0x14A 0x177 c) && N.even c then c + 1
  else if (between 0x139 0x148 c || between 0x179 0x17E c) && N.odd c
       then c + 1
  else c.

Definition toupper (c : char) : char :=
  if between 0x61 0x7A c then c - 32
  else if c =? 0xB5 then 0x39C
  else if between 0xE0 0xFE c && negb (c =? 0xF7) then c - 32
  else if c =? 0xFF then 0x178
  else if c =? 0x131 then 0x49
  else if c =? 0x17F then 0x53
  else if (between 0x100 0x12F c || between 0x132 0x137 c
           || between 0x14A 0x177 c) && N.odd c then c - 1
  else if (between 0x139 0x148 c || between 0x179 0x17E c) && N.even c
       then c - 1
  else c.

(** Full case mappings, which may yield more than one character. *)
Definition lower_full (c : char) : str :=
  if c =? 0x130 then [0x69; 0x307] else [tolower c].

Definition upper_full (c : char) : str :=
  if c =? 0xDF then [0x53; 0x53]
  else if c =? 0x149 then [0x2BC; 0x4E]
  else [toupper c].

Definition title_full (c : char) : str :=
  if c =? 0xDF then [0x53; 0x73]
  else if c =? 0x149 then [0x2BC; 0x4E]
  else [toupper c].

Definition lower (s : str) : str := flat_map lower_full s.
Definition upper (s : str) : str := flat_map upper_full s.

(** [str.capitalize]: title case for the first character, lower case for
    the others. *)
Definition capitalize (s : str) : str :=
  match s with
  | [] => []
  | c :: r => title_full c ++ lower r
  end.

Definition is_empty (s : str) : bool :=
  match s with [] => true | _ => false end.

Fixpoint eqb (a b : str) : bool :=
  match a, b with
  | [], [] => true
  | x :: a', y :: b' => (x =? y) && eqb a' b'
  | _, _ => false
  end.

Fixpoint lstrip (s : str) : str :=
  match s with
  | c :: r => if isspace c then lstrip r else s
  | [] => []
  end.

Definition rstrip (s : str) : str := rev (lstrip (rev s)).

Definition strip (s : str) : str := rstrip (lstrip s).

(** [str.splitlines]: [cur] is the line being read, in reverse. *)
Fixpoint splitlines_go (cur : str) (s : str) : list str :=
  match s with
  | [] => match cur with [] => [] | _ => [rev cur] end
  | c :: r =>
    if islinebreak c then
      match c, r with
      | 0x0D, 0x0A :: r' => rev cur :: splitlines_go [] r'
      | _, _ => rev cur :: splitlines_go [] r
      end
    else splitlines_go (c :: cur) r
  end.

Definition splitlines (s : str) : list str := splitlines_go [] s.

Fixpoint startswith (p s : str) : bool :=
  match p, s with
  | [], _ => true
  | x :: p', y :: s' => (x =? y) && startswith p' s'
  | _ :: _, [] => false
  end.

(** [tok in s] *)
Fixpoint contains (tok s : str) : bool :=
  startswith tok s || match s with [] => false | _ :: r => contains tok r end.

(** [s.split(tok, 1)[0]]: the text before the first occurrence of [tok]. *)
Fixpoint before_first (tok s : str) : str :=
  if startswith tok s then []
  else match s with [] => [] | c :: r => c :: before_first tok r end.

(** [s.split(sep)] for a one-character separator. *)
Fixpoint split_char (sep : char) (s : str) : list str :=
  match s with
  | [] => [[]]
  | c :: r =>
    if c =? sep then [] :: split_char sep r
    else match split_char sep r with
         | p :: ps => (c :: p) :: ps
         | [] => [[c]]
         end
  end.

(** [sep.join(parts)] *)
Fixpoint join (sep : str) (parts : list str) : str :=
  match parts with
  | [] => []
  | [p] => p
  | p :: ps => p ++ sep ++ join sep ps
  end.

(** The text of [chr(10)], the line feed. *)
Definition newline : str := [0x0A].

Definition endswith_char (c : char) (s : str) : bool :=
  match rev s with x :: _ => x =? c | [] => false end.

Definition count (p : char -> bool) (s : str) : nat :=
  List.length (filter p s).

End Py.

Import Py.

(** ** The [re] module *)

Module Re.

Local Open Scope N_scope.

Inductive citem : Type :=
| CChar (c : char)
| CRange (lo hi : char).

Inductive regex : Type :=
| Empty
| Lit (c : char)
| OneOf (items : list citem)
| Space
| Digit
| WordB
| Cat (r1 r2 : regex)
| Alt (r1 r2 : regex)
| Rep (lo : nat) (hi : option nat) (r : regex)
| Group (n : nat) (r : regex).

(** Where a match attempt stands: the character before the cursor, the text
    after it, and the groups captured so far. *)
Record mstate : Type := MState {
  m_prev : option char;
  m_rest : str;
  m_groups : list (nat * str)
}.

Definition wordish (o : option char) : bool :=
  match o with Some c => isword c | None => false end.

Definition at_boundary (st : mstate) : bool :=
  xorb (wordish (m_prev st)) (wordish (hd_error (m_rest st))).

Definition iscased (c : char) : bool :=
  negb (c =? tolower c) || negb (c =? toupper c).

(** [_ignorecase_fixes] of [sre_compile], on the repertoire. *)
Definition fixes (c : char) : list char :=
  if c =? 0x69 then [0x131] else if c =? 0x131 then [0x69]
  else if c =? 0x73 then [0x17F] else if c =? 0x17F then [0x73]
  else if c =? 0xB5 then [0x3BC] else if c =? 0x3BC then [0xB5]
  else [].

Definition nrange (lo hi : char) : list char :=
  List.map (fun i => lo + N.of_nat i) (seq 0%nat (N.to_nat (hi + 1 - lo))).

Definition item_chars (i : citem) : list char :=
  match i with
  | CChar c => [c]
  | CRange lo hi => nrange lo hi
  end.

Definition item_has (i : citem) (x : char) : bool :=
  match i with
  | CChar c => x =? c
  | CRange lo hi => between lo hi x
  end.

(** The character map of a class compiled under IGNORECASE: every member
    lowered, with its fixes. *)
Definition lowered_has (i : citem) (x : char) : bool :=
  existsb (fun c => let lo := tolower c in (x =? lo) || mem x (fixes lo))
          (item_chars i).

Definition lit_ok (ic : bool) (c x : char) : bool :=
  if ic && iscased c
  then let lo := tolower c in
       (tolower x =? lo) || mem (tolower x) (fixes lo)
  else x =? c.

Definition in_ok (ic : bool) (items : list citem) (x : char) : bool :=
  if ic && existsb (fun i => existsb iscased (item_chars i)) items
  then existsb (fun i => lowered_has i (tolower x)) items
  else existsb (fun i => item_has i x) items.

Definition step (p : char -> bool) (st : mstate) : option mstate :=
  match m_rest st with
  | x :: xs => if p x then Some (MState (Some x) xs (m_groups st)) else None
  | [] => None
  end.

Definition consumed (st st' : mstate) : str :=
  firstn (List.length (m_rest st) - List.length (m_rest st')) (m_rest st).

Definition set_group (n : nat) (txt : str) (st : mstate) : mstate :=
  MState (m_prev st) (m_rest st) ((n, txt) :: m_groups st).

Definition hi_zero (hi : option nat) : bool :=
  match hi with Some O => true | _ => false end.

Definition hi_pred (hi : option nat) : option nat :=
  match hi with Some n => Some (Nat.pred n) | None => None end.

Definition orelse {A} (a b : option A) : option A :=
  match a with Some _ => a | None => b end.

(** Greedy repetition [r{lo,hi}]: [body] matches one iteration.  An
    iteration beyond the minimum must consume text; [fuel] bounds the
    number of iterations. *)
Fixpoint rep_loop {A} (body : mstate -> (mstate -> option A) -> option A)
         (k : mstate -> option A) (fuel lo : nat) (hi : option nat)
         (st : mstate) {struct fuel} : option A :=
  match fuel with
  | O => None
  | S fuel' =>
    let stop := if Nat.eqb lo 0%nat then k st else None in
    if hi_zero hi then stop
    else orelse
           (body st (fun st1 =>
              if Nat.ltb 0%nat lo
                 || Nat.ltb (List.length (m_rest st1))
                            (List.length (m_rest st))
              then rep_loop body k fuel' (Nat.pred lo) (hi_pred hi) st1
              else None))
           stop
  end.

(** The matcher in continuation-passing style: [k] is what remains of
    the pattern, and a [None] from it makes the matcher backtrack. *)
Fixpoint rmatch {A} (ic : bool) (r : regex) (st : mstate)
         (k : mstate -> option A) {struct r} : option A :=
  match r with
  | Empty => k st
  | Lit c => match step (lit_ok ic c) st with Some st' => k st' | None => None end
  | OneOf items =>
    match step (in_ok ic items) st with Some st' => k st' | None => None end
  | Space => match step isspace st with Some st' => k st' | None => None end
  | Digit => match step isdecimal st with Some st' => k st' | None => None end
  | WordB => if at_boundary st then k st else None
  | Cat r1 r2 => rmatch ic r1 st (fun st1 => rmatch ic r2 st1 k)
  | Alt r1 r2 => orelse (rmatch ic r1 st k) (rmatch ic r2 st k)
  | Group n r0 =>
    rmatch ic r0 st (fun st1 => k (set_group n (consumed st st1) st1))
  | Rep lo hi r0 =>
    rep_loop (fun st' k' => rmatch ic r0 st' k') k
             (S (lo + List.length (m_rest st))) lo hi st
  end.

(** A match: how many characters precede it, and the state at its end. *)
Record rmatch_result : Type := Match {
  m_start : nat;
  m_end : mstate
}.

(** [pattern.search(s)], scanning from the character after [prev]. *)
Fixpoint search_from (ic : bool) (r : regex) (prev : option char) (s : str)
         (pos : nat) : option rmatch_result :=
  match rmatch ic r (MState prev s []) (fun st => Some st) with
  | Some st => Some (Match pos st)
  | None =>
    match s with
    | [] => None
    | c :: s' => search_from ic r (Some c) s' (S pos)
    end
  end.

Definition search (ic : bool) (r : regex) (s : str) : option rmatch_result :=
  search_from ic r None s 0%nat.

(** [m.group(n)]; a group that took no part in the match reads as empty. *)
Fixpoint lookup (n : nat) (g : list (nat * str)) : str :=
  match g with
  | [] => []
  | (i, t) :: g' => if Nat.eqb i n then t else lookup n g'
  end.

Definition group (n : nat) (m : rmatch_result) : str :=
  lookup n (m_groups (m_end m)).

(** [re.sub(pattern, repl, s)].  After an empty match the next character is
    copied; no pattern of the program matches the empty string. *)
Fixpoint sub_go (fuel : nat) (ic : bool) (r : regex) (repl : str)
         (prev : option char) (s : str) : str :=
  match fuel with
  | O => s
  | S fuel' =>
    match rmatch ic r (MState prev s []) (fun st => Some st) with
    | Some st =>
      if Nat.ltb (List.length (m_rest st)) (List.length s)
      then repl ++ sub_go fuel' ic r repl (m_prev st) (m_rest st)
      else match s with
           | [] => repl
           | c :: s' => repl ++ c :: sub_go fuel' ic r repl (Some c) s'
           end
    | None =>
      match s with
      | [] => []
      | c :: s' => c :: sub_go fuel' ic r repl (Some c) s'
      end
    end
  end.

Definition sub (ic : bool) (r : regex) (repl s : str) : str :=
  sub_go (S (List.length s)) ic r repl None s.

(** [re.split(pattern, s)[0]] *)
Definition split_head (ic : bool) (r : regex) (s : str) : str :=
  match search ic r s with
  | Some m => firstn (m_start m) s
  | None => s
  end.

(** Pattern syntax. *)
Definition seq_of (rs : list regex) : regex := fold_right Cat Empty rs.
Definition alt_of (r : regex) (rs : list regex) : regex :=
  fold_left Alt rs r.
Definition opt (r : regex) : regex := Rep 0%nat (Some 1%nat) r.
Definition plus (r : regex) : regex := Rep 1%nat None r.
Definition star (r : regex) : regex := Rep 0%nat None r.
Definition times (n : nat) (r : regex) : regex := Rep n (Some n) r.
Definition upto (lo hi : nat) (r : regex) : regex := Rep lo (Some hi) r.
Definition atleast (lo : nat) (r : regex) : regex := Rep lo None r.

(** A literal text, as [re.escape] makes of a string. *)
Definition escape (s : str) : regex := seq_of (List.map Lit s).

Definition chars (s : string) : list citem := List.map CChar (u s).

End Re.

Import Re.

(** ** [config.py] *)

Module Config.
Definition USE_SPACY_CITIES : bool := true.
Definition SPACY_CITY_MODELS : list str :=
  [u "pl_core_news_sm"; u "de_core_news_sm"].
Definition CITY_SECTION_MAX_LINES : nat := 30.
End Config.

(** ** The patterns compiled by [CityExtractor.__init__] *)

Record pattern : Type := Pattern {
  ignorecase : bool;
  tree : regex
}.

Definition pattern_search (p : pattern) (s : str) : option rmatch_result :=
  search (ignorecase p) (tree p) s.

Definition AZ : citem := CRange (ch "A") (ch "Z").
Definition az : citem := CRange (ch "a") (ch "z").

(** [[A-Za-zĄĆĘŁŃÓŚŻŹąćęłńóśżź .\-']] *)
Definition pl_letters : regex :=
  OneOf (AZ :: az :: chars "ĄĆĘŁŃÓŚŻŹąćęłńóśżź .-'").

(** [[A-Za-zÄÖÜäöüẞß .\-']] *)
Definition de_letters : regex :=
  OneOf (AZ :: az :: chars "ÄÖÜäöüẞß .-'").

(** [[A-Za-z .\-']] *)
Definition ascii_letters : regex := OneOf (AZ :: az :: chars " .-'").

(** [(?:\s+b\.\s+ cls +)?], the optional "near <place>" suffix *)
Definition near_suffix (cls : regex) : regex :=
  opt (seq_of [plus Space; Lit (ch "b"); Lit (ch "."); plus Space; plus cls]).

(** [\bPL\s?\d{2}-\d{3}\s+([...]+(?:\s+b\.\s+[...]+)?)], IGNORECASE *)
Definition _pattern_pl_zip_city : pattern :=
  Pattern true
    (seq_of [WordB; Lit (ch "P"); Lit (ch "L"); opt Space; times 2 Digit;
             Lit (ch "-"); times 3 Digit; plus Space;
             Group 1 (Cat (plus pl_letters) (near_suffix pl_letters))]).

(** [\bD\s?-?\d{4,5}\s+([...]+)], IGNORECASE *)
Definition _pattern_de_zip_city : pattern :=
  Pattern true
    (seq_of [WordB; Lit (ch "D"); opt Space; opt (Lit (ch "-"));
             upto 4 5 Digit; plus Space; Group 1 (plus de_letters)]).

(** [\b\d{2}-\d{3}\s+([...]+(?:\s+b\.\s+[...]+)?)] *)
Definition _pattern_pl_bare_zip_city : pattern :=
  Pattern false
    (seq_of [WordB; times 2 Digit; Lit (ch "-"); times 3 Digit; plus Space;
             Group 1 (Cat (plus pl_letters) (near_suffix pl_letters))]).

(** [\b\d{5}\s+([...]+)] *)
Definition _pattern_de_bare_zip_city : pattern :=
  Pattern false
    (seq_of [WordB; times 5 Digit; plus Space; Group 1 (plus de_letters)]).

(** [\b([A-ZĄĆĘŁŃÓŚŻŹÄÖÜ][A-Za-zĄĆĘŁŃÓŚŻŹÄÖÜäöüẞß .\-']{2,}(?:\s+b\.\s+[A-Za-z .\-']+)?)\b] *)
Definition _pattern_city_only : pattern :=
  Pattern false
    (seq_of [WordB;
             Group 1 (seq_of
               [OneOf (AZ :: chars "ĄĆĘŁŃÓŚŻŹÄÖÜ");
                atleast 2 (OneOf (AZ :: az :: chars "ĄĆĘŁŃÓŚŻŹÄÖÜäöüẞß .-'"));
                near_suffix ascii_letters]);
             WordB]).

Definition _street_tokens : list str :=
  List.map u ["str."; "straße"; "strasse"; "allee"; "ul."; "ulica"; "platz";
              "ring"; "weg"; "gasse"; "am"; "an der"]%string.

(** The tuple of zip+city patterns, in the order the loops try them. *)
Definition zip_patterns : list pattern :=
  [_pattern_pl_zip_city; _pattern_de_zip_city;
   _pattern_pl_bare_zip_city; _pattern_de_bare_zip_city].

(** [for pattern in pats: m = pattern.search(line); if m: ... m.group(1)]:
    the capture of the first pattern that matches. *)
Fixpoint first_match (pats : list pattern) (line : str) : option str :=
  match pats with
  | [] => None
  | p :: rest =>
    match pattern_search p line with
    | Some m => Some (group 1 m)
    | None => first_match rest line
    end
  end.

(** ** The Normalizer *)

(** [\b(?:PL|D|D-)\s?\d{2}-?\d{3,5}\s*], IGNORECASE *)
Definition country_zip : pattern :=
  Pattern true
    (seq_of [WordB;
             alt_of (Cat (Lit (ch "P")) (Lit (ch "L")))
                    [Lit (ch "D"); Cat (Lit (ch "D")) (Lit (ch "-"))];
             opt Space; times 2 Digit; opt (Lit (ch "-")); upto 3 5 Digit;
             star Space]).

(** [\b\d{2}-?\d{3,5}\b] *)
Definition bare_zip : pattern :=
  Pattern false
    (seq_of [WordB; times 2 Digit; opt (Lit (ch "-")); upto 3 5 Digit; WordB]).

(** [[;,|]] *)
Definition separators : pattern := Pattern false (OneOf (chars ";,|")).

(** [\s+] *)
Definition spaces : pattern := Pattern false (plus Space).

Definition re_sub (p : pattern) (repl s : str) : str :=
  sub (ignorecase p) (tree p) repl s.

Definition split_tokens : list str :=
  List.map u ["na zlec"; "auftr"; "auftrag"; "attn"]%string.

(** [for tok in split_tokens: s = s.split(tok, 1)[0]] *)
Definition cut_annotations (s : str) : str :=
  fold_left (fun s tok => before_first tok s) split_tokens s.

Definition smart_title (t : str) : str :=
  join (u " ")
    (List.map (fun p => if negb (endswith_char (ch ".") p) then capitalize p
                        else capitalize (removelast p) ++ u ".")
              (split_char (ch " ") t)).

Definition _clean_city (raw : str) : str :=
  if is_empty raw then []
  else
    let s := raw in
    let s := re_sub country_zip [] s in
    let s := re_sub bare_zip [] s in
    let s := cut_annotations s in
    let s := split_head (ignorecase separators) (tree separators) s in
    let s := strip (re_sub spaces (u " ") s) in
    smart_title s.

(** ** The Pattern Cascade *)

Definition _looks_like_street (line : str) : bool :=
  let low := lower line in
  existsb (fun tok => contains tok low) _street_tokens.

(** First loop of [_regex_city]: the zip+city patterns, line by line. *)
Fixpoint zip_pass (lines : list str) : option str :=
  match lines with
  | [] => None
  | l :: rest =>
    let line := strip l in
    if is_empty line then zip_pass rest
    else
      match first_match zip_patterns line with
      | Some g => Some (_clean_city g)
      | None =>
        if Nat.ltb (Nat.max 3 (List.length line / 3)) (count isdigit line)
        then zip_pass rest (* continue *)
        else zip_pass rest
      end
  end.

(** Second loop of [_regex_city]: the bare capitalized token. *)
Fixpoint city_only_pass (lines : list str) : option str :=
  match lines with
  | [] => None
  | l :: rest =>
    let line := strip l in
    if is_empty line then city_only_pass rest
    else if _looks_like_street line then city_only_pass rest
    else
      match pattern_search _pattern_city_only line with
      | Some m => Some (_clean_city (group 1 m))
      | None => city_only_pass rest
      end
  end.

Definition _regex_city (section : str) : option str :=
  if is_empty section then None
  else
    match zip_pass (splitlines section) with
    | Some c => Some c
    | None => city_only_pass (splitlines section)
    end.

(** ** The Section Locator *)

(** [re.compile("|".join(re.escape(h) for h in keywords), re.IGNORECASE)] *)
Definition keywords_pattern (keywords : list str) : pattern :=
  Pattern true
    (match List.map escape keywords with
     | [] => Empty
     | r :: rs => alt_of r rs
     end).

Definition matches (p : pattern) (s : str) : bool :=
  match pattern_search p s with Some _ => true | None => false end.

Definition header_tokens : list str :=
  List.map u ["Miejsce załadunku"; "Miejsce zaladunku"; "Miejsce rozładunku";
              "Miejsce rozladunku"; "Zlecenie"; "Samochód"; "Samochod";
              "Vereinbarter Frachtpreis"; "Termin rozladunku"]%string.

Definition _looks_like_header (line : str) : bool :=
  matches (keywords_pattern header_tokens) line.

(** [for j in range(start, end_idx): if header: break; append]: the lines
    of [rest] up to the line budget or the next header. *)
Fixpoint block_lines (budget : nat) (rest : list str) : list str :=
  match budget, rest with
  | S b, l :: rest' =>
    if _looks_like_header l then [] else l :: block_lines b rest'
  | _, _ => []
  end.

Definition block_text (budget : nat) (rest : list str) : str :=
  strip (join newline (block_lines budget rest)).

(** First loop of [_extract_section]: a header on one line. *)
Fixpoint after_header (hdr : pattern) (budget : nat) (lines : list str)
  : option str :=
  match lines with
  | [] => None
  | l :: rest =>
    if matches hdr l then Some (block_text budget rest)
    else after_header hdr budget rest
  end.

(** [\bMiejsce\b], IGNORECASE *)
Definition miejsce_word : pattern :=
  Pattern true (seq_of [WordB; escape (u "Miejsce"); WordB]).

(** Second loop: "Miejsce" on one line and the tail on the next. *)
Fixpoint after_split_header (tail : pattern) (budget : nat)
         (lines : list str) : option str :=
  match lines with
  | l :: rest =>
    match rest with
    | l2 :: rest2 =>
      if matches miejsce_word l && matches tail l2
      then Some (block_text budget rest2)
      else after_split_header tail budget rest
    | [] => None
    end
  | [] => None
  end.

Definition _extract_section (text : str) (header_keywords : list str)
           (max_lines : option nat) (two_line_tail : list str) : str :=
  if is_empty text then []
  else
    let budget :=
      match max_lines with
      | Some (S n) => S n
      | _ => Config.CITY_SECTION_MAX_LINES
      end in
    let lines := splitlines text in
    match after_header (keywords_pattern header_keywords) budget lines with
    | Some block => block
    | None =>
      match two_line_tail with
      | [] => []
      | _ :: _ =>
        match after_split_header (keywords_pattern two_line_tail) budget
                                 lines with
        | Some block => block
        | None => []
        end
      end
    end.

Definition loading_section (text : str) : str :=
  _extract_section text
    (List.map u ["Miejsce załadunku"; "Miejsce zaladunku"]%string) None
    (List.map u ["załadunku"; "zaladunku"]%string).

Definition unloading_section (text : str) : str :=
  _extract_section text
    (List.map u ["Miejsce rozładunku"; "Miejsce rozladunku"]%string) None
    (List.map u ["rozładunku"; "rozladunku"]%string).

(** ** Document-wide candidates *)

(** [if c and c not in seen: seen.add(c); unique.append(c)]; the state is
    the list built so far and the set of values seen. *)
Definition add_unique (c : str) (acc : list str * list str)
  : list str * list str :=
  let (unique, seen) := acc in
  if negb (is_empty c) && negb (existsb (Py.eqb c) seen)
  then (unique ++ [c], c :: seen)
  else acc.

Definition dedupe (candidates : list str) : list str :=
  fst (fold_left (fun acc c => add_unique c acc) candidates ([], [])).

(** The body of the line loop: a zip+city match, else ([for ... else]) a
    bare capitalized token. *)
Definition line_candidate (line : str) : list str :=
  match first_match zip_patterns line with
  | Some g => [_clean_city g]
  | None =>
    match pattern_search _pattern_city_only line with
    | Some m2 => [_clean_city (group 1 m2)]
    | None => []
    end
  end.

Definition _find_global_city_candidates (text : str) : list str :=
  if is_empty text then []
  else
    let candidates :=
      flat_map (fun l => let line := strip l in
                         if is_empty line then [] else line_candidate line)
               (splitlines text) in
    dedupe candidates.

(** ** The tagger (spaCy) and the extractor object *)

(** An entity span of a tagged document: [ent.label_] and [ent.text]. *)
Record Ent : Type := MkEnt {
  label_ : str;
  text : str
}.

(** A loaded pipeline; [None] when the call [nlp(section)] raises. *)
Definition Pipeline : Type := str -> option (list Ent).

(** The module [spacy]: whether its import succeeded, and [spacy.load],
    which is [None] when loading the model raises. *)
Record Spacy : Type := MkSpacy {
  imported : bool;
  load : str -> option Pipeline
}.

Record CityExtractor : Type := MkCityExtractor {
  use_spacy : bool;
  lang_models : list str;
  _nlp_pipelines : option (list Pipeline)
}.

(** [CityExtractor.__init__] *)
Definition __init__ (use_spacy : bool) (lang_models : list str)
  : CityExtractor :=
  MkCityExtractor (use_spacy && Config.USE_SPACY_CITIES)
                  (match lang_models with
                   | [] => Config.SPACY_CITY_MODELS
                   | _ => lang_models
                   end)
                  None.

(** Methods that read or write [self]: a state monad over the extractor
    that also records, in order, the models [spacy.load] was called on. *)
Definition M (A : Type) : Type := CityExtractor -> A * CityExtractor * list str.

Definition ret {A} (a : A) : M A := fun self => (a, self, []).

Definition bind {A B} (m : M A) (f : A -> M B) : M B :=
  fun self =>
    let '(a, self1, log1) := m self in
    let '(b, self2, log2) := f a self1 in
    (b, self2, log1 ++ log2).

Definition get : M CityExtractor := fun self => (self, self, []).

Notation "x <- m ;; f" := (bind m (fun x => f))
  (at level 61, m at next level, right associativity).

Definition value {A} (r : A * CityExtractor * list str) : A := fst (fst r).
Definition state_of {A} (r : A * CityExtractor * list str) : CityExtractor :=
  snd (fst r).
Definition loads {A} (r : A * CityExtractor * list str) : list str := snd r.

Section Tagger.

Variable spacy : Spacy.

Definition _ensure_models : M (list Pipeline) :=
  fun self =>
    if negb (use_spacy self) || negb (imported spacy) then ([], self, [])
    else
      match _nlp_pipelines self with
      | Some pipes => (pipes, self, [])
      | None =>
        let pipelines :=
          flat_map (fun model_name =>
                      match load spacy model_name with
                      | Some nlp => [nlp]
                      | None => []
                      end)
                   (lang_models self) in
        (pipelines,
         MkCityExtractor (use_spacy self) (lang_models self) (Some pipelines),
         lang_models self)
      end.

Local Open Scope float_scope.

(** 0.1, 0.2 and 0.3 as Python reads them *)
Definition f0_1 : float := 0x1.999999999999ap-4.
Definition f0_2 : float := 0x1.999999999999ap-3.
Definition f0_3 : float := 0x1.3333333333333p-2.

Definition float_of_nat (n : nat) : float :=
  PrimFloat.of_uint63 (Uint63.of_Z (Z.of_nat n)).

(** [min(a, b)] of Python *)
Definition fmin (a b : float) : float := if PrimFloat.ltb b a then b else a.

Definition _score_ner_candidate (ent : Ent) : float :=
  let label := upper (label_ ent) in
  let text_val := strip (text ent) in
  if existsb isdigit text_val then 0.0
  else if _looks_like_street text_val then 0.0
  else
    let base :=
      if existsb (Py.eqb label) (List.map u ["GPE"; "LOC"; "PLACE"]%string)
      then 1.0
      else if Py.eqb label (u "ORG") then f0_2
      else f0_1 in
    let base := if mem (ch "/") text_val then base + f0_2 else base in
    base + fmin (float_of_nat (List.length text_val) / 40.0) f0_3.

(** The entities of every pipeline that score above zero, in reading
    order, with their normalized text; a pipeline that raises adds
    nothing. *)
Definition scored_entities (pipes : list Pipeline) (section : str)
  : list (float * str) :=
  flat_map
    (fun nlp =>
       match nlp section with
       | Some ents =>
         flat_map (fun ent =>
                     let score := _score_ner_candidate ent in
                     if PrimFloat.leb score 0.0 then []
                     else [(score, _clean_city (text ent))])
                  ents
       | None => []
       end)
    pipes.

(** The sort key [(x[0], len(x[1]))], compared as Python compares tuples. *)
Definition key_le (a b : float * str) : bool :=
  if PrimFloat.eqb (fst a) (fst b)
  then Nat.leb (List.length (snd a)) (List.length (snd b))
  else PrimFloat.ltb (fst a) (fst b).

Fixpoint insert_desc (x : float * str) (l : list (float * str))
  : list (float * str) :=
  match l with
  | [] => [x]
  | y :: l' => if key_le y x then x :: l else y :: insert_desc x l'
  end.

(** [scored.sort(key=..., reverse=True)]: stable, largest key first. *)
Definition sort_desc (l : list (float * str)) : list (float * str) :=
  fold_right insert_desc [] l.

(** Truth value of an [Optional[str]] *)
Definition truthy (o : option str) : bool :=
  match o with Some (_ :: _) => true | _ => false end.

Definition _ner_city (section : str) : M (option str) :=
  self <- get ;;
  if is_empty section || negb (use_spacy self) then ret None
  else
    nlp_pipes <- _ensure_models ;;
    match nlp_pipes with
    | [] => ret None
    | _ :: _ =>
      let zip_city := _regex_city section in
      if truthy zip_city then ret zip_city
      else
        match sort_desc (scored_entities nlp_pipes section) with
        | [] => ret None
        | best :: _ => ret (Some (snd best))
        end
    end.

(** [primary or secondary] *)
Definition _choose_best (primary secondary : option str) : option str :=
  if truthy primary then primary else secondary.

(** First pass of [_extract_cities_list]: one zip+city match per line. *)
Definition zip_cities_step (acc : list str * list str) (line : str)
  : list str * list str :=
  let s := strip line in
  if is_empty s then acc
  else match first_match zip_patterns s with
       | Some g => add_unique (_clean_city g) acc
       | None => acc
       end.

(** Second pass: one bare token per line that is not street-like. *)
Definition city_only_step (acc : list str * list str) (line : str)
  : list str * list str :=
  let s := strip line in
  if is_empty s || _looks_like_street s then acc
  else match pattern_search _pattern_city_only s with
       | Some m => add_unique (_clean_city (group 1 m)) acc
       | None => acc
       end.

Definition _extract_cities_list (section : str) : M (list str) :=
  let lines := splitlines section in
  let acc1 := fold_left zip_cities_step lines ([], []) in
  match fst acc1 with
  | _ :: _ => ret (fst acc1)
  | [] =>
    let acc2 := fold_left city_only_step lines acc1 in
    match fst acc2 with
    | _ :: _ => ret (fst acc2)
    | [] =>
      nlp_pipes <- _ensure_models ;;
      match nlp_pipes with
      | [] => ret []
      | _ :: _ =>
        let scored_seq := scored_entities nlp_pipes section in
        ret (fst (fold_left
                    (fun acc sc =>
                       if PrimFloat.leb (fst sc) 0.0 then acc
                       else add_unique (snd sc) acc)
                    scored_seq ([], snd acc2)))
      end
    end
  end.

Definition _find_global_ner_candidates (full_text : str) : M (list str) :=
  nlp_pipes <- _ensure_models ;;
  match nlp_pipes with
  | [] => ret []
  | _ :: _ =>
    let found :=
      flat_map
        (fun nlp =>
           match nlp full_text with
           | Some ents =>
             flat_map
               (fun ent =>
                  if existsb (Py.eqb (upper (label_ ent)))
                             (List.map u ["LOC"; "GPE"; "PLACE"]%string)
                  then let val := strip (text ent) in
                       if existsb isdigit val then []
                       else [_clean_city val]
                  else [])
               ents
           | None => []
           end)
        nlp_pipes in
    ret (dedupe found)
  end.

(** ** The Resolver *)

Definition is_none {A} (o : option A) : bool :=
  match o with None => true | Some _ => false end.

(** The document-wide fallback shared by the three extraction modes:
    [candidates[0]] for a missing loading city, [candidates[-1]] for a
    missing unloading city. *)
Definition fill_missing (candidates : list str)
           (loading_city unloading_city : option str)
  : option str * option str :=
  (match loading_city, candidates with
   | None, c :: _ => Some c
   | _, _ => loading_city
   end,
   match unloading_city, candidates with
   | None, c :: cs => Some (last cs c)
   | _, _ => unloading_city
   end).

Definition extract_from_text (text : str) : M (option str * option str) :=
  let loading_block := loading_section text in
  let unloading_block := unloading_section text in
  loading_city <-
    (if is_empty loading_block then ret None
     else secondary <- _ner_city loading_block ;;
          ret (_choose_best (_regex_city loading_block) secondary)) ;;
  unloading_city <-
    (if is_empty unloading_block then ret None
     else
       unloading_list <- _extract_cities_list unloading_block ;;
       match unloading_list with
       | _ :: _ => ret (Some (join (u "-") unloading_list))
       | [] =>
         secondary <- _ner_city unloading_block ;;
         ret (_choose_best (_regex_city unloading_block) secondary)
       end) ;;
  if is_none loading_city || is_none unloading_city
  then ret (fill_missing (_find_global_city_candidates text)
                         loading_city unloading_city)
  else ret (loading_city, unloading_city).

Definition extract_regex_only (text : str) : option str * option str :=
  let loading_block := loading_section text in
  let unloading_block := unloading_section text in
  let loading_city :=
    if is_empty loading_block then None else _regex_city loading_block in
  let unloading_city :=
    if is_empty unloading_block then None else _regex_city unloading_block in
  if is_none loading_city || is_none unloading_city
  then fill_missing (_find_global_city_candidates text)
                    loading_city unloading_city
  else (loading_city, unloading_city).

Definition extract_ner_only (text : str) : M (option str * option str) :=
  let loading_block := loading_section text in
  let unloading_block := unloading_section text in
  loading_city <-
    (if is_empty loading_block then ret None else _ner_city loading_block) ;;
  unloading_city <-
    (if is_empty unloading_block then ret None
     else _ner_city unloading_block) ;;
  if is_none loading_city || is_none unloading_city
  then ner_candidates <- _find_global_ner_candidates text ;;
       ret (fill_missing ner_candidates loading_city unloading_city)
  else ret (loading_city, unloading_city).

(** The dictionary returned by [compare_methods]. *)
Record Comparison : Type := MkComparison {
  regex : option str * option str;
  spacy_ : option str * option str;
  hybrid : option str * option str
}.

Definition compare_methods (text : str) : M Comparison :=
  let regex_out := extract_regex_only text in
  ner_out <- extract_ner_only text ;;
  hybrid_out <- extract_from_text text ;;
  ret (MkComparison regex_out ner_out hybrid_out).

End Tagger.

From Stdlib Require Import Permutation Sorted.

(** ** [utils/helpers.py] *)

(** [a < b] on strings: by code points, a proper prefix first. *)
Fixpoint str_ltb (a b : str) : bool :=
  match a, b with
  | _, [] => false
  | [], _ :: _ => true
  | x :: a', y :: b' => N.ltb x y || (N.eqb x y && str_ltb a' b')
  end.

(** [s.zfill(width)]: zeros on the left, after a leading sign. *)
Definition zfill (width : nat) (s : str) : str :=
  if Nat.leb width (List.length s) then s
  else
    let fill := repeat (ch "0") (width - List.length s) in
    match s with
    | c :: r => if mem c (u "+-") then c :: fill ++ r else fill ++ s
    | [] => fill
    end.

(** [format_date]: DD.MM.YYYY to YYYY-MM-DD; the unpacking of the three
    parts raises, and [None] is returned, unless there are exactly three. *)
Definition format_date (date_str : str) : option str :=
  if is_empty date_str then None
  else
    match split_char (ch ".") date_str with
    | [day; month; year] =>
      Some (year ++ u "-" ++ zfill 2 month ++ u "-" ++ zfill 2 day)
    | _ => None
    end.

Definition clean_plate_number (plate : str) : option str :=
  if is_empty plate then None
  else
    let plate := upper (strip plate) in
    let plate :=
      if mem (ch "/") plate then hd [] (split_char (ch "/") plate)
      else plate in
    Some plate.

(** ** [extractors/regex_extractor.py]: the order number *)

(** [[A-Z]] *)
Definition capital : Re.regex := OneOf [AZ].

(** [(\d{2}/\d{4}[A-Z])] *)
Definition order_number_group : Re.regex :=
  Group 1 (seq_of [times 2 Digit; Lit (ch "/"); times 4 Digit; capital]).

(** [Nr\.?\s*(\d{2}/\d{4}[A-Z])] *)
Definition nr_and_number : list Re.regex :=
  [Lit (ch "N"); Lit (ch "r"); opt (Lit (ch ".")); star Space;
   order_number_group].

(** The three patterns of [_extract_order_number], each IGNORECASE:
    [Zlecenie\s+Nr\.?\s*(...)], [Speditionsauftrag\s+Nr\.?\s*(...)],
    [Nr\.?\s*(...)]. *)
Definition order_number_patterns : list pattern :=
  [Pattern true (seq_of (escape (u "Zlecenie") :: plus Space :: nr_and_number));
   Pattern true
     (seq_of (escape (u "Speditionsauftrag") :: plus Space :: nr_and_number));
   Pattern true (seq_of nr_and_number)].

(** [_extract_order_number]; what [verbose] prints is left out. *)
Definition _extract_order_number (text : str) : option str :=
  first_match order_number_patterns text.

(** ** [extractors/data_processor.py]: grouping by plate *)

(** The dictionary that [process_all_pdfs] builds for one document. *)
Record Order : Type := MkOrder {
  zlecenie_nr : option str;
  termin_rozladunku : option str;
  tablica_rejestracyjna : option str;
  fracht : option float;
  miejsce_zaladunku : option str;
  miejsce_rozladunku : option str;
  source_file : str
}.

(** [x.get('termin_rozladunku') or '9999-99-99'] *)
Definition date_key (x : Order) : str :=
  match termin_rozladunku x with
  | Some (c :: s) => c :: s
  | _ => u "9999-99-99"
  end.

Fixpoint insert_by_date (x : Order) (l : list Order) : list Order :=
  match l with
  | [] => [x]
  | y :: l' =>
    if str_ltb (date_key y) (date_key x) then y :: insert_by_date x l'
    else x :: l
  end.

(** [l.sort(key=lambda x: x.get('termin_rozladunku') or '9999-99-99')]:
    stable, smallest key first. *)
Definition sort_by_date (l : list Order) : list Order :=
  fold_right insert_by_date [] l.

(** [grouped[plate].append(result)] on a [defaultdict(list)], whose keys
    stay in the order of their first insertion. *)
Fixpoint append_to (plate : str) (result : Order)
         (grouped : list (str * list Order)) : list (str * list Order) :=
  match grouped with
  | [] => [(plate, [result])]
  | (p, rs) :: g =>
    if Py.eqb p plate then (p, rs ++ [result]) :: g
    else (p, rs) :: append_to plate result g
  end.

Definition group_step (acc : list (str * list Order) * list Order)
           (result : Order) : list (str * list Order) * list Order :=
  let (grouped, no_plate) := acc in
  match tablica_rejestracyjna result with
  | Some (c :: p) => (append_to (c :: p) result grouped, no_plate)
  | _ => (grouped, no_plate ++ [result])
  end.

Definition group_by_plate (results : list Order)
  : list (str * list Order) * list Order :=
  let (grouped, no_plate) := fold_left group_step results ([], []) in
  (List.map (fun g => (fst g, sort_by_date (snd g))) grouped,
   sort_by_date no_plate).

(** ** [re] with the constructs of [regex_extractor.py]

    The patterns of the field extractors use, beyond those of the city
    patterns, classes with categories and negation, the dot, and lazy
    repetition.  The matcher is that of [Re], in the same style. *)

Module Rx.

(** An item of a class: a character or a range, or a category. *)
Inductive xitem : Type :=
| Plain (i : citem)
| SpaceCat
| DigitCat.

Inductive regex : Type :=
| Empty
| Lit (c : char)
| Class (negate : bool) (items : list xitem)
| Any
| Space
| Digit
| WordB
| Cat (r1 r2 : regex)
| Alt (r1 r2 : regex)
| Rep (greedy : bool) (lo : nat) (hi : option nat) (r : regex)
| Group (n : nat) (r : regex).

(** The flags of a pattern. *)
Record flags : Type := Flags {
  ignorecase : bool;
  dotall : bool
}.

Definition xitem_cased (i : xitem) : bool :=
  match i with
  | Plain i => existsb iscased (item_chars i)
  | _ => false
  end.

Definition xitem_has (i : xitem) (x : char) : bool :=
  match i with
  | Plain i => item_has i x
  | SpaceCat => isspace x
  | DigitCat => isdecimal x
  end.

Definition xitem_lowered_has (i : xitem) (x : char) : bool :=
  match i with
  | Plain i => lowered_has i x
  | SpaceCat => isspace x
  | DigitCat => isdecimal x
  end.

(** A class as [sre] compiles it: when case is ignored and a character or
    range of the class is cased, the lowered character is looked up in the
    lowered class; [negate] inverts the outcome. *)
Definition class_ok (ic negate : bool) (items : list xitem) (x : char) : bool :=
  xorb negate
       (if ic && existsb xitem_cased items
        then existsb (fun i => xitem_lowered_has i (tolower x)) items
        else existsb (fun i => xitem_has i x) items).

(** The dot: any character, a line feed only under DOTALL. *)
Definition any_ok (fl : flags) (x : char) : bool :=
  dotall fl || negb (N.eqb x 10).

(** Lazy repetition [r{lo,hi}?]: what follows is tried first, and [body]
    matches one more iteration when that fails. *)
Fixpoint lazy_loop {A} (body : mstate -> (mstate -> option A) -> option A)
         (k : mstate -> option A) (fuel lo : nat) (hi : option nat)
         (st : mstate) {struct fuel} : option A :=
  match fuel with
  | O => None
  | S fuel' =>
    let more :=
      if hi_zero hi then None
      else body st (fun st1 =>
             if Nat.ltb 0%nat lo
                || Nat.ltb (List.length (m_rest st1))
                           (List.length (m_rest st))
             then lazy_loop body k fuel' (Nat.pred lo) (hi_pred hi) st1
             else None) in
    if Nat.eqb lo 0%nat then orelse (k st) more else more
  end.

Fixpoint rmatch {A} (fl : flags) (r : regex) (st : mstate)
         (k : mstate -> option A) {struct r} : option A :=
  match r with
  | Empty => k st
  | Lit c =>
    match step (lit_ok (ignorecase fl) c) st with
    | Some st' => k st'
    | None => None
    end
  | Class negate items =>
    match step (class_ok (ignorecase fl) negate items) st with
    | Some st' => k st'
    | None => None
    end
  | Any => match step (any_ok fl) st with Some st' => k st' | None => None end
  | Space => match step isspace st with Some st' => k st' | None => None end
  | Digit => match step isdecimal st with Some st' => k st' | None => None end
  | WordB => if at_boundary st then k st else None
  | Cat r1 r2 => rmatch fl r1 st (fun st1 => rmatch fl r2 st1 k)
  | Alt r1 r2 => orelse (rmatch fl r1 st k) (rmatch fl r2 st k)
  | Group n r0 =>
    rmatch fl r0 st (fun st1 => k (set_group n (consumed st st1) st1))
  | Rep greedy lo hi r0 =>
    (if greedy then rep_loop else lazy_loop)
      (fun st' k' => rmatch fl r0 st' k') k
      (S (lo + List.length (m_rest st))) lo hi st
  end.

(** [re.search(pattern, s, flags)], scanning from the character after
    [prev]. *)
Fixpoint search_from (fl : flags) (r : regex) (prev : option char) (s : str)
         (pos : nat) : option rmatch_result :=
  match rmatch fl r (MState prev s []) (fun st => Some st) with
  | Some st => Some (Match pos st)
  | None =>
    match s with
    | [] => None
    | c :: s' => search_from fl r (Some c) s' (S pos)
    end
  end.

Definition search (fl : flags) (r : regex) (s : str) : option rmatch_result :=
  search_from fl r None s 0%nat.

(** [re.match(pattern, s, flags)]: a match at the start of [s]. *)
Definition match_ (fl : flags) (r : regex) (s : str) : option rmatch_result :=
  match rmatch fl r (MState None s []) (fun st => Some st) with
  | Some st => Some (Match 0%nat st)
  | None => None
  end.

(** Pattern syntax. *)
Definition seq_of (rs : list regex) : regex := fold_right Cat Empty rs.
Definition opt (r : regex) : regex := Rep true 0%nat (Some 1%nat) r.
Definition plus (r : regex) : regex := Rep true 1%nat None r.
Definition star (r : regex) : regex := Rep true 0%nat None r.
Definition lazy_star (r : regex) : regex := Rep false 0%nat None r.
Definition times (n : nat) (r : regex) : regex := Rep true n (Some n) r.
Definition upto (lo hi : nat) (r : regex) : regex := Rep true lo (Some hi) r.

(** A literal text. *)
Definition text (s : string) : regex := seq_of (List.map Lit (u s)).

(** A class of characters and ranges. *)
Definition one_of (items : list citem) : regex :=
  Class false (List.map Plain items).

End Rx.

(** ** [extractors/regex_extractor.py]: date, plate and freight *)

(** [re.IGNORECASE] and [re.IGNORECASE | re.DOTALL] *)
Definition IGNORECASE : Rx.flags := Rx.Flags true false.
Definition IGNORECASE_DOTALL : Rx.flags := Rx.Flags true true.

(** [\d{2}\.\d{2}\.\d{4}], and the group of it *)
Definition date_text : Rx.regex :=
  Rx.seq_of [Rx.times 2 Rx.Digit; Rx.Lit (ch "."); Rx.times 2 Rx.Digit;
             Rx.Lit (ch "."); Rx.times 4 Rx.Digit].

Definition date_group : Rx.regex := Rx.Group 1 date_text.

(** [[:\s]] *)
Definition colon_or_space : Rx.regex :=
  Rx.Class false [Rx.Plain (CChar (ch ":")); Rx.SpaceCat].

(** The four patterns of [_extract_unloading_date]:
    [Termin\s+rozładunku[:\s]+(...)], [Termin\s+rozladunku[:\s]+(...)],
    [Entladetermin\s*:?\s*(...)], [(?:Entlade|rozlad)[^\d]*(...)]. *)
Definition date_patterns : list Rx.regex :=
  [Rx.seq_of [Rx.text "Termin"; Rx.plus Rx.Space; Rx.text "rozładunku";
              Rx.plus colon_or_space; date_group];
   Rx.seq_of [Rx.text "Termin"; Rx.plus Rx.Space; Rx.text "rozladunku";
              Rx.plus colon_or_space; date_group];
   Rx.seq_of [Rx.text "Entladetermin"; Rx.star Rx.Space;
              Rx.opt (Rx.Lit (ch ":")); Rx.star Rx.Space; date_group];
   Rx.seq_of [Rx.Alt (Rx.text "Entlade") (Rx.text "rozlad");
              Rx.star (Rx.Class true [Rx.DigitCat]); date_group]].

(** [_extract_unloading_date]: the first pattern that matches decides, and
    its capture goes through [format_date]; what [verbose] prints is left
    out. *)
Fixpoint date_loop (patterns : list Rx.regex) (full_text : str)
  : option str :=
  match patterns with
  | [] => None
  | pattern :: rest =>
    match Rx.search IGNORECASE pattern full_text with
    | Some m => format_date (group 1 m)
    | None => date_loop rest full_text
    end
  end.

Definition _extract_unloading_date (full_text : str) : option str :=
  date_loop date_patterns full_text.

(** [P[LPN]\d{4,5}] and the letter [[A-Z]] after it *)
Definition plate_stem : list Rx.regex :=
  [Rx.Lit (ch "P");
   Rx.one_of [CChar (ch "L"); CChar (ch "P"); CChar (ch "N")];
   Rx.upto 4 5 Rx.Digit].

Definition plate_letter : Rx.regex := Rx.one_of [AZ].

(** [P[LPN]\d{4,5}[A-Z]?], which is also the check on a captured plate,
    and [P[LPN]\d{4,5}[A-Z]] *)
Definition plate_check : Rx.regex :=
  Rx.seq_of (plate_stem ++ [Rx.opt plate_letter]).

Definition plate_with_letter : Rx.regex :=
  Rx.seq_of (plate_stem ++ [plate_letter]).

Definition plate_group : Rx.regex := Rx.Group 1 plate_check.

Definition plate_group_with_letter : Rx.regex := Rx.Group 1 plate_with_letter.

(** [Samoch[oó]d\s*:] *)
Definition samochod : list Rx.regex :=
  [Rx.text "Samoch"; Rx.one_of (chars "oó"); Rx.Lit (ch "d");
   Rx.star Rx.Space; Rx.Lit (ch ":")].

(** The four patterns of [_extract_license_plate]:
    [Samoch[oó]d\s*:\s*(P[LPN]\d{4,5}[A-Z]?)],
    [Samoch[oó]d\s*:.*?(P[LPN]\d{4,5}[A-Z])],
    [LKW-Nr\.?\s*:?\s*(P[LPN]\d{4,5}[A-Z]?)],
    [\b(P[LPN]\d{4,5}[A-Z]?)(?:/[A-Z0-9]+)?\b]. *)
Definition plate_patterns : list Rx.regex :=
  [Rx.seq_of (samochod ++ [Rx.star Rx.Space; plate_group]);
   Rx.seq_of (samochod ++ [Rx.lazy_star Rx.Any; plate_group_with_letter]);
   Rx.seq_of [Rx.text "LKW-Nr"; Rx.opt (Rx.Lit (ch ".")); Rx.star Rx.Space;
              Rx.opt (Rx.Lit (ch ":")); Rx.star Rx.Space; plate_group];
   Rx.seq_of [Rx.WordB; plate_group;
              Rx.opt (Rx.Cat (Rx.Lit (ch "/"))
                             (Rx.plus (Rx.one_of
                                         [AZ; CRange (ch "0") (ch "9")])));
              Rx.WordB]].

(** [_extract_license_plate]: the capture of the first pattern that
    matches and whose capture passes the check, cleaned. *)
Fixpoint plate_loop (patterns : list Rx.regex) (full_text : str)
  : option str :=
  match patterns with
  | [] => None
  | pattern :: rest =>
    match Rx.search IGNORECASE_DOTALL pattern full_text with
    | Some m =>
      let plate := group 1 m in
      match Rx.match_ IGNORECASE plate_check plate with
      | Some _ => clean_plate_number plate
      | None => plate_loop rest full_text
      end
    | None => plate_loop rest full_text
    end
  end.

Definition _extract_license_plate (full_text : str) : option str :=
  plate_loop plate_patterns full_text.

(** A call returns a value or raises an exception. *)
Inductive outcome (A : Type) : Type :=
| Returns (a : A)
| Raises.

Arguments Returns {A} a.
Arguments Raises {A}.

(** [s.replace(old, new)] for a one-character [old] *)
Definition replace_char (old : char) (new : str) (s : str) : str :=
  flat_map (fun c => if N.eqb c old then new else [c]) s.

(** The number that decimal digits write. *)
Definition digits_value (s : str) : Z :=
  fold_left (fun n c => (10 * n + (Z.of_N c - 48))%Z) s 0%Z.

Definition float_of_Z (n : Z) : float := PrimFloat.of_uint63 (Uint63.of_Z n).

(** [float(s)] on the texts that [_extract_freight_price] passes to it:
    decimal digits with a decimal point between them give the nearest
    binary64 value; a text that holds any other character, such as white
    space between the digits, makes [float] raise [ValueError]. *)
Definition py_float (s : str) : option float :=
  match split_char (ch ".") s with
  | [whole; frac] =>
    if negb (is_empty whole) && forallb isdecimal whole
       && negb (is_empty frac) && forallb isdecimal frac
    then Some (PrimFloat.div
                 (float_of_Z (digits_value (whole ++ frac)))
                 (float_of_Z (10 ^ Z.of_nat (List.length frac))))
    else None
  | _ => None
  end.

(** [[\.\s]] *)
Definition period_or_space : Rx.regex :=
  Rx.Class false [Rx.Plain (CChar (ch ".")); Rx.SpaceCat].

(** [\d{1,2}[\.\s]?\d{3},\d{2}] and [\d{3,4},\d{2}] *)
Definition thousands_amount : Rx.regex :=
  Rx.seq_of [Rx.upto 1 2 Rx.Digit; Rx.opt period_or_space;
             Rx.times 3 Rx.Digit; Rx.Lit (ch ","); Rx.times 2 Rx.Digit].

Definition plain_amount : Rx.regex :=
  Rx.seq_of [Rx.upto 3 4 Rx.Digit; Rx.Lit (ch ","); Rx.times 2 Rx.Digit].

Definition amount_with_thousands : Rx.regex := Rx.Group 1 thousands_amount.

Definition amount_plain : Rx.regex := Rx.Group 1 plain_amount.

(** [label.*?(amount)\s*€] *)
Definition priced (label : list Rx.regex) (amount : Rx.regex) : Rx.regex :=
  Rx.seq_of (label ++ [Rx.lazy_star Rx.Any; amount; Rx.star Rx.Space;
                       Rx.Lit 0x20AC%N]).

Definition vereinbarter_frachtpreis : list Rx.regex :=
  [Rx.text "Vereinbarter"; Rx.plus Rx.Space; Rx.text "Frachtpreis"].

Definition uzgodniony_fracht : list Rx.regex :=
  [Rx.text "uzgodniony"; Rx.plus Rx.Space; Rx.text "Fracht"].

(** The six patterns of [_extract_freight_price], in their order. *)
Definition freight_patterns : list Rx.regex :=
  [priced vereinbarter_frachtpreis amount_with_thousands;
   priced uzgodniony_fracht amount_with_thousands;
   priced vereinbarter_frachtpreis amount_plain;
   priced uzgodniony_fracht amount_plain;
   priced [Rx.text "Frachtpreis"] amount_with_thousands;
   priced [Rx.text "Frachtpreis"] amount_plain].

(** [config.FRACHT_MIN] and [config.FRACHT_MAX] *)
Definition FRACHT_MIN : float := 50%float.
Definition FRACHT_MAX : float := 5000%float.

(** [_extract_freight_price]: the amount of the first pattern that matches
    with an amount within the bounds; an amount that [float] does not read
    raises. *)
Fixpoint freight_loop (patterns : list Rx.regex) (full_text : str)
  : outcome (option float) :=
  match patterns with
  | [] => Returns None
  | pattern :: rest =>
    match Rx.search IGNORECASE_DOTALL pattern full_text with
    | Some m =>
      let fracht_str := group 1 m in
      let fracht_str :=
        replace_char (ch ",") (u ".")
          (replace_char (ch " ") [] (replace_char (ch ".") [] fracht_str)) in
      match py_float fracht_str with
      | None => Raises
      | Some fracht_val =>
        if PrimFloat.leb FRACHT_MIN fracht_val
           && PrimFloat.leb fracht_val FRACHT_MAX
        then Returns (Some fracht_val)
        else freight_loop rest full_text
      end
    | None => freight_loop rest full_text
    end
  end.

Definition _extract_freight_price (full_text : str)
  : outcome (option float) :=
  freight_loop freight_patterns full_text.

(** * Vocabulary of the properties *)

(** ** Lines and what the patterns capture on them *)

(** A line on which no zip+city pattern matches. *)
Definition no_zip (l : str) : Prop :=
  first_match zip_patterns (strip l) = None.

(** A line the second pass walks past: blank, street-like, or without a
    capitalized token. *)
Definition passed_over (l : str) : Prop :=
  _looks_like_street (strip l) = true
  \/ pattern_search _pattern_city_only (strip l) = None.


(** The normalized city of a line's zip+city match, if it has one. *)
Definition zip_capture_of (l : str) : list str :=
  match first_match zip_patterns (strip l) with
  | Some g => [_clean_city g]
  | None => []
  end.

(** The zip-anchored cities of a section, top to bottom. *)
Definition zip_captures (section : str) : list str :=
  flat_map zip_capture_of (splitlines section).

(** ** De-duplication *)

Definition str_eq_dec : forall a b : str, {a = b} + {a <> b} :=
  list_eq_dec N.eq_dec.

Definition nonempty (c : str) : bool := negb (is_empty c).

(** [c in seen] *)
Definition seen_in (c : str) (seen : list str) : bool :=
  existsb (Py.eqb c) seen.

(** What the specification asks of de-duplication: every value once, at
    the place of its first occurrence. *)
Fixpoint keep_first (l : list str) : list str :=
  match l with
  | [] => []
  | x :: xs => x :: remove str_eq_dec x (keep_first xs)
  end.

(** The values of [l] not yet in [seen]. *)
Definition fresh (seen l : list str) : list str :=
  filter (fun c => negb (seen_in c seen)) l.

(** ** Calls on an extractor *)

(** A call that leaves the extractor as it was and loads nothing. *)
Definition quiet {A} (m : M A) (self : CityExtractor) : Prop :=
  state_of (m self) = self /\ loads (m self) = [].

(** Nothing is left to load: tagging is off, the [spacy] module is absent,
    or the pipelines are cached. *)
Definition settled (spacy : Spacy) (self : CityExtractor) : Prop :=
  use_spacy self = false \/ imported spacy = false
  \/ _nlp_pipelines self <> None.

(** The calls a client can make on an extractor. *)
Inductive method : Type :=
| Ensure_models
| Ner_city (section : str)
| Extract_cities_list (section : str)
| Find_global_ner_candidates (full_text : str)
| Extract_from_text (full_text : str)
| Extract_ner_only (full_text : str)
| Compare_methods (full_text : str).

Definition call (spacy : Spacy) (m : method) : M unit :=
  match m with
  | Ensure_models => _ <- _ensure_models spacy ;; ret tt
  | Ner_city s => _ <- _ner_city spacy s ;; ret tt
  | Extract_cities_list s => _ <- _extract_cities_list spacy s ;; ret tt
  | Find_global_ner_candidates t =>
    _ <- _find_global_ner_candidates spacy t ;; ret tt
  | Extract_from_text t => _ <- extract_from_text spacy t ;; ret tt
  | Extract_ner_only t => _ <- extract_ner_only spacy t ;; ret tt
  | Compare_methods t => _ <- compare_methods spacy t ;; ret tt
  end.

(** A life of the extractor: calls in sequence, each finding [spacy.load]
    in the state the world is in at that time. *)
Fixpoint life (avail : bool) (calls : list ((str -> option Pipeline) * method))
  : M unit :=
  match calls with
  | [] => ret tt
  | (ld, m) :: rest => _ <- call (MkSpacy avail ld) m ;; life avail rest
  end.

(** ** The steps of the Resolver *)

(** Step 2 of the Resolver: the loading city from its section. *)
Definition loading_by_section (spacy : Spacy) (full_text : str)
  : M (option str) :=
  if is_empty (loading_section full_text) then ret None
  else secondary <- _ner_city spacy (loading_section full_text) ;;
       ret (_choose_best (_regex_city (loading_section full_text)) secondary).

(** Step 3 of the Resolver: the unloading city from its section. *)
Definition unloading_by_section (spacy : Spacy) (full_text : str)
  : M (option str) :=
  if is_empty (unloading_section full_text) then ret None
  else
    unloading_list <-
      _extract_cities_list spacy (unloading_section full_text) ;;
    match unloading_list with
    | _ :: _ => ret (Some (join (u "-") unloading_list))
    | [] =>
      secondary <- _ner_city spacy (unloading_section full_text) ;;
      ret (_choose_best (_regex_city (unloading_section full_text)) secondary)
    end.

(** [candidates[-1]], when there is one. *)
Definition last_error (l : list str) : option str :=
  match l with
  | [] => None
  | c :: cs => Some (last cs c)
  end.

(** A resolved city, or else the fallback. *)
Definition or_else (o fallback : option str) : option str :=
  match o with Some c => Some c | None => fallback end.

(** ** Texts on which a pattern cannot match *)

(** [a] is what is left of [b] after some prefix. *)
Definition is_suffix (a b : str) : Prop := exists p, b = p ++ a.

(** The continuation [k] fails on the text of [st] and on all that can be
    left of it. *)
Definition fails_after {A} (k : mstate -> option A) (st : mstate) : Prop :=
  forall st1, is_suffix (m_rest st1) (m_rest st) -> k st1 = None.

(** [needs P ic r]: every match of [r] consumes a character that
    satisfies [P]. *)
Inductive needs (P : char -> bool) (ic : bool) : Re.regex -> Prop :=
| needs_lit c :
    (forall x, lit_ok ic c x = true -> P x = true) -> needs P ic (Lit c)
| needs_oneof items :
    (forall x, in_ok ic items x = true -> P x = true) ->
    needs P ic (OneOf items)
| needs_space :
    (forall x, isspace x = true -> P x = true) -> needs P ic Space
| needs_digit :
    (forall x, isdecimal x = true -> P x = true) -> needs P ic Digit
| needs_cat_l r1 r2 : needs P ic r1 -> needs P ic (Cat r1 r2)
| needs_cat_r r1 r2 : needs P ic r2 -> needs P ic (Cat r1 r2)
| needs_alt r1 r2 : needs P ic r1 -> needs P ic r2 -> needs P ic (Alt r1 r2)
| needs_rep lo hi r : lo <> 0%nat -> needs P ic r -> needs P ic (Rep lo hi r)
| needs_group n r : needs P ic r -> needs P ic (Group n r).

(** No character of the text satisfies [P]. *)
Definition free_of (P : char -> bool) (s : str) : Prop :=
  forall x, List.In x s -> P x = false.

(** The characters of [[;,|]]. *)
Definition is_separator (c : char) : bool := mem c (u ";,|").

(** ** The steps of the Normalizer *)

(** The loop over the markers, for any list of them. *)
Definition cut_at (toks : list str) (s : str) : str :=
  fold_left (fun s tok => before_first tok s) toks s.

(** Some marker of [toks] occurs in [s], as spelled. *)
Definition marked (toks : list str) (s : str) : bool :=
  existsb (fun tok => contains tok s) toks.

(** The steps of the Normalizer after the markers are cut. *)
Definition finish (s : str) : str :=
  smart_title
    (strip (re_sub spaces (u " ")
                   (split_head (ignorecase separators) (tree separators) s))).

(** Every white-space character is a single space followed by a character
    that is not white space, or by the end of the text. *)
Fixpoint spaced (s : str) : bool :=
  match s with
  | [] => true
  | c :: r =>
    (negb (isspace c)
     || (N.eqb c 32
         && match r with [] => true | d :: _ => negb (isspace d) end))
    && spaced r
  end.

(** ** Canonical city names *)

(** The capital letters a word of a city name starts with. *)
Definition upper_letter (c : char) : bool :=
  between (ch "A") (ch "Z") c || mem c (u "ĄĆĘŁŃÓŚŻŹÄÖÜ").

(** The characters a word goes on with. *)
Definition lower_tail (c : char) : bool :=
  between (ch "a") (ch "z") c || mem c (u "ąćęłńóśżźäöüß-'.").

(** A word of a canonical name: a capital letter, then lower-case
    letters, hyphens, apostrophes or periods. *)
Definition canonical_word (w : str) : bool :=
  match w with
  | c :: r => upper_letter c && forallb lower_tail r
  | [] => false
  end.

(** Neither white space, nor a digit, nor a separator. *)
Definition inert (c : char) : bool :=
  negb (isspace c) && negb (isdecimal c) && negb (is_separator c).

(** Words without white space, digits or separators. *)
Definition inert_word (w : str) : Prop :=
  w <> [] /\ forall x, List.In x w -> inert x = true.

Definition space : str := u " ".

(** ** Documents and taggers of the examples *)


Definition street_then_city : str :=
  u "Hauptstraße 5" ++ newline ++ u "Berlin".

Definition tax_id_then_city : str :=
  u "NIP 1234567890" ++ newline ++ u "Berlin".

Definition order_with_annotation_only : str :=
  u "Miejsce załadunku" ++ newline ++ u "PL62-090 na zlec. X".

Definition two_unloading_places : str :=
  u "Miejsce rozładunku" ++ newline ++ u "66-008  Świdnica" ++ newline
    ++ u "65-001  Zielona Góra".

Definition order_with_both_sections : str :=
  u "Miejsce załadunku" ++ newline ++ u "PL62-090  Rokietnica" ++ newline
    ++ two_unloading_places.

Definition two_postal_lines : str :=
  u "66-008  Świdnica" ++ newline ++ u "65-001  Zielona Góra".

(** A world without the tagger package. *)
Definition no_spacy : Spacy := MkSpacy false (fun _ => None).

(** A tagger whose models load and find no entity. *)
Definition silent_tagger : Spacy :=
  MkSpacy true (fun _ => Some (fun _ => Some [])).

(** A tagger whose models load and tag the word "berlin" as a place. *)
Definition berlin_tagger : Spacy :=
  MkSpacy true (fun _ => Some (fun _ => Some [MkEnt (u "GPE") (u "berlin")])).

(** ** Overly numeric lines *)




(** An unloading section whose first postal line carries only an
    annotation after the code, above a postal line with a city. *)
Definition annotation_then_city : str :=
  u "Miejsce rozładunku" ++ Py.newline ++ u "PL62-090 na zlec. X"
    ++ Py.newline ++ u "66-008  Świdnica".

(** ** Dates and plates *)

(** How often [c] occurs in [s]. *)
Definition occurrences (c : char) (s : str) : nat :=
  count (N.eqb c) s.

(** The number a string of decimal digits writes. *)
Definition number_of (s : str) : nat :=
  fold_left (fun n c => 10 * n + N.to_nat (c - 48)) s 0.

(** A string of exactly [n] decimal digits. *)
Definition digits (n : nat) (s : str) : Prop :=
  List.length s = n /\ forallb isdecimal s = true.

(** A calendar date before another, as year, month and day. *)
Definition earlier (y1 m1 d1 y2 m2 d2 : nat) : Prop :=
  y1 < y2 \/ (y1 = y2 /\ (m1 < m2 \/ (m1 = m2 /\ d1 < d2))).

(** [d.m.y], the text the date patterns capture. *)
Definition dotted (d m y : str) : str := d ++ u "." ++ m ++ u "." ++ y.

(** ** Orders and their plates *)

(** The plate an order is grouped under, if it has one. *)
Definition plate_of (r : Order) : list str :=
  match tablica_rejestracyjna r with
  | Some (c :: p) => [c :: p]
  | _ => []
  end.

Definition has_plate (p : str) (r : Order) : bool :=
  existsb (Py.eqb p) (plate_of r).

Definition without_plate (r : Order) : bool :=
  match plate_of r with [] => true | _ => false end.

(** The groups as the specification of grouping has them: the distinct
    plates in order of first appearance, each with its orders in the order
    of the input. *)
Definition groups_of (results : list Order) : list (str * list Order) :=
  List.map (fun p => (p, filter (has_plate p) results))
           (keep_first (flat_map plate_of results)).

(** [a <= b] on the sort keys of two orders. *)
Definition date_le (a b : Order) : Prop :=
  str_ltb (date_key b) (date_key a) = false.

(** The orders of a list whose sort key is [k]. *)
Definition of_date (k : str) (l : list Order) : list Order :=
  filter (fun r => Py.eqb (date_key r) k) l.

(** An order of the examples: its number, date and plate. *)
Definition order (nr date plate : option str) : Order :=
  MkOrder nr date plate None None None (u "a.pdf").

Definition three_orders : list Order :=
  [order (Some (u "25/0001A")) (Some (u "2025-11-24")) (Some (u "PP7706U"));
   order (Some (u "25/0002B")) None None;
   order (Some (u "25/0003C")) (Some (u "2025-03-01")) (Some (u "PP7706U"))].

(** ** Sections *)

(** [max_lines or CITY_SECTION_MAX_LINES] *)
Definition line_budget (max_lines : option nat) : nat :=
  match max_lines with
  | Some (S n) => S n
  | _ => Config.CITY_SECTION_MAX_LINES
  end.

(** Some line with the word "Miejsce" is followed by a line with a tail. *)
Fixpoint has_split_header (tail : pattern) (lines : list str) : bool :=
  match lines with
  | l :: rest =>
    match rest with
    | l2 :: _ =>
      (matches miejsce_word l && matches tail l2)
      || has_split_header tail rest
    | [] => false
    end
  | [] => false
  end.

(** ** Lists of cities *)

(** What the loops with a [seen] set keep true of the list they build:
    no value twice, no empty value, every value recorded as seen. *)
Definition distinct_cities (acc : list str * list str) : Prop :=
  NoDup (fst acc)
  /\ Forall (fun c => c <> []) (fst acc)
  /\ forall c, List.In c (fst acc) -> seen_in c (snd acc) = true.

(** The results of the three extraction modes on one document. *)
Definition all_modes (spacy : Spacy) (self : CityExtractor) (full_text : str)
  : list (option str * option str) :=
  [extract_regex_only full_text;
   value (extract_ner_only spacy full_text self);
   value (extract_from_text spacy full_text self)].

(** ** Entities of the tagger *)

(** [ent] is an entity that one of the pipelines reports on [section]. *)
Definition reported (pipes : list Pipeline) (section : str) (ent : Ent)
  : Prop :=
  exists nlp ents,
    List.In nlp pipes /\ nlp section = Some ents /\ List.In ent ents.

(** The text of the entity, stripped, holds no digit and no street token. *)
Definition plain_name (ent : Ent) : Prop :=
  existsb isdigit (strip (text ent)) = false
  /\ _looks_like_street (strip (text ent)) = false.

(** No pipeline is at hand: tagging is off, the [spacy] module is absent,
    or none of the models loads. *)
Definition unaided (spacy : Spacy) (self : CityExtractor) : Prop :=
  value (_ensure_models spacy self) = [].

(** The same extractor, with tagging switched off. *)
Definition switched_off (self : CityExtractor) : CityExtractor :=
  MkCityExtractor false (lang_models self) None.

(** A world in which the package is present and no model loads. *)
Definition no_model : Spacy := MkSpacy true (fun _ => None).

(** ** What a pattern can match *)

(** [run ic r st st']: the pattern [r] can take the matcher from [st] to
    [st'], consuming text and recording groups. *)
Inductive run (ic : bool) : Re.regex -> mstate -> mstate -> Prop :=
| run_empty st : run ic Empty st st
| run_lit c st st' :
    step (lit_ok ic c) st = Some st' -> run ic (Lit c) st st'
| run_oneof items st st' :
    step (in_ok ic items) st = Some st' -> run ic (OneOf items) st st'
| run_space st st' : step isspace st = Some st' -> run ic Space st st'
| run_digit st st' : step isdecimal st = Some st' -> run ic Digit st st'
| run_wordb st : at_boundary st = true -> run ic WordB st st
| run_cat r1 r2 st st1 st2 :
    run ic r1 st st1 -> run ic r2 st1 st2 -> run ic (Cat r1 r2) st st2
| run_alt_l r1 r2 st st' : run ic r1 st st' -> run ic (Alt r1 r2) st st'
| run_alt_r r1 r2 st st' : run ic r2 st st' -> run ic (Alt r1 r2) st st'
| run_group n r st st1 :
    run ic r st st1 ->
    run ic (Group n r) st (set_group n (consumed st st1) st1)
| run_rep_stop hi r st : run ic (Rep 0 hi r) st st
| run_rep_more lo hi r st st1 st2 :
    hi_zero hi = false ->
    run ic r st st1 ->
    run ic (Rep (Nat.pred lo) (hi_pred hi) r) st1 st2 ->
    run ic (Rep lo hi r) st st2.

(** A Latin letter of either case, or one of the three characters that
    case folding sends among them: dotted capital I, dotless i, long s. *)
Definition order_letter (l : char) : bool :=
  between (ch "A") (ch "Z") l || between (ch "a") (ch "z") l
  || mem l [0x130; 0x131; 0x17F]%N.

(** The shape of an order number: two digits, a slash, four digits and a
    letter. *)
Definition order_number_shape (g : str) : Prop :=
  exists d1 d2 d3 d4 d5 d6 l,
    g = [d1; d2; ch "/"; d3; d4; d5; d6; l]
    /\ forallb isdecimal [d1; d2; d3; d4; d5; d6] = true
    /\ order_letter l = true.

(** [g] occurs in [s] as a run of consecutive characters. *)
Definition occurs_in (g s : str) : Prop :=
  exists before after, s = before ++ g ++ after.

(** ** What a method sees of the extractor *)

(** Two states of the extractor look alike to the methods: the same
    [use_spacy] switch and the same pipelines at hand. *)
Definition same_view (spacy : Spacy) (s1 s2 : CityExtractor) : Prop :=
  use_spacy s1 = use_spacy s2
  /\ value (_ensure_models spacy s1) = value (_ensure_models spacy s2).

(** A method leaves the view as it is, and its result depends on the view
    alone. *)
Definition view_only {A} (spacy : Spacy) (m : M A) : Prop :=
  (forall s, same_view spacy s (state_of (m s)))
  /\ (forall s1 s2, same_view spacy s1 s2 -> value (m s1) = value (m s2)).

(** ** Normalized names *)

(** What [re.sub(r"\s+", " ", s)] makes of a text: every run of white
    space becomes one space; [in_space] tells that the run has begun. *)
Fixpoint collapse_go (in_space : bool) (s : str) : str :=
  match s with
  | [] => []
  | c :: r =>
    if isspace c
    then if in_space then collapse_go true r else 32%N :: collapse_go true r
    else c :: collapse_go false r
  end.

(** The text does not begin with white space. *)
Definition starts_plain (s : str) : bool :=
  match s with [] => true | d :: _ => negb (isspace d) end.

(** One space, or nothing. *)
Definition pad (b : bool) : str := if b then [32%N] else [].

(** A non-empty word without white space. *)
Definition solid (w : str) : Prop :=
  w <> [] /\ free_of isspace w.

(** What [smart_title] does to one part. *)
Definition title_part (p : str) : str :=
  if negb (endswith_char (ch ".") p) then capitalize p
  else capitalize (removelast p) ++ u ".".

(** A tidy name: non-empty words, without white space and without the
    separators [;], [,] and [|], joined by single spaces. *)
Definition tidy (name : str) : Prop :=
  exists words,
    name = join (u " ") words
    /\ Forall (fun w => solid w /\ free_of is_separator w) words.

(** A document with both sections, the names in need of tidying. *)
Definition untidy_order : str :=
  u "Miejsce załadunku" ++ Py.newline
    ++ u "PL62-090   nowy  TOMYŚL ; magazyn 2" ++ Py.newline
    ++ u "Miejsce rozładunku" ++ Py.newline
    ++ u "10115 BERLIN, Rampe 3".

(** ** What a pattern of the field extractors can match *)

(** [xrun fl r st st']: the pattern [r] can take the matcher from [st] to
    [st']; greedy and lazy repetition differ in what they try first, not
    in what they can match. *)
Inductive xrun (fl : Rx.flags) : Rx.regex -> mstate -> mstate -> Prop :=
| xrun_empty st : xrun fl Rx.Empty st st
| xrun_lit c st st' :
    step (lit_ok (Rx.ignorecase fl) c) st = Some st' ->
    xrun fl (Rx.Lit c) st st'
| xrun_class negate items st st' :
    step (Rx.class_ok (Rx.ignorecase fl) negate items) st = Some st' ->
    xrun fl (Rx.Class negate items) st st'
| xrun_any st st' : step (Rx.any_ok fl) st = Some st' -> xrun fl Rx.Any st st'
| xrun_space st st' : step isspace st = Some st' -> xrun fl Rx.Space st st'
| xrun_digit st st' : step isdecimal st = Some st' -> xrun fl Rx.Digit st st'
| xrun_wordb st : at_boundary st = true -> xrun fl Rx.WordB st st
| xrun_cat r1 r2 st st1 st2 :
    xrun fl r1 st st1 -> xrun fl r2 st1 st2 -> xrun fl (Rx.Cat r1 r2) st st2
| xrun_alt_l r1 r2 st st' :
    xrun fl r1 st st' -> xrun fl (Rx.Alt r1 r2) st st'
| xrun_alt_r r1 r2 st st' :
    xrun fl r2 st st' -> xrun fl (Rx.Alt r1 r2) st st'
| xrun_group n r st st1 :
    xrun fl r st st1 ->
    xrun fl (Rx.Group n r) st (set_group n (consumed st st1) st1)
| xrun_rep_stop greedy hi r st : xrun fl (Rx.Rep greedy 0 hi r) st st
| xrun_rep_more greedy lo hi r st st1 st2 :
    hi_zero hi = false ->
    xrun fl r st st1 ->
    xrun fl (Rx.Rep greedy (Nat.pred lo) (hi_pred hi) r) st1 st2 ->
    xrun fl (Rx.Rep greedy lo hi r) st st2.

(** A pattern without groups. *)
Fixpoint no_group (r : Rx.regex) : bool :=
  match r with
  | Rx.Cat r1 r2 | Rx.Alt r1 r2 => no_group r1 && no_group r2
  | Rx.Rep _ _ _ r0 => no_group r0
  | Rx.Group _ _ => false
  | _ => true
  end.

(** A sequence in which group 1 is [g], with no group after it. *)
Definition captures_with (g p : Rx.regex) : Prop :=
  exists before after,
    p = Rx.seq_of (before ++ Rx.Group 1 g :: after)
    /\ forallb no_group after = true.

(** Every run of [r] consumes one character, which satisfies [P]. *)
Definition one_char (fl : Rx.flags) (P : char -> bool) (r : Rx.regex) : Prop :=
  forall st st',
    xrun fl r st st' -> exists x, m_rest st = x :: m_rest st' /\ P x = true.

(** No pattern of the list matches anywhere in the text. *)
Definition none_matches (fl : Rx.flags) (patterns : list Rx.regex)
           (full_text : str) : Prop :=
  Forall (fun p => Rx.search fl p full_text = None) patterns.

(** A date as [format_date] returns it: year, month and day in digits. *)
Definition iso_date (y m d : str) : str := y ++ u "-" ++ m ++ u "-" ++ d.

(** ** Plates *)

(** [[LPN]], as a class of the patterns *)
Definition lpn : list Rx.xitem :=
  [Rx.Plain (CChar (ch "L")); Rx.Plain (CChar (ch "P"));
   Rx.Plain (CChar (ch "N"))].

(** A plate as the patterns capture it, in either case: P, one of L, P and
    N, four or five digits and at most one letter. *)
Definition raw_plate (g : str) : Prop :=
  exists c1 c2 ds l,
    g = c1 :: c2 :: ds ++ l
    /\ lit_ok true (ch "P") c1 = true
    /\ Rx.class_ok true false lpn c2 = true
    /\ 4 <= List.length ds <= 5
    /\ forallb isdecimal ds = true
    /\ (l = [] \/ exists x, l = [x] /\ Rx.class_ok true false [Rx.Plain AZ] x = true).

(** A plate in capitals: P, one of L, P and N, four or five digits and at
    most one letter, which is a capital Latin letter or the dotted capital
    I. *)
Definition plate_shape (p : str) : Prop :=
  exists c ds l,
    p = ch "P" :: c :: ds ++ l
    /\ mem c (u "LPN") = true
    /\ 4 <= List.length ds <= 5
    /\ forallb isdecimal ds = true
    /\ (l = []
        \/ exists x, l = [x]
                     /\ between (ch "A") (ch "Z") x || N.eqb x 0x130 = true).

(** ** Amounts *)

(** The repertoire, with the euro sign. *)
Definition in_price_repertoire (c : char) : bool :=
  in_repertoire c || N.eqb c 0x20AC.

(** What may stand between the thousands and the hundreds of an amount:
    nothing, or a period or one white-space character. *)
Definition thousands_mark (s : str) : Prop :=
  s = [] \/ exists x, s = [x] /\ (x = ch "." \/ isspace x = true).

(** An amount as the patterns capture it: three to five digits, with or
    without a mark before the last three of them, a comma and two
    digits. *)
Definition amount (g a s b c : str) : Prop :=
  g = a ++ s ++ b ++ u "," ++ c
  /\ forallb isdecimal a = true /\ forallb isdecimal b = true
  /\ digits 2 c
  /\ 3 <= List.length (a ++ b) <= 5
  /\ thousands_mark s.

(** The amount in hundredths. *)
Definition cents (g : str) : Z := digits_value (filter isdecimal g).

(** A white-space character other than the space. *)
Definition odd_space (x : char) : Prop := isspace x = true /\ x <> 32%N.

(** A text with both a German and a Polish price. *)
Definition two_prices : str :=
  u "uzgodniony Fracht: 49,00 €" ++ Py.newline
    ++ u "Vereinbarter Frachtpreis: 1.250,00 € all in".

(** A price whose thousands stand on the line before. *)
Definition broken_price : str :=
  u "Frachtpreis: 1" ++ Py.newline ++ u "250,00 €".

(** ** Prefixed postal codes and what the Normalizer makes of a capture *)










(** The words of a text: its runs of characters that are not white space,
    as [s.split()] gives them. *)
Fixpoint words (s : str) : list str :=
  match s with
  | [] => []
  | c :: r =>
    if isspace c then words r
    else if starts_plain r && negb (is_empty r)
         then match words r with
              | w :: ws => (c :: w) :: ws
              | [] => [[c]]
              end
         else [c] :: words r
  end.



(** * Properties *)

(** ** The two passes of the single-city cascade *)

Lemma first_match_blank : first_match zip_patterns [] = None.
Proof. vm_compute. reflexivity. Qed.

Lemma city_only_blank : pattern_search _pattern_city_only [] = None.
Proof. vm_compute. reflexivity. Qed.

Lemma is_empty_true (s : str) : is_empty s = true -> s = [].
Proof. destruct s; [reflexivity | discriminate]. Qed.

Lemma zip_pass_cons (l : str) (rest : list str) :
  zip_pass (l :: rest)
  = match first_match zip_patterns (strip l) with
    | Some g => Some (_clean_city g)
    | None => zip_pass rest
    end.
Proof.
  cbn [zip_pass].
  destruct (is_empty (strip l)) eqn:E.
  - apply is_empty_true in E. rewrite E, first_match_blank. reflexivity.
  - destruct (first_match zip_patterns (strip l)); [reflexivity |].
    destruct (Nat.ltb _ _); reflexivity.
Qed.

Lemma city_only_pass_cons (l : str) (rest : list str) :
  city_only_pass (l :: rest)
  = if _looks_like_street (strip l) then city_only_pass rest
    else match pattern_search _pattern_city_only (strip l) with
         | Some m => Some (_clean_city (group 1 m))
         | None => city_only_pass rest
         end.
Proof.
  cbn [city_only_pass].
  destruct (is_empty (strip l)) eqn:E; [| reflexivity].
  apply is_empty_true in E. rewrite E, city_only_blank.
  destruct (_looks_like_street []); reflexivity.
Qed.

Lemma zip_pass_none (lines : list str) :
  Forall no_zip lines -> zip_pass lines = None.
Proof.
  induction 1 as [| l rest Hl _ IH]; [reflexivity |].
  rewrite zip_pass_cons. unfold no_zip in Hl. rewrite Hl. exact IH.
Qed.

Lemma zip_pass_first (pre : list str) (l : str) (post : list str) (g : str) :
  Forall no_zip pre ->
  first_match zip_patterns (strip l) = Some g ->
  zip_pass (pre ++ l :: post) = Some (_clean_city g).
Proof.
  intros Hpre Hl. induction Hpre as [| x pre Hx _ IH]; cbn [app].
  - rewrite zip_pass_cons, Hl. reflexivity.
  - rewrite zip_pass_cons. unfold no_zip in Hx. rewrite Hx. exact IH.
Qed.

(** The lines of a list up to the first one with a zip+city match. *)
Lemma first_zip_line (lines : list str) :
  Exists (fun l => ~ no_zip l) lines ->
  exists pre l post g,
    lines = pre ++ l :: post /\ Forall no_zip pre
    /\ first_match zip_patterns (strip l) = Some g.
Proof.
  induction lines as [| x rest IH]; intros H; [inversion H |].
  destruct (first_match zip_patterns (strip x)) as [g |] eqn:E.
  - exists [], x, rest, g. repeat split; auto.
  - inversion H as [? ? Hx | ? ? Hrest]; subst.
    + exfalso. apply Hx. exact E.
    + destruct (IH Hrest) as (pre & l & post & g & -> & Hpre & Hl).
      exists (x :: pre), l, post, g. repeat split; auto.
Qed.

Lemma city_only_pass_first (pre : list str) (l : str) (post : list str)
      (m : rmatch_result) :
  Forall passed_over pre ->
  _looks_like_street (strip l) = false ->
  pattern_search _pattern_city_only (strip l) = Some m ->
  city_only_pass (pre ++ l :: post) = Some (_clean_city (group 1 m)).
Proof.
  intros Hpre Hs Hm. induction Hpre as [| x pre Hx _ IH]; cbn [app].
  - rewrite city_only_pass_cons, Hs, Hm. reflexivity.
  - rewrite city_only_pass_cons.
    destruct (_looks_like_street (strip x)) eqn:E; [exact IH |].
    destruct Hx as [Hx | Hx]; [congruence |]. rewrite Hx. exact IH.
Qed.

Lemma city_only_pass_inv (lines : list str) (c : str) :
  city_only_pass lines = Some c ->
  exists pre l post m,
    lines = pre ++ l :: post /\ Forall passed_over pre
    /\ _looks_like_street (strip l) = false
    /\ pattern_search _pattern_city_only (strip l) = Some m
    /\ c = _clean_city (group 1 m).
Proof.
  induction lines as [| x rest IH]; [discriminate |].
  rewrite city_only_pass_cons.
  destruct (_looks_like_street (strip x)) eqn:Es.
  - intros H. destruct (IH H) as (pre & l & post & m & -> & Hp & H1 & H2 & H3).
    exists (x :: pre), l, post, m. repeat split; auto.
    constructor; [left; exact Es | exact Hp].
  - destruct (pattern_search _pattern_city_only (strip x)) as [m |] eqn:Em.
    + intros H. injection H as <-.
      exists [], x, rest, m. repeat split; auto.
    + intros H.
      destruct (IH H) as (pre & l & post & m & -> & Hp & H1 & H2 & H3).
      exists (x :: pre), l, post, m. repeat split; auto.
      constructor; [right; exact Em | exact Hp].
Qed.

Lemma splitlines_nonempty (section : str) :
  splitlines section <> [] -> is_empty section = false.
Proof. destruct section; [intros H; contradiction H; reflexivity | reflexivity]. Qed.

Lemma regex_city_unfold (section : str) :
  splitlines section <> [] ->
  _regex_city section
  = match zip_pass (splitlines section) with
    | Some c => Some c
    | None => city_only_pass (splitlines section)
    end.
Proof.
  intros H. unfold _regex_city. rewrite (splitlines_nonempty _ H). reflexivity.
Qed.

Lemma app_cons_not_nil {A} (pre : list A) (x : A) (post : list A) :
  pre ++ x :: post <> [].
Proof. destruct pre; discriminate. Qed.


(** ** C1: a country-prefixed postal code and its city *)



(** ** C5: the bare capitalized token *)

(** C5: a zip-anchored match anywhere in the section decides the result,
    so the bare-token pattern never does; with no zip-anchored match on any
    line the result is the bare token of the first line that is not
    street-like and has one, whatever street-like lines come before it.
    A line is street-like when its lower-case form contains a street
    token. *)
Theorem bare_token_only_without_zip (section : str) :
  (Exists (fun l => ~ no_zip l) (splitlines section) ->
   exists pre l post g,
     splitlines section = pre ++ l :: post /\ Forall no_zip pre
     /\ first_match zip_patterns (strip l) = Some g
     /\ _regex_city section = Some (_clean_city g))
  /\ (Forall no_zip (splitlines section) ->
      (forall c, _regex_city section = Some c ->
         exists pre l post m,
           splitlines section = pre ++ l :: post /\ Forall passed_over pre
           /\ _looks_like_street (strip l) = false
           /\ pattern_search _pattern_city_only (strip l) = Some m
           /\ c = _clean_city (group 1 m))
      /\ (forall pre l post m,
            splitlines section = pre ++ l :: post ->
            Forall passed_over pre ->
            _looks_like_street (strip l) = false ->
            pattern_search _pattern_city_only (strip l) = Some m ->
            _regex_city section = Some (_clean_city (group 1 m))))
  /\ (forall line,
        _looks_like_street line = true
        <-> exists tok,
            List.In tok _street_tokens /\ contains tok (lower line) = true).
Proof.
  split; [| split; [| intros line; unfold _looks_like_street;
                      apply existsb_exists]].
  - intros H.
    destruct (first_zip_line H) as (pre & l & post & g & Hs & Hpre & Hl).
    exists pre, l, post, g. repeat split; auto.
    rewrite regex_city_unfold by (rewrite Hs; apply app_cons_not_nil).
    rewrite Hs, (zip_pass_first _ _ Hpre Hl). reflexivity.
  - intros Hno. split.
    + intros c Hc.
      assert (Hne : splitlines section <> []).
      { intros E. unfold _regex_city in Hc. rewrite E in Hc.
        destruct (is_empty section); discriminate. }
      rewrite (regex_city_unfold _ Hne), (zip_pass_none Hno) in Hc.
      apply city_only_pass_inv. exact Hc.
    + intros pre l post m Hs Hpre Hstreet Hm.
      rewrite regex_city_unfold by (rewrite Hs; apply app_cons_not_nil).
      rewrite (zip_pass_none Hno), Hs.
      apply city_only_pass_first; assumption.
Qed.

(** A street line, in either letter case, before a city line. *)
Lemma bare_token_only_without_zip_witness :
  _looks_like_street (u "Hauptstraße 5") = true
  /\ _looks_like_street (u "HAUPTSTRASSE 5") = true
  /\ _regex_city street_then_city = Some (u "Berlin").
Proof.
  split; [vm_compute; reflexivity |].
  split; [vm_compute; reflexivity |].
  destruct (bare_token_only_without_zip street_then_city) as (_ & H & _).
  assert (Hno : Forall no_zip (splitlines street_then_city)).
  { repeat constructor; vm_compute; reflexivity. }
  destruct (H Hno) as [_ H2].
  destruct (pattern_search _pattern_city_only (strip (u "Berlin")))
    as [m |] eqn:E; [| vm_compute in E; discriminate].
  rewrite (H2 [u "Hauptstraße 5"] (u "Berlin") [] m).
  - vm_compute in E. injection E as <-. vm_compute. reflexivity.
  - vm_compute. reflexivity.
  - constructor; [left; vm_compute; reflexivity | constructor].
  - vm_compute. reflexivity.
  - exact E.
Defined.

(** ** C7: lines that are mostly digits *)



(** The second loop has no test for numeric lines: when no line has a zip
    match, it takes its city from the first line with a capitalized token,
    here the line of the tax number. *)
Lemma fallback_reads_numeric_line :
  first_match zip_patterns (u "NIP 1234567890") = None
  /\ Nat.ltb (Nat.max 3 (List.length (u "NIP 1234567890") / 3))
             (count isdigit (u "NIP 1234567890")) = true
  /\ _regex_city tax_id_then_city = Some (u "Nip")
  /\ _regex_city (u "Berlin") = Some (u "Berlin").
Proof. vm_compute. repeat split; reflexivity. Qed.

(** ** C10: an empty resolved city *)

(** C10: on a section whose zip-anchored line captures only annotation
    text the Normalizer returns the empty string, the cascade returns it as
    a city, and [extract_regex_only] reports that empty string, not an
    absent value, as the loading city. *)
Theorem regex_only_returns_empty_city :
  _clean_city (u "na zlecenie X") = []
  /\ _regex_city (u "PL62-090 na zlecenie X") = Some []
  /\ loading_section order_with_annotation_only = u "PL62-090 na zlec. X"
  /\ first_match zip_patterns (u "PL62-090 na zlec. X")
     = Some (u "na zlec. X")
  /\ extract_regex_only order_with_annotation_only
     = (Some [], Some (u "Miejsce")).
Proof. vm_compute. repeat split; reflexivity. Qed.

(** ** De-duplication in order of first appearance *)

Lemma eqb_eq (a b : str) : Py.eqb a b = true <-> a = b.
Proof.
  revert b. induction a as [| x a IH]; destruct b as [| y b]; cbn;
    try (split; [discriminate | discriminate]); [tauto |].
  rewrite andb_true_iff, N.eqb_eq, IH. split.
  - intros [-> ->]. reflexivity.
  - intros H. injection H as -> ->. auto.
Qed.

Lemma seen_in_spec (c : str) (seen : list str) :
  seen_in c seen = true <-> List.In c seen.
Proof.
  unfold seen_in. rewrite existsb_exists. split.
  - intros (x & Hx & E). apply eqb_eq in E. subst. exact Hx.
  - intros H. exists c. split; [exact H | apply eqb_eq; reflexivity].
Qed.

Lemma keep_first_In (l : list str) (x : str) :
  List.In x (keep_first l) <-> List.In x l.
Proof.
  induction l as [| y l IH]; cbn; [tauto |].
  split.
  - intros [-> | H]; [auto |].
    apply in_remove in H. right. apply IH. tauto.
  - intros [-> | H]; [auto |].
    destruct (str_eq_dec y x) as [-> | Hne]; [auto |].
    right. apply in_in_remove; [congruence | apply IH; exact H].
Qed.

Lemma NoDup_remove_elt (x : str) (l : list str) :
  NoDup l -> NoDup (remove str_eq_dec x l).
Proof.
  induction 1 as [| y l Hy _ IH]; cbn; [constructor |].
  destruct (str_eq_dec x y); [exact IH |].
  constructor; [| exact IH].
  intros H. apply in_remove in H. tauto.
Qed.

Lemma keep_first_NoDup (l : list str) : NoDup (keep_first l).
Proof.
  induction l as [| x l IH]; cbn; constructor.
  - apply remove_In.
  - apply NoDup_remove_elt. exact IH.
Qed.

Lemma fresh_remove_seen (seen : list str) (c : str) (l : list str) :
  seen_in c seen = true ->
  fresh seen (remove str_eq_dec c l) = fresh seen l.
Proof.
  intros Hc. unfold fresh.
  induction l as [| y l IH]; cbn [remove filter]; [reflexivity |].
  destruct (str_eq_dec c y) as [<- | Hne].
  - rewrite Hc. cbn [negb]. exact IH.
  - cbn [filter]. rewrite IH. reflexivity.
Qed.

Lemma fresh_cons_seen (seen : list str) (c : str) (l : list str) :
  fresh (c :: seen) l = fresh seen (remove str_eq_dec c l).
Proof.
  induction l as [| y l IH]; [reflexivity |].
  change (fresh (c :: seen) (y :: l))
    with (if negb (Py.eqb y c || seen_in y seen)
          then y :: fresh (c :: seen) l else fresh (c :: seen) l).
  cbn [remove]. rewrite IH.
  destruct (str_eq_dec c y) as [<- | Hne].
  - assert (E : Py.eqb c c = true) by (apply eqb_eq; reflexivity).
    rewrite E. reflexivity.
  - assert (E : Py.eqb y c = false).
    { destruct (Py.eqb y c) eqn:E; [| reflexivity].
      apply eqb_eq in E. congruence. }
    rewrite E. reflexivity.
Qed.

Lemma fresh_nil (l : list str) : fresh [] l = l.
Proof.
  induction l as [| y l IH]; [reflexivity |].
  change (fresh [] (y :: l)) with (y :: fresh [] l).
  rewrite IH. reflexivity.
Qed.

(** The loop with its [seen] set computes [keep_first] of the non-empty
    values, after what was found before. *)
Lemma add_unique_cases (c : str) (found seen : list str) :
  add_unique c (found, seen)
  = if nonempty c && negb (seen_in c seen)
    then (found ++ [c], c :: seen) else (found, seen).
Proof. reflexivity. Qed.

Lemma add_unique_loop (l found seen : list str) :
  fst (fold_left (fun acc c => add_unique c acc) l (found, seen))
  = found ++ fresh seen (keep_first (filter nonempty l)).
Proof.
  revert found seen.
  induction l as [| c l IH]; intros found seen.
  - cbn. rewrite app_nil_r. reflexivity.
  - cbn [fold_left filter]. rewrite add_unique_cases.
    destruct (nonempty c) eqn:Ec; cbn [andb]; [| apply IH].
    destruct (seen_in c seen) eqn:Es; cbn [negb keep_first]; rewrite IH.
    + change (fresh seen (c :: ?k))
        with (if negb (seen_in c seen) then c :: fresh seen k
              else fresh seen k).
      rewrite Es. cbn [negb].
      rewrite fresh_remove_seen by exact Es. reflexivity.
    + change (fresh seen (c :: ?k))
        with (if negb (seen_in c seen) then c :: fresh seen k
              else fresh seen k).
      rewrite Es. cbn [negb].
      rewrite fresh_cons_seen, <- app_assoc. reflexivity.
Qed.

Lemma dedupe_keep_first (l : list str) :
  dedupe l = keep_first (filter nonempty l).
Proof. unfold dedupe. rewrite add_unique_loop, fresh_nil. reflexivity. Qed.

(** ** Running methods of the extractor *)

Lemma bind_value {A B} (m : M A) (f : A -> M B) (self : CityExtractor) :
  value (bind m f self) = value (f (value (m self)) (state_of (m self))).
Proof.
  unfold bind, value, state_of.
  destruct (m self) as [[a s1] l1]. cbn.
  destruct (f a s1) as [[b s2] l2]. reflexivity.
Qed.

Lemma bind_state {A B} (m : M A) (f : A -> M B) (self : CityExtractor) :
  state_of (bind m f self)
  = state_of (f (value (m self)) (state_of (m self))).
Proof.
  unfold bind, value, state_of.
  destruct (m self) as [[a s1] l1]. cbn.
  destruct (f a s1) as [[b s2] l2]. reflexivity.
Qed.

Lemma bind_loads {A B} (m : M A) (f : A -> M B) (self : CityExtractor) :
  loads (bind m f self)
  = loads (m self) ++ loads (f (value (m self)) (state_of (m self))).
Proof.
  unfold bind, value, state_of, loads.
  destruct (m self) as [[a s1] l1]. cbn.
  destruct (f a s1) as [[b s2] l2]. reflexivity.
Qed.

Lemma quiet_ret {A} (a : A) (self : CityExtractor) : quiet (ret a) self.
Proof. split; reflexivity. Qed.

Lemma quiet_get (self : CityExtractor) : quiet get self.
Proof. split; reflexivity. Qed.

Lemma quiet_bind {A B} (m : M A) (f : A -> M B) (self : CityExtractor) :
  quiet m self -> (forall a, quiet (f a) self) -> quiet (bind m f) self.
Proof.
  intros [Hs Hl] Hf. unfold quiet.
  rewrite bind_state, bind_loads, Hs, Hl.
  destruct (Hf (value (m self))) as [Hs2 Hl2].
  rewrite Hs2, Hl2. auto.
Qed.

Lemma quiet_if {A} (b : bool) (m1 m2 : M A) (self : CityExtractor) :
  quiet m1 self -> quiet m2 self -> quiet (if b then m1 else m2) self.
Proof. destruct b; auto. Qed.

Lemma quiet_ensure_models (spacy : Spacy) (self : CityExtractor) :
  settled spacy self -> quiet (_ensure_models spacy) self.
Proof.
  intros H. unfold quiet, _ensure_models, state_of, loads.
  destruct (use_spacy self) eqn:Eu; cbn; [| auto].
  destruct (imported spacy) eqn:Ei; cbn; [| auto].
  destruct (_nlp_pipelines self) eqn:Ep; cbn; [auto |].
  destruct H as [H | [H | H]]; congruence.
Qed.

Lemma settled_after_ensure (spacy : Spacy) (self : CityExtractor) :
  settled spacy (state_of (_ensure_models spacy self)).
Proof.
  unfold settled, _ensure_models, state_of.
  destruct (use_spacy self) eqn:Eu; cbn; [| auto].
  destruct (imported spacy) eqn:Ei; cbn; [| auto].
  destruct (_nlp_pipelines self) eqn:Ep; cbn.
  - right. right. rewrite Ep. discriminate.
  - right. right. discriminate.
Qed.

Lemma quiet_ner_city (spacy : Spacy) (section : str) (self : CityExtractor) :
  settled spacy self -> quiet (_ner_city spacy section) self.
Proof.
  intros H. unfold _ner_city.
  apply quiet_bind; [apply quiet_get | intros s].
  apply quiet_if; [apply quiet_ret |].
  apply quiet_bind; [apply quiet_ensure_models; exact H | intros pipes].
  destruct pipes; [apply quiet_ret |].
  apply quiet_if; [apply quiet_ret |].
  destruct (sort_desc _); apply quiet_ret.
Qed.

Lemma quiet_extract_cities_list
      (spacy : Spacy) (section : str) (self : CityExtractor) :
  settled spacy self -> quiet (_extract_cities_list spacy section) self.
Proof.
  intros H. unfold _extract_cities_list.
  destruct (fst (fold_left zip_cities_step _ _)); [| apply quiet_ret].
  destruct (fst (fold_left city_only_step _ _)); [| apply quiet_ret].
  apply quiet_bind; [apply quiet_ensure_models; exact H | intros pipes].
  destruct pipes; apply quiet_ret.
Qed.

Lemma quiet_global_ner (spacy : Spacy) (t : str) (self : CityExtractor) :
  settled spacy self -> quiet (_find_global_ner_candidates spacy t) self.
Proof.
  intros H. unfold _find_global_ner_candidates.
  apply quiet_bind; [apply quiet_ensure_models; exact H | intros pipes].
  destruct pipes; apply quiet_ret.
Qed.

Lemma quiet_extract_from_text (spacy : Spacy) (t : str) (self : CityExtractor) :
  settled spacy self -> quiet (extract_from_text spacy t) self.
Proof.
  intros H. unfold extract_from_text.
  apply quiet_bind.
  { apply quiet_if; [apply quiet_ret |].
    apply quiet_bind; [apply quiet_ner_city; exact H | intros; apply quiet_ret]. }
  intros loading_city. apply quiet_bind.
  { apply quiet_if; [apply quiet_ret |].
    apply quiet_bind; [apply quiet_extract_cities_list; exact H | intros l].
    destruct l; [| apply quiet_ret].
    apply quiet_bind; [apply quiet_ner_city; exact H | intros; apply quiet_ret]. }
  intros unloading_city. apply quiet_if; apply quiet_ret.
Qed.

Lemma quiet_extract_ner_only (spacy : Spacy) (t : str) (self : CityExtractor) :
  settled spacy self -> quiet (extract_ner_only spacy t) self.
Proof.
  intros H. unfold extract_ner_only.
  apply quiet_bind.
  { apply quiet_if; [apply quiet_ret | apply quiet_ner_city; exact H]. }
  intros loading_city. apply quiet_bind.
  { apply quiet_if; [apply quiet_ret | apply quiet_ner_city; exact H]. }
  intros unloading_city. apply quiet_if; [| apply quiet_ret].
  apply quiet_bind; [apply quiet_global_ner; exact H | intros; apply quiet_ret].
Qed.

Lemma quiet_compare_methods (spacy : Spacy) (t : str) (self : CityExtractor) :
  settled spacy self -> quiet (compare_methods spacy t) self.
Proof.
  intros H. unfold compare_methods.
  apply quiet_bind; [apply quiet_extract_ner_only; exact H | intros n].
  apply quiet_bind; [apply quiet_extract_from_text; exact H | intros h].
  apply quiet_ret.
Qed.

(** ** C9: models are loaded once *)

Lemma quiet_call (spacy : Spacy) (m : method) (self : CityExtractor) :
  settled spacy self -> quiet (call spacy m) self.
Proof.
  intros H. destruct m; cbn [call];
    (apply quiet_bind; [| intros; apply quiet_ret]).
  - apply quiet_ensure_models; exact H.
  - apply quiet_ner_city; exact H.
  - apply quiet_extract_cities_list; exact H.
  - apply quiet_global_ner; exact H.
  - apply quiet_extract_from_text; exact H.
  - apply quiet_extract_ner_only; exact H.
  - apply quiet_compare_methods; exact H.
Qed.

Lemma settled_loader (avail : bool) (ld1 ld2 : str -> option Pipeline)
      (self : CityExtractor) :
  settled (MkSpacy avail ld1) self -> settled (MkSpacy avail ld2) self.
Proof. exact (fun H => H). Qed.

Lemma quiet_life (avail : bool) (calls : list ((str -> option Pipeline) * method))
      (ld : str -> option Pipeline) (self : CityExtractor) :
  settled (MkSpacy avail ld) self -> quiet (life avail calls) self.
Proof.
  intros H. induction calls as [| [ld' m] rest IH]; cbn [life].
  - apply quiet_ret.
  - apply quiet_bind; [| intros; exact IH].
    apply quiet_call. exact (settled_loader ld' H).
Qed.

(** C9: the first call of [_ensure_models] tries each listed model once or
    tries nothing, and leaves its list, empty or not, cached (or tagging is
    off and the list is empty); a second call, whatever [spacy.load] would
    now answer, returns the same list and loads nothing; and so does a call
    after any further life of the extractor, during which nothing is
    loaded. *)
Theorem models_loaded_at_most_once
        (avail : bool) (ld1 ld2 : str -> option Pipeline)
        (calls : list ((str -> option Pipeline) * method))
        (self : CityExtractor) :
  let first := _ensure_models (MkSpacy avail ld1) self in
  let again := _ensure_models (MkSpacy avail ld2) (state_of first) in
  let later := life avail calls (state_of first) in
  let last := _ensure_models (MkSpacy avail ld2) (state_of later) in
  (loads first = [] \/ loads first = lang_models self)
  /\ (_nlp_pipelines (state_of first) = Some (value first)
      \/ (use_spacy self && avail = false
          /\ value first = [] /\ state_of first = self))
  /\ value again = value first /\ loads again = []
  /\ state_of again = state_of first
  /\ loads later = [] /\ state_of later = state_of first
  /\ value last = value first /\ loads last = [].
Proof.
  intros first again later last.
  assert (Hset : settled (MkSpacy avail ld1) (state_of first))
    by apply settled_after_ensure.
  assert (Hlater : quiet (life avail calls) (state_of first))
    by exact (quiet_life calls Hset).
  assert (Hagain : value again = value first /\ loads again = []
                   /\ state_of again = state_of first).
  { subst again first. destruct self as [us lm [pipes |]];
      destruct us, avail; cbn; auto. }
  destruct Hlater as [Hs Hl].
  split.
  { subst first. destruct self as [us lm [pipes |]];
      destruct us, avail; cbn; auto. }
  split.
  { subst first. destruct self as [us lm [pipes |]];
      destruct us, avail; cbn; auto. }
  destruct Hagain as (H1 & H2 & H3).
  repeat split; try assumption.
  - subst last later. rewrite Hs. exact H1.
  - subst last later. rewrite Hs. exact H2.
Qed.

(** ** The zip-anchored cities of a section *)

Lemma zip_cities_step_spec (acc : list str * list str) (line : str) :
  zip_cities_step acc line
  = fold_left (fun acc c => add_unique c acc) (zip_capture_of line) acc.
Proof.
  unfold zip_cities_step, zip_capture_of.
  destruct (is_empty (strip line)) eqn:E.
  - apply is_empty_true in E. rewrite E, first_match_blank. reflexivity.
  - destruct (first_match zip_patterns (strip line)); reflexivity.
Qed.

Lemma zip_cities_fold (lines : list str) (acc : list str * list str) :
  fold_left zip_cities_step lines acc
  = fold_left (fun acc c => add_unique c acc)
              (flat_map zip_capture_of lines) acc.
Proof.
  revert acc. induction lines as [| l lines IH]; intros acc; [reflexivity |].
  cbn [fold_left flat_map]. rewrite fold_left_app, IH, zip_cities_step_spec.
  reflexivity.
Qed.

Lemma zip_pass_hd (lines : list str) :
  zip_pass lines = hd_error (flat_map zip_capture_of lines).
Proof.
  induction lines as [| l lines IH]; [reflexivity |].
  rewrite zip_pass_cons. cbn [flat_map]. unfold zip_capture_of at 1.
  destruct (first_match zip_patterns (strip l)); [reflexivity | exact IH].
Qed.

Lemma keep_first_not_nil (l : list str) : l <> [] -> keep_first l <> [].
Proof. destruct l; [intros H; contradiction H; reflexivity | discriminate]. Qed.

Lemma extract_cities_list_zip
      (spacy : Spacy) (section : str) (self : CityExtractor) :
  filter nonempty (zip_captures section) <> [] ->
  _extract_cities_list spacy section self
  = (keep_first (filter nonempty (zip_captures section)), self, []).
Proof.
  intros H. unfold _extract_cities_list.
  rewrite zip_cities_fold, add_unique_loop, fresh_nil. cbn [app].
  fold (zip_captures section).
  apply keep_first_not_nil in H.
  destruct (keep_first (filter nonempty (zip_captures section)));
    [contradiction H; reflexivity | reflexivity].
Qed.

Lemma zip_captures_section_nonempty (section : str) :
  zip_captures section <> [] -> is_empty section = false.
Proof.
  intros H. apply splitlines_nonempty. intros E.
  apply H. unfold zip_captures. rewrite E. reflexivity.
Qed.

(** ** The steps of the Resolver *)

Section Steps.

Variable spacy : Spacy.

Lemma extract_from_text_steps (full_text : str) :
  extract_from_text spacy full_text
  = (loading_city <- loading_by_section spacy full_text ;;
     unloading_city <- unloading_by_section spacy full_text ;;
     if is_none loading_city || is_none unloading_city
     then ret (fill_missing (_find_global_city_candidates full_text)
                            loading_city unloading_city)
     else ret (loading_city, unloading_city)).
Proof. reflexivity. Qed.

Lemma fill_missing_spec (cands : list str) (l0 u0 : option str) :
  (if is_none l0 || is_none u0 then fill_missing cands l0 u0 else (l0, u0))
  = (or_else l0 (hd_error cands), or_else u0 (last_error cands)).
Proof. destruct l0, u0, cands; reflexivity. Qed.

(** The result of [extract_from_text] from the results of steps 2 and 3. *)
Lemma extract_from_text_value (full_text : str) (self : CityExtractor) :
  let l0 := value (loading_by_section spacy full_text self) in
  let u0 := value (unloading_by_section spacy full_text
                     (state_of (loading_by_section spacy full_text self))) in
  let cands := _find_global_city_candidates full_text in
  value (extract_from_text spacy full_text self)
  = (or_else l0 (hd_error cands), or_else u0 (last_error cands)).
Proof.
  intros l0 u0 cands.
  rewrite extract_from_text_steps, !bind_value.
  fold l0. fold u0. fold cands.
  rewrite <- fill_missing_spec.
  destruct (is_none l0 || is_none u0); reflexivity.
Qed.

Lemma unloading_by_section_zip (full_text : str) (self : CityExtractor) :
  filter nonempty (zip_captures (unloading_section full_text)) <> [] ->
  value (unloading_by_section spacy full_text self)
  = Some (join (u "-")
            (keep_first
               (filter nonempty (zip_captures (unloading_section full_text))))).
Proof.
  intros H. unfold unloading_by_section.
  assert (Hne : is_empty (unloading_section full_text) = false).
  { apply zip_captures_section_nonempty. intros E. apply H.
    rewrite E. reflexivity. }
  rewrite Hne, bind_value, (@extract_cities_list_zip spacy _ self H).
  unfold value at 2. cbn [fst].
  apply keep_first_not_nil in H.
  destruct (keep_first _); [contradiction H; reflexivity | reflexivity].
Qed.

End Steps.

(** ** C2: several unloading cities *)



(** ** C3: the Entity Scorer and the cascade *)

Lemma regex_city_truthy_nonempty (section : str) :
  truthy (_regex_city section) = true -> is_empty section = false.
Proof. destruct section; [discriminate | reflexivity]. Qed.

Lemma choose_best_truthy (primary secondary : option str) :
  truthy primary = true -> _choose_best primary secondary = primary.
Proof. intros H. unfold _choose_best. rewrite H. reflexivity. Qed.

Lemma ensure_models_use_spacy (spacy : Spacy) (self : CityExtractor) :
  value (_ensure_models spacy self) <> [] -> use_spacy self = true.
Proof.
  unfold _ensure_models, value. destruct (use_spacy self); [reflexivity |].
  cbn. intros H. contradiction H. reflexivity.
Qed.

Lemma ner_city_defers (spacy : Spacy) (self : CityExtractor) (section : str) :
  value (_ensure_models spacy self) <> [] ->
  truthy (_regex_city section) = true ->
  value (_ner_city spacy section self) = _regex_city section.
Proof.
  intros Hp Ht. unfold _ner_city. rewrite bind_value.
  change (value (get self)) with self. change (state_of (get self)) with self.
  rewrite (regex_city_truthy_nonempty _ Ht), (ensure_models_use_spacy _ _ Hp).
  cbn [negb orb]. rewrite bind_value.
  destruct (value (_ensure_models spacy self));
    [contradiction Hp; reflexivity |].
  rewrite Ht. reflexivity.
Qed.

Lemma ner_city_without_pipelines
      (spacy : Spacy) (self : CityExtractor) (section : str) :
  value (_ensure_models spacy self) = [] ->
  value (_ner_city spacy section self) = None.
Proof.
  intros Hp. unfold _ner_city. rewrite bind_value.
  change (value (get self)) with self. change (state_of (get self)) with self.
  destruct (is_empty section || negb (use_spacy self)); [reflexivity |].
  rewrite bind_value, Hp. reflexivity.
Qed.

Lemma extract_regex_only_value (full_text : str) :
  let l0 := if is_empty (loading_section full_text) then None
            else _regex_city (loading_section full_text) in
  let u0 := if is_empty (unloading_section full_text) then None
            else _regex_city (unloading_section full_text) in
  let cands := _find_global_city_candidates full_text in
  extract_regex_only full_text
  = (or_else l0 (hd_error cands), or_else u0 (last_error cands)).
Proof.
  intros l0 u0 cands. rewrite <- fill_missing_spec. reflexivity.
Qed.

Lemma or_else_truthy (o fallback : option str) :
  truthy o = true -> or_else o fallback = o.
Proof. destruct o; [reflexivity | discriminate]. Qed.

Lemma loading_by_section_truthy
      (spacy : Spacy) (self : CityExtractor) (full_text : str) :
  truthy (_regex_city (loading_section full_text)) = true ->
  value (loading_by_section spacy full_text self)
  = _regex_city (loading_section full_text).
Proof.
  intros Ht. unfold loading_by_section.
  rewrite (regex_city_truthy_nonempty _ Ht), bind_value.
  unfold ret, value at 1. cbn [fst]. apply choose_best_truthy. exact Ht.
Qed.

Lemma remove_all_same (c : str) (l : list str) :
  Forall (eq c) l -> remove str_eq_dec c l = [].
Proof.
  induction 1 as [| x l Hx _ IH]; cbn; [reflexivity |].
  destruct (str_eq_dec c x); [exact IH | contradiction].
Qed.

Lemma keep_first_all_same (c : str) (l : list str) :
  c <> [] -> l <> [] -> Forall (eq c) l ->
  filter nonempty l = l /\ keep_first l = [c].
Proof.
  intros Hc Hl Hall. split.
  - clear Hl. induction Hall as [| x l Hx _ IH]; cbn; [reflexivity |].
    subst x. destruct c; [contradiction Hc; reflexivity |].
    cbn. rewrite IH. reflexivity.
  - destruct Hall as [| x l Hx Hall]; [contradiction Hl; reflexivity |].
    subst x. cbn [keep_first]. rewrite remove_all_same; [reflexivity |].
    apply Forall_forall. intros y Hy.
    rewrite Forall_forall in Hall. apply Hall.
    exact (proj1 (keep_first_In l y) Hy).
Qed.

Lemma regex_city_zip_hd (section : str) :
  zip_captures section <> [] ->
  _regex_city section = hd_error (zip_captures section).
Proof.
  intros H. unfold _regex_city.
  rewrite (zip_captures_section_nonempty _ H), zip_pass_hd.
  fold (zip_captures section).
  destruct (zip_captures section); [contradiction H; reflexivity | reflexivity].
Qed.

(** C3, as stated, fails twice.  Without a loaded pipeline [_ner_city]
    returns nothing on a section with a zip-anchored match; and in
    comparison mode, on an unloading section with two zip-anchored cities,
    the hybrid output joins both while the regex-only output is the first. *)
Lemma scorer_does_not_always_agree :
  first_match zip_patterns (u "PL62-090  Rokietnica") = Some (u "Rokietnica")
  /\ _regex_city (u "PL62-090  Rokietnica") = Some (u "Rokietnica")
  /\ value (_ner_city no_spacy (u "PL62-090  Rokietnica") (__init__ true []))
     = None
  /\ (let cmp := value (compare_methods silent_tagger two_unloading_places
                          (__init__ true [])) in
      snd (hybrid cmp) = Some (u "Świdnica-Zielona Góra")
      /\ snd (regex cmp) = Some (u "Świdnica")).
Proof. vm_compute. repeat split; reflexivity. Qed.

(** The first zip-anchored line of the unloading section may normalize to
    the empty string: the regex-only unloading city is then that empty
    string, while the hybrid one joins the non-empty cities of the other
    zip-anchored lines. *)
Lemma first_capture_may_be_empty :
  zip_captures (unloading_section annotation_then_city) = [[]; u "Świdnica"]
  /\ (let cmp := value (compare_methods silent_tagger annotation_then_city
                          (__init__ true [])) in
      snd (hybrid cmp) = Some (u "Świdnica")
      /\ snd (regex cmp) = Some []).
Proof. vm_compute. repeat split; reflexivity. Qed.

(** C3, amended: with a pipeline loaded, [_ner_city] returns the cascade's
    city whenever that city is non-empty, and with none loaded it returns
    nothing.  In comparison mode the hybrid loading city is the regex-only
    one whenever the cascade's city on the loading section is non-empty.
    When a zip-anchored line of the unloading section has a non-empty
    normalized city, the hybrid unloading city joins the distinct non-empty
    normalized cities of the zip-anchored lines, while the regex-only one
    is the normalized city of the first zip-anchored line, empty or not;
    the two agree when every zip-anchored line names the same non-empty
    city. *)
Theorem scorer_defers_to_cascade (spacy : Spacy) (self : CityExtractor) :
  (forall section,
      value (_ensure_models spacy self) <> [] ->
      truthy (_regex_city section) = true ->
      value (_ner_city spacy section self) = _regex_city section)
  /\ (forall section,
         value (_ensure_models spacy self) = [] ->
         value (_ner_city spacy section self) = None)
  /\ (forall full_text,
         let cmp := value (compare_methods spacy full_text self) in
         let caps := zip_captures (unloading_section full_text) in
         (truthy (_regex_city (loading_section full_text)) = true ->
          fst (hybrid cmp) = fst (regex cmp))
         /\ (filter nonempty caps <> [] ->
             snd (hybrid cmp)
             = Some (join (u "-") (keep_first (filter nonempty caps)))
             /\ snd (regex cmp) = hd_error caps)
         /\ (forall c, c <> [] -> caps <> [] -> Forall (eq c) caps ->
             snd (hybrid cmp) = Some c /\ snd (regex cmp) = Some c)).
Proof.
  split; [intros; apply ner_city_defers; assumption |].
  split; [intros; apply ner_city_without_pipelines; assumption |].
  intros full_text cmp caps.
  assert (Hh : hybrid cmp
               = value (extract_from_text spacy full_text
                          (state_of (extract_ner_only spacy full_text self)))).
  { subst cmp. unfold compare_methods. rewrite !bind_value. reflexivity. }
  assert (Hr : regex cmp = extract_regex_only full_text).
  { subst cmp. unfold compare_methods. rewrite !bind_value. reflexivity. }
  rewrite Hh, Hr, extract_from_text_value, extract_regex_only_value.
  cbn [fst snd].
  assert (Hzip : filter nonempty caps <> [] ->
                 forall s, or_else (value (unloading_by_section spacy full_text s))
                             (last_error (_find_global_city_candidates full_text))
                 = Some (join (u "-") (keep_first (filter nonempty caps)))).
  { intros H s. subst caps. rewrite (@unloading_by_section_zip spacy _ s H).
    reflexivity. }
  assert (Hhd : caps <> [] ->
                or_else (if is_empty (unloading_section full_text) then None
                         else _regex_city (unloading_section full_text))
                        (last_error (_find_global_city_candidates full_text))
                = hd_error caps).
  { intros H. subst caps.
    rewrite (zip_captures_section_nonempty _ H), (regex_city_zip_hd _ H).
    destruct (zip_captures _); [contradiction H |]; reflexivity. }
  split; [| split].
  - intros Ht. rewrite (loading_by_section_truthy spacy _ _ Ht).
    rewrite (regex_city_truthy_nonempty _ Ht). reflexivity.
  - intros H. split; [apply Hzip; exact H |].
    apply Hhd. intros E. apply H. rewrite E. reflexivity.
  - intros c Hc Hne Hall.
    destruct (keep_first_all_same Hc Hne Hall) as [Hf Hk].
    split.
    + rewrite Hzip by (rewrite Hf; exact Hne).
      rewrite Hf, Hk. reflexivity.
    + rewrite (Hhd Hne).
      destruct Hall as [| x l Hx _]; [contradiction Hne |]; subst;
        reflexivity.
Qed.

(** A loaded tagger defers on a zip-anchored section, and the hybrid
    loading city is the regex-only one. *)
Lemma scorer_defers_to_cascade_witness :
  value (_ner_city silent_tagger (u "PL62-090  Rokietnica") (__init__ true []))
  = Some (u "Rokietnica")
  /\ (let cmp := value (compare_methods silent_tagger order_with_both_sections
                          (__init__ true [])) in
      fst (hybrid cmp) = fst (regex cmp)).
Proof.
  destruct (scorer_defers_to_cascade silent_tagger (__init__ true []))
    as (H1 & _ & H3).
  split.
  - rewrite H1.
    + vm_compute. reflexivity.
    + vm_compute. discriminate.
    + vm_compute. reflexivity.
  - destruct (H3 order_with_both_sections) as (H & _ & _).
    apply H. vm_compute. reflexivity.
Defined.

(** ** C4: the document-wide fallback *)

(** C4, as stated, fails: on a text without sections where the
    zip/bare-token scan finds nothing, a tagger pass over the full text
    would find a place, but [extract_from_text] makes no such pass and
    returns no city. *)
Lemma no_tagger_pass_over_document :
  loading_section (u "berlin") = []
  /\ unloading_section (u "berlin") = []
  /\ _find_global_city_candidates (u "berlin") = []
  /\ value (_find_global_ner_candidates berlin_tagger (u "berlin")
              (__init__ true [])) = [u "Berlin"]
  /\ value (extract_from_text berlin_tagger (u "berlin") (__init__ true []))
     = (None, None).
Proof. vm_compute. repeat split; reflexivity. Qed.

Lemma line_candidate_blank : line_candidate [] = [].
Proof. vm_compute. reflexivity. Qed.

Lemma global_candidates_spec (full_text : str) :
  _find_global_city_candidates full_text
  = keep_first
      (filter nonempty
         (flat_map (fun l => line_candidate (strip l)) (splitlines full_text))).
Proof.
  unfold _find_global_city_candidates.
  destruct full_text as [| c t]; [reflexivity |].
  cbn [is_empty]. rewrite dedupe_keep_first. do 2 f_equal.
  generalize (splitlines (c :: t)). intros lines.
  induction lines as [| l lines IH]; [reflexivity |].
  cbn [flat_map]. rewrite IH. f_equal.
  destruct (is_empty (strip l)) eqn:E; [| reflexivity].
  apply is_empty_true in E. rewrite E, line_candidate_blank. reflexivity.
Qed.

(** C4, amended: a city still missing after the section-based steps is
    taken from the candidates of one document-wide scan, the first
    candidate for loading and the last for unloading.  The candidates are
    the non-empty normalized matches of the lines, a zip+city match or else
    a bare capitalized token, each value once in order of first appearance;
    no tagger is consulted.  In particular, without section headers the
    result is the first and the last candidate. *)
Theorem document_wide_fallback
        (spacy : Spacy) (self : CityExtractor) (full_text : str) :
  let l0 := value (loading_by_section spacy full_text self) in
  let u0 := value (unloading_by_section spacy full_text
                     (state_of (loading_by_section spacy full_text self))) in
  let cands := _find_global_city_candidates full_text in
  value (extract_from_text spacy full_text self)
  = (or_else l0 (hd_error cands), or_else u0 (last_error cands))
  /\ cands
     = keep_first
         (filter nonempty
            (flat_map (fun l => line_candidate (strip l))
                      (splitlines full_text)))
  /\ (loading_section full_text = [] ->
      unloading_section full_text = [] ->
      value (extract_from_text spacy full_text self)
      = (hd_error cands, last_error cands)).
Proof.
  intros l0 u0 cands. split; [apply extract_from_text_value |].
  split; [apply global_candidates_spec |].
  intros Hl Hu. rewrite extract_from_text_value.
  unfold loading_by_section, unloading_by_section. rewrite Hl, Hu.
  reflexivity.
Qed.

(** No section header and two postal lines: first and last. *)
Lemma document_wide_fallback_witness :
  value (extract_from_text berlin_tagger two_postal_lines (__init__ true []))
  = (Some (u "Świdnica"), Some (u "Zielona Góra")).
Proof.
  destruct (document_wide_fallback berlin_tagger (__init__ true [])
                                   two_postal_lines) as (_ & _ & H).
  rewrite H.
  - vm_compute. reflexivity.
  - vm_compute. reflexivity.
  - vm_compute. reflexivity.
Defined.

(** ** Patterns that cannot match *)

Lemma is_suffix_refl (a : str) : is_suffix a a.
Proof. exists []. reflexivity. Qed.

Lemma is_suffix_tail (x : char) (a : str) : is_suffix a (x :: a).
Proof. exists [x]. reflexivity. Qed.

Lemma is_suffix_trans (a b c : str) :
  is_suffix a b -> is_suffix b c -> is_suffix a c.
Proof.
  intros [p ->] [q ->]. exists (q ++ p). rewrite app_assoc. reflexivity.
Qed.

Lemma is_suffix_In (a b : str) (x : char) :
  is_suffix a b -> List.In x a -> List.In x b.
Proof. intros [p ->] H. apply in_or_app. right. exact H. Qed.

Lemma step_suffix (p : char -> bool) (st st' : mstate) :
  step p st = Some st' -> is_suffix (m_rest st') (m_rest st).
Proof.
  unfold step. destruct (m_rest st) as [| x xs]; [discriminate |].
  destruct (p x); [| discriminate].
  intros H. injection H as <-. apply is_suffix_tail.
Qed.

Section Failing.

Variable A : Type.
Variable k : mstate -> option A.

Lemma fails_after_suffix (st st1 : mstate) :
  fails_after k st -> is_suffix (m_rest st1) (m_rest st) ->
  fails_after k st1.
Proof.
  intros H Hs st2 H2. apply H. eapply is_suffix_trans; eassumption.
Qed.

Lemma step_fails (p : char -> bool) (st : mstate) :
  fails_after k st ->
  match step p st with Some st' => k st' | None => None end = None.
Proof.
  intros H. destruct (step p st) as [st' |] eqn:E; [| reflexivity].
  apply H. eapply step_suffix; eassumption.
Qed.

End Failing.

Lemma rep_loop_fails {A} (body : mstate -> (mstate -> option A) -> option A)
      (k : mstate -> option A) :
  (forall st k', fails_after k' st -> body st k' = None) ->
  forall fuel lo hi st,
    fails_after k st -> rep_loop body k fuel lo hi st = None.
Proof.
  intros Hbody. induction fuel as [| fuel IH]; intros lo hi st Hk;
    [reflexivity |].
  cbn [rep_loop].
  assert (Hstop : (if Nat.eqb lo 0 then k st else None) = None).
  { destruct (Nat.eqb lo 0); [apply Hk, is_suffix_refl | reflexivity]. }
  rewrite Hstop. destruct (hi_zero hi); [reflexivity |].
  rewrite Hbody; [reflexivity |].
  intros st1 Hs. destruct (_ || _); [| reflexivity].
  apply IH. eapply fails_after_suffix; eassumption.
Qed.

(** A continuation of the matcher is only ever run on what is left of the
    text: if it fails on every suffix, the match fails. *)
Lemma rmatch_fails {A} (ic : bool) (r : Re.regex) :
  forall (st : mstate) (k : mstate -> option A),
    fails_after k st -> rmatch ic r st k = None.
Proof.
  induction r as [| c | items | | | | r1 IH1 r2 IH2 | r1 IH1 r2 IH2
                  | lo hi r IH | n r IH]; intros st k Hk; cbn [rmatch].
  - apply Hk, is_suffix_refl.
  - apply step_fails. exact Hk.
  - apply step_fails. exact Hk.
  - apply step_fails. exact Hk.
  - apply step_fails. exact Hk.
  - destruct (at_boundary st); [apply Hk, is_suffix_refl | reflexivity].
  - apply IH1. intros st1 Hs. apply IH2.
    eapply fails_after_suffix; eassumption.
  - rewrite IH1, IH2 by exact Hk. reflexivity.
  - apply rep_loop_fails; [| exact Hk].
    intros st' k' Hk'. apply IH. exact Hk'.
  - apply IH. intros st1 Hs. apply Hk. exact Hs.
Qed.

Lemma free_of_suffix (P : char -> bool) (a b : str) :
  is_suffix a b -> free_of P b -> free_of P a.
Proof. intros Hs H x Hx. apply H. eapply is_suffix_In; eassumption. Qed.

Lemma step_free (P p : char -> bool) (st : mstate) :
  (forall x, p x = true -> P x = true) ->
  free_of P (m_rest st) -> step p st = None.
Proof.
  intros Hp Hfree. unfold step.
  destruct (m_rest st) as [| x xs]; [reflexivity |].
  destruct (p x) eqn:E; [| reflexivity].
  specialize (Hp x E).
  rewrite (Hfree x (or_introl eq_refl)) in Hp. discriminate.
Qed.

Lemma needs_fails {A} (P : char -> bool) (ic : bool) (r : Re.regex) :
  needs P ic r ->
  forall (st : mstate) (k : mstate -> option A),
    free_of P (m_rest st) -> rmatch ic r st k = None.
Proof.
  induction 1 as [c Hc | items Hi | Hs | Hd | r1 r2 _ IH | r1 r2 _ IH
                  | r1 r2 _ IH1 _ IH2 | lo hi r Hlo _ IH | n r _ IH];
    intros st k Hfree; cbn [rmatch].
  - erewrite step_free by eassumption. reflexivity.
  - erewrite step_free by eassumption. reflexivity.
  - erewrite step_free by eassumption. reflexivity.
  - erewrite step_free by eassumption. reflexivity.
  - apply IH. exact Hfree.
  - apply rmatch_fails. intros st1 Hs1. apply IH.
    eapply free_of_suffix; eassumption.
  - rewrite IH1, IH2 by exact Hfree. reflexivity.
  - cbn [rep_loop]. destruct lo; [contradiction Hlo; reflexivity |].
    cbn [Nat.eqb]. destruct (hi_zero hi); [reflexivity |].
    rewrite IH by exact Hfree. reflexivity.
  - apply IH. exact Hfree.
Qed.

Lemma free_of_tail (P : char -> bool) (c : char) (s : str) :
  free_of P (c :: s) -> free_of P s.
Proof. intros H x Hx. apply H. right. exact Hx. Qed.

Lemma search_needs (P : char -> bool) (ic : bool) (r : Re.regex) :
  needs P ic r ->
  forall (s : str) (prev : option char) (pos : nat),
    free_of P s -> search_from ic r prev s pos = None.
Proof.
  intros Hn. induction s as [| c s IH]; intros prev pos Hfree;
    cbn [search_from]; erewrite needs_fails by eassumption.
  - reflexivity.
  - apply IH. eapply free_of_tail; eassumption.
Qed.

Lemma sub_needs (P : char -> bool) (ic : bool) (r : Re.regex) (repl : str) :
  needs P ic r ->
  forall (fuel : nat) (s : str) (prev : option char),
    free_of P s -> sub_go fuel ic r repl prev s = s.
Proof.
  intros Hn. induction fuel as [| fuel IH]; intros s prev Hfree;
    [reflexivity |].
  cbn [sub_go]. erewrite needs_fails by eassumption.
  destruct s as [| c s]; [reflexivity |].
  rewrite IH by (eapply free_of_tail; eassumption). reflexivity.
Qed.

(** The two postal-code patterns of the Normalizer need a decimal digit. *)
Lemma country_zip_needs_digit :
  needs isdecimal (ignorecase country_zip) (tree country_zip).
Proof.
  cbn. do 3 apply needs_cat_r. apply needs_cat_l.
  apply needs_rep; [discriminate |]. apply needs_digit. auto.
Qed.

Lemma bare_zip_needs_digit :
  needs isdecimal (ignorecase bare_zip) (tree bare_zip).
Proof.
  cbn. apply needs_cat_r. apply needs_cat_l.
  apply needs_rep; [discriminate |]. apply needs_digit. auto.
Qed.

Lemma separators_need_one :
  needs is_separator (ignorecase separators) (tree separators).
Proof.
  cbn. apply needs_oneof. intros x H.
  unfold in_ok in H. cbn [andb] in H. unfold is_separator, mem.
  change (u ";,|") with [59; 44; 124]%N.
  change (chars ";,|") with [CChar 59; CChar 44; CChar 124]%N in H.
  cbn [existsb item_has] in H. cbn [existsb]. exact H.
Qed.

Lemma strip_postal_codes_id (s : str) :
  free_of isdecimal s ->
  re_sub bare_zip [] (re_sub country_zip [] s) = s.
Proof.
  intros H. unfold re_sub, sub.
  rewrite (@sub_needs isdecimal _ _ [] country_zip_needs_digit _ s None H).
  rewrite (@sub_needs isdecimal _ _ [] bare_zip_needs_digit _ s None H).
  reflexivity.
Qed.

Lemma cut_separators_id (s : str) :
  free_of is_separator s ->
  split_head (ignorecase separators) (tree separators) s = s.
Proof.
  intros H. unfold split_head, search.
  rewrite (@search_needs is_separator _ _ separators_need_one s None 0 H).
  reflexivity.
Qed.

(** ** Cutting at annotation markers *)

Lemma startswith_app (p r : str) : startswith p (p ++ r) = true.
Proof.
  induction p as [| x p IH]; [reflexivity |].
  cbn. rewrite N.eqb_refl. exact IH.
Qed.

Lemma startswith_inv (p s : str) :
  startswith p s = true -> exists r, s = p ++ r.
Proof.
  revert s. induction p as [| x p IH]; intros s H; [exists s; reflexivity |].
  destruct s as [| y s]; [discriminate |]. cbn in H.
  apply andb_true_iff in H. destruct H as [Hx Hp].
  apply N.eqb_eq in Hx. subst y.
  destruct (IH s Hp) as [r ->]. exists r. reflexivity.
Qed.

Lemma startswith_mono (t p r : str) :
  startswith t p = true -> startswith t (p ++ r) = true.
Proof.
  intros H. destruct (startswith_inv _ _ H) as [q ->].
  rewrite <- app_assoc. apply startswith_app.
Qed.

Lemma contains_cons (tok : str) (c : char) (s : str) :
  contains tok (c :: s) = startswith tok (c :: s) || contains tok s.
Proof. reflexivity. Qed.

Lemma contains_nil (tok : str) : contains tok [] = startswith tok [].
Proof. cbn. apply orb_false_r. Qed.

Lemma contains_mono (t p r : str) :
  contains t p = true -> contains t (p ++ r) = true.
Proof.
  induction p as [| c p IH]; intros H.
  - rewrite contains_nil in H. destruct t; [| discriminate].
    destruct r; reflexivity.
  - rewrite contains_cons in H. cbn [app]. rewrite contains_cons.
    apply orb_true_iff in H. apply orb_true_iff. destruct H as [H | H].
    + left. exact (startswith_mono _ _ r H).
    + right. apply IH. exact H.
Qed.

Lemma contains_prefix_false (t p r : str) :
  contains t (p ++ r) = false -> contains t p = false.
Proof.
  intros H. destruct (contains t p) eqn:E; [| reflexivity].
  rewrite (contains_mono _ _ r E) in H. discriminate.
Qed.

Lemma before_first_cons (tok : str) (c : char) (s : str) :
  before_first tok (c :: s)
  = if startswith tok (c :: s) then [] else c :: before_first tok s.
Proof. reflexivity. Qed.

Lemma before_first_nil (tok : str) : before_first tok [] = [].
Proof. cbn. destruct (startswith tok []); reflexivity. Qed.

Lemma before_first_id (tok s : str) :
  contains tok s = false -> before_first tok s = s.
Proof.
  induction s as [| c s IH]; intros H; [apply before_first_nil |].
  rewrite contains_cons in H. apply orb_false_iff in H. destruct H as [H1 H2].
  rewrite before_first_cons, H1, IH by exact H2. reflexivity.
Qed.

Lemma before_first_split (tok s : str) :
  contains tok s = true -> exists rest, s = before_first tok s ++ tok ++ rest.
Proof.
  induction s as [| c s IH]; intros H.
  - rewrite contains_nil in H. destruct (startswith_inv _ _ H) as [r Hr].
    rewrite before_first_nil. exists r. exact Hr.
  - rewrite before_first_cons. destruct (startswith tok (c :: s)) eqn:E.
    + destruct (startswith_inv _ _ E) as [r Hr]. exists r. exact Hr.
    + rewrite contains_cons, E in H. cbn [orb] in H.
      destruct (IH H) as [rest Hrest]. exists rest.
      cbn [app]. rewrite <- Hrest. reflexivity.
Qed.

Lemma before_first_prefix (tok s : str) :
  exists r, s = before_first tok s ++ r.
Proof.
  destruct (contains tok s) eqn:E.
  - destruct (before_first_split _ _ E) as [rest H]. exists (tok ++ rest).
    exact H.
  - exists []. rewrite before_first_id by exact E. rewrite app_nil_r.
    reflexivity.
Qed.

Lemma before_first_free (tok s : str) :
  tok <> [] -> contains tok (before_first tok s) = false.
Proof.
  intros Hne. induction s as [| c s IH].
  - rewrite before_first_nil, contains_nil.
    destruct tok; [contradiction Hne; reflexivity | reflexivity].
  - rewrite before_first_cons. destruct (startswith tok (c :: s)) eqn:E.
    + rewrite contains_nil.
      destruct tok; [contradiction Hne; reflexivity | reflexivity].
    + rewrite contains_cons, IH, orb_false_r.
      destruct (startswith tok (c :: before_first tok s)) eqn:E2;
        [| reflexivity].
      destruct (before_first_prefix tok s) as [r Hr].
      apply (startswith_mono _ _ r) in E2. cbn [app] in E2.
      rewrite <- Hr in E2. congruence.
Qed.

Lemma cut_at_prefix (toks : list str) (s : str) :
  exists r, s = cut_at toks s ++ r.
Proof.
  revert s. induction toks as [| t toks IH]; intros s.
  - exists []. cbn. rewrite app_nil_r. reflexivity.
  - cbn [cut_at fold_left]. fold (cut_at toks (before_first t s)).
    destruct (IH (before_first t s)) as [r1 H1].
    destruct (before_first_prefix t s) as [r2 H2].
    exists (r1 ++ r2). rewrite app_assoc, <- H1. exact H2.
Qed.

Lemma cut_at_id (toks : list str) (s : str) :
  marked toks s = false -> cut_at toks s = s.
Proof.
  revert s. induction toks as [| t toks IH]; intros s H; [reflexivity |].
  cbn [marked existsb] in H. apply orb_false_iff in H. destruct H as [H1 H2].
  cbn [cut_at fold_left]. rewrite before_first_id by exact H1.
  apply IH. exact H2.
Qed.

Lemma marked_prefix_false (toks : list str) (p r : str) :
  marked toks (p ++ r) = false -> marked toks p = false.
Proof.
  induction toks as [| t toks IH]; intros H; [reflexivity |].
  cbn [marked existsb] in *. apply orb_false_iff in H. destruct H as [H1 H2].
  rewrite (contains_prefix_false _ _ _ H1). cbn [orb]. apply IH. exact H2.
Qed.

Lemma cut_at_free (toks : list str) (s : str) :
  Forall (fun t => t <> []) toks -> marked toks (cut_at toks s) = false.
Proof.
  intros Hne. revert s. induction Hne as [| t toks Ht _ IH]; intros s;
    [reflexivity |].
  cbn [cut_at fold_left]. fold (cut_at toks (before_first t s)).
  cbn [marked existsb]. fold (marked toks (cut_at toks (before_first t s))).
  rewrite IH, orb_false_r.
  destruct (cut_at_prefix toks (before_first t s)) as [r Hr].
  apply (contains_prefix_false _ _ r). rewrite <- Hr.
  apply before_first_free. exact Ht.
Qed.

Lemma cut_at_marker (toks : list str) (s : str) :
  marked toks s = true ->
  exists tok rest, List.In tok toks /\ s = cut_at toks s ++ tok ++ rest.
Proof.
  revert s. induction toks as [| t toks IH]; intros s H; [discriminate |].
  cbn [cut_at fold_left]. fold (cut_at toks (before_first t s)).
  destruct (marked toks (before_first t s)) eqn:E.
  - destruct (IH _ E) as (tok & rest & Hin & Hs).
    destruct (before_first_prefix t s) as [r Hr].
    exists tok, (rest ++ r). split; [right; exact Hin |].
    rewrite Hr at 1. rewrite Hs at 1. rewrite <- !app_assoc. reflexivity.
  - rewrite (cut_at_id _ _ E).
    destruct (contains t s) eqn:Et.
    + destruct (before_first_split _ _ Et) as [rest Hrest].
      exists t, rest. split; [left; reflexivity | exact Hrest].
    + rewrite before_first_id in E by exact Et.
      cbn [marked existsb] in H. rewrite Et in H. cbn [orb] in H.
      unfold marked in E. congruence.
Qed.

Lemma split_tokens_nonempty : Forall (fun t : str => t <> []) split_tokens.
Proof. repeat constructor; discriminate. Qed.

Lemma free_of_forallb (P : char -> bool) (s : str) :
  forallb (fun x => negb (P x)) s = true -> free_of P s.
Proof.
  intros H x Hx. rewrite forallb_forall in H. specialize (H x Hx).
  destruct (P x); [discriminate | reflexivity].
Qed.

Lemma free_of_prefix (P : char -> bool) (p r : str) :
  free_of P (p ++ r) -> free_of P p.
Proof. intros H x Hx. apply H. apply in_or_app. left. exact Hx. Qed.

Lemma clean_city_steps (raw : str) :
  is_empty raw = false ->
  _clean_city raw
  = finish (cut_annotations (re_sub bare_zip [] (re_sub country_zip [] raw))).
Proof. intros H. unfold _clean_city. rewrite H. reflexivity. Qed.

Lemma finish_nil : finish [] = [].
Proof. vm_compute. reflexivity. Qed.

Lemma clean_city_digit_free (raw : str) :
  free_of isdecimal raw -> _clean_city raw = finish (cut_annotations raw).
Proof.
  intros H. destruct raw as [| c raw]; [symmetry; exact finish_nil |].
  rewrite clean_city_steps by reflexivity.
  rewrite strip_postal_codes_id by exact H. reflexivity.
Qed.

(** ** C6: annotation markers *)

(** C6, as stated, fails: a marker written in capitals is not matched, and
    the text from it onward stays in the result, as for a city captured
    from a line in capitals. *)
Lemma marker_in_capitals_not_cut :
  lower (u "NA ZLEC") = u "na zlec"
  /\ contains (u "NA ZLEC") (u "ROKIETNICA NA ZLEC. FIRMA") = true
  /\ _clean_city (u "ROKIETNICA NA ZLEC. FIRMA")
     = u "Rokietnica Na Zlec. Firma"
  /\ _regex_city (u "PL62-090 ROKIETNICA NA ZLEC. FIRMA")
     = Some (u "Rokietnica Na Zlec. Firma")
  /\ _regex_city (u "PL62-090 Rokietnica na zlec. Firma")
     = Some (u "Rokietnica").
Proof. vm_compute. repeat split; reflexivity. Qed.

(** C6, amended: the markers are matched as spelled, in lower case.  The
    cut comes after the postal codes are stripped and before separators,
    white space and letter case are treated.  When the text holds a marker
    so spelled, what is kept is the text before an occurrence of a marker,
    and no marker is left in it; a text without such a marker is kept
    whole.  For a raw string without digits, of characters of the
    repertoire, the result is that of the text kept by the cut. *)
Theorem annotations_cut_as_spelled :
  (forall raw, is_empty raw = false ->
     _clean_city raw
     = smart_title
         (strip (re_sub spaces (u " ")
            (split_head (ignorecase separators) (tree separators)
               (cut_annotations
                  (re_sub bare_zip [] (re_sub country_zip [] raw)))))))
  /\ (forall s, marked split_tokens s = true ->
        exists tok rest,
          List.In tok split_tokens /\ s = cut_annotations s ++ tok ++ rest)
  /\ (forall s, marked split_tokens (cut_annotations s) = false)
  /\ (forall s, marked split_tokens s = false -> cut_annotations s = s)
  /\ (forall raw, forallb in_repertoire raw = true ->
        free_of isdecimal raw ->
        _clean_city raw = _clean_city (cut_annotations raw)).
Proof.
  split; [exact clean_city_steps |].
  split; [intros s H; exact (cut_at_marker split_tokens s H) |].
  split; [intros s; exact (cut_at_free s split_tokens_nonempty) |].
  split; [intros s H; exact (cut_at_id split_tokens s H) |].
  intros raw _ H.
  rewrite (clean_city_digit_free H).
  destruct (cut_at_prefix split_tokens raw) as [r Hr].
  change (raw = cut_annotations raw ++ r) in Hr.
  assert (H2 : free_of isdecimal (cut_annotations raw)).
  { apply (@free_of_prefix _ _ r). rewrite <- Hr. exact H. }
  rewrite (clean_city_digit_free H2).
  change (cut_annotations (cut_annotations raw))
    with (cut_at split_tokens (cut_annotations raw)).
  rewrite (cut_at_id split_tokens (cut_annotations raw)); [reflexivity |].
  exact (cut_at_free raw split_tokens_nonempty).
Qed.

(** A marker in lower case: the text from it onward is dropped. *)
Lemma annotations_cut_as_spelled_witness :
  cut_annotations (u "Rokietnica na zlec. Firma") = u "Rokietnica "
  /\ _clean_city (u "Rokietnica na zlec. Firma") = u "Rokietnica".
Proof.
  destruct annotations_cut_as_spelled as (_ & _ & _ & _ & H).
  split; [vm_compute; reflexivity |].
  rewrite H.
  - vm_compute. reflexivity.
  - vm_compute. reflexivity.
  - apply free_of_forallb. vm_compute. reflexivity.
Defined.

(** ** White space that is already collapsed *)

Lemma spaces_at_letter (prev : option char) (c : char) (r : str)
      (k : mstate -> option mstate) :
  isspace c = false ->
  rmatch false (tree spaces) (MState prev (c :: r) []) k = None.
Proof.
  intros H. cbn [tree spaces plus rmatch]. cbn [rep_loop Nat.add Nat.eqb hi_zero].
  unfold step. cbn [m_rest]. rewrite H. reflexivity.
Qed.

Lemma spaces_at_end (prev : option char) (k : mstate -> option mstate) :
  rmatch false (tree spaces) (MState prev [] []) k = None.
Proof. reflexivity. Qed.

Lemma spaces_at_single (prev : option char) (c : char) (r : str) :
  isspace c = true ->
  match r with [] => true | d :: _ => negb (isspace d) end = true ->
  rmatch false (tree spaces) (MState prev (c :: r) []) (fun st => Some st)
  = Some (MState (Some c) r []).
Proof.
  intros Hc Hr. cbn [tree spaces plus rmatch].
  cbn [rep_loop Nat.add Nat.eqb hi_zero m_rest List.length].
  unfold step at 1. cbn [m_rest m_groups]. rewrite Hc.
  cbn [Nat.ltb Nat.leb orb Nat.pred hi_pred rep_loop Nat.eqb hi_zero].
  unfold step. cbn [m_rest].
  destruct r as [| d r]; [reflexivity |].
  apply negb_true_iff in Hr. rewrite Hr. reflexivity.
Qed.

Lemma sub_spaces_id (fuel : nat) :
  forall (s : str) (prev : option char),
    (List.length s < fuel)%nat -> spaced s = true ->
    sub_go fuel false (tree spaces) (u " ") prev s = s.
Proof.
  induction fuel as [| fuel IH]; intros s prev Hlen Hs; [lia |].
  destruct s as [| c r]; [reflexivity |].
  cbn [spaced] in Hs. apply andb_true_iff in Hs. destruct Hs as [Hc Hr].
  cbn [List.length] in Hlen.
  cbn [sub_go]. destruct (isspace c) eqn:Ec.
  - cbn [negb orb] in Hc. apply andb_true_iff in Hc. destruct Hc as [H32 Hd].
    rewrite (spaces_at_single prev c r Ec Hd). cbn [m_rest m_prev List.length].
    replace (Nat.ltb (List.length r) (S (List.length r))) with true
      by (symmetry; apply Nat.ltb_lt; lia).
    rewrite IH by (exact Hr || lia).
    apply N.eqb_eq in H32. subst c. reflexivity.
  - rewrite (spaces_at_letter prev c r _ Ec).
    rewrite IH by (exact Hr || lia). reflexivity.
Qed.

Lemma collapse_spaces_id (s : str) :
  spaced s = true -> re_sub spaces (u " ") s = s.
Proof.
  intros H. unfold re_sub, sub. apply sub_spaces_id; [lia | exact H].
Qed.

(** ** Canonical city names *)

Lemma between_nrange (lo hi c : char) :
  between lo hi c = true -> List.In c (nrange lo hi).
Proof.
  unfold between, nrange. intros H.
  apply andb_true_iff in H. destruct H as [H1 H2].
  apply N.leb_le in H1. apply N.leb_le in H2.
  apply in_map_iff. exists (N.to_nat (c - lo)). split; [lia |].
  apply in_seq. lia.
Qed.

Lemma mem_In (c : char) (l : list char) : mem c l = true -> List.In c l.
Proof.
  unfold mem. rewrite existsb_exists. intros (x & Hx & E).
  apply N.eqb_eq in E. subst. exact Hx.
Qed.

Lemma upper_letter_props (c : char) :
  upper_letter c = true ->
  inert c = true /\ title_full c = [c] /\ N.eqb c (ch ".") = false.
Proof.
  intros H.
  assert (Hin : List.In c (nrange (ch "A") (ch "Z") ++ u "ĄĆĘŁŃÓŚŻŹÄÖÜ")).
  { unfold upper_letter in H. apply orb_true_iff in H. apply in_or_app.
    destruct H as [H | H]; [left; apply between_nrange | right; apply mem_In];
      exact H. }
  assert (Hall : forallb (fun c => inert c && Py.eqb (title_full c) [c]
                                   && negb (N.eqb c (ch ".")))
                         (nrange (ch "A") (ch "Z") ++ u "ĄĆĘŁŃÓŚŻŹÄÖÜ")
                 = true) by (vm_compute; reflexivity).
  rewrite forallb_forall in Hall. specialize (Hall c Hin).
  apply andb_true_iff in Hall. destruct Hall as [Hall H3].
  apply andb_true_iff in Hall. destruct Hall as [H1 H2].
  split; [exact H1 |]. split; [apply eqb_eq; exact H2 |].
  apply negb_true_iff. exact H3.
Qed.

Lemma lower_tail_props (c : char) :
  lower_tail c = true -> inert c = true /\ lower_full c = [c].
Proof.
  intros H.
  assert (Hin : List.In c (nrange (ch "a") (ch "z") ++ u "ąćęłńóśżźäöüß-'.")).
  { unfold lower_tail in H. apply orb_true_iff in H. apply in_or_app.
    destruct H as [H | H]; [left; apply between_nrange | right; apply mem_In];
      exact H. }
  assert (Hall : forallb (fun c => inert c && Py.eqb (lower_full c) [c])
                         (nrange (ch "a") (ch "z") ++ u "ąćęłńóśżźäöüß-'.")
                 = true) by (vm_compute; reflexivity).
  rewrite forallb_forall in Hall. specialize (Hall c Hin).
  apply andb_true_iff in Hall. destruct Hall as [H1 H2].
  split; [exact H1 | apply eqb_eq; exact H2].
Qed.

Lemma lower_fixed (r : str) : forallb lower_tail r = true -> lower r = r.
Proof.
  induction r as [| x r IH]; intros H; [reflexivity |].
  cbn [forallb] in H. apply andb_true_iff in H. destruct H as [Hx Hr].
  unfold lower. cbn [flat_map]. fold (lower r).
  rewrite IH by exact Hr.
  destruct (lower_tail_props _ Hx) as [_ ->]. reflexivity.
Qed.

Lemma capitalize_canonical (c : char) (r : str) :
  upper_letter c = true -> forallb lower_tail r = true ->
  capitalize (c :: r) = c :: r.
Proof.
  intros Hc Hr. cbn [capitalize]. rewrite lower_fixed by exact Hr.
  destruct (upper_letter_props _ Hc) as (_ & -> & _). reflexivity.
Qed.

Lemma endswith_char_last (c : char) (s : str) (z : char) :
  endswith_char c (s ++ [z]) = N.eqb z c.
Proof. unfold endswith_char. rewrite rev_app_distr. reflexivity. Qed.

(** The word-wise step of [smart_title] leaves a canonical word as it is. *)
Lemma title_word_fixed (w : str) :
  canonical_word w = true ->
  (if negb (endswith_char (ch ".") w) then capitalize w
   else capitalize (removelast w) ++ u ".") = w.
Proof.
  destruct w as [| c r]; [discriminate |]. cbn [canonical_word]. intros H.
  apply andb_true_iff in H. destruct H as [Hc Hr].
  destruct (endswith_char (ch ".") (c :: r)) eqn:E; cbn [negb];
    [| apply capitalize_canonical; assumption].
  destruct r as [| y r'] eqn:Er.
  - unfold endswith_char in E. cbn in E.
    destruct (upper_letter_props _ Hc) as (_ & _ & Hdot).
    change (ch ".") with 46%N in Hdot. congruence.
  - rewrite <- Er in *. assert (Hne : r <> []) by (subst r; discriminate).
    destruct (exists_last Hne) as (r0 & z & Hz). rewrite Hz in *.
    change (c :: r0 ++ [z]) with ((c :: r0) ++ [z]) in *.
    rewrite endswith_char_last in E. apply N.eqb_eq in E. subst z.
    rewrite removelast_last.
    rewrite forallb_app in Hr. apply andb_true_iff in Hr.
    destruct Hr as [Hr0 _].
    rewrite capitalize_canonical by assumption. reflexivity.
Qed.

Lemma canonical_word_inert (w : str) (x : char) :
  canonical_word w = true -> List.In x w -> inert x = true.
Proof.
  destruct w as [| c r]; [discriminate |]. cbn [canonical_word]. intros H.
  apply andb_true_iff in H. destruct H as [Hc Hr].
  intros [<- | Hx].
  - apply upper_letter_props. exact Hc.
  - rewrite forallb_forall in Hr. apply lower_tail_props. apply Hr. exact Hx.
Qed.

Lemma inert_props (x : char) :
  inert x = true ->
  isspace x = false /\ isdecimal x = false /\ is_separator x = false.
Proof.
  unfold inert. intros H.
  apply andb_true_iff in H. destruct H as [H H3].
  apply andb_true_iff in H. destruct H as [H1 H2].
  repeat split; apply negb_true_iff; assumption.
Qed.

Lemma canonical_word_inert_word (w : str) :
  canonical_word w = true -> inert_word w.
Proof.
  intros H. split.
  - destruct w; [discriminate | discriminate].
  - intros x Hx. exact (canonical_word_inert w x H Hx).
Qed.

Lemma join_cons2 (sep w w2 : str) (ws : list str) :
  join sep (w :: w2 :: ws) = w ++ sep ++ join sep (w2 :: ws).
Proof. reflexivity. Qed.

Lemma join_In (ws : list str) (x : char) :
  List.In x (join space ws) ->
  x = 32%N \/ exists w, List.In w ws /\ List.In x w.
Proof.
  induction ws as [| w ws IH]; [intros [] |].
  destruct ws as [| w2 ws].
  - cbn [join]. intros H. right. exists w. split; [left; reflexivity | exact H].
  - rewrite join_cons2. intros H.
    apply in_app_or in H. destruct H as [H | H].
    + right. exists w. split; [left; reflexivity | exact H].
    + apply in_app_or in H. destruct H as [H | H].
      * left. destruct H as [H | []]. symmetry. exact H.
      * destruct (IH H) as [E | (w' & Hw & Hx)]; [left; exact E |].
        right. exists w'. split; [right; exact Hw | exact Hx].
Qed.

Lemma join_free (P : char -> bool) (ws : list str) :
  P 32%N = false ->
  (forall x, inert x = true -> P x = false) ->
  Forall inert_word ws -> free_of P (join space ws).
Proof.
  intros H32 HP Hws x Hx.
  destruct (join_In ws x Hx) as [-> | (w & Hw & Hxw)]; [exact H32 |].
  rewrite Forall_forall in Hws. apply HP.
  destruct (Hws w Hw) as [_ H]. apply H. exact Hxw.
Qed.

Lemma spaced_word (w X : str) :
  (forall x, List.In x w -> inert x = true) ->
  spaced X = true -> spaced (w ++ X) = true.
Proof.
  intros Hw HX. induction w as [| c w IH]; [exact HX |].
  cbn [app spaced].
  destruct (inert_props c (Hw c (or_introl eq_refl))) as (Hs & _).
  rewrite Hs. cbn [negb orb andb].
  apply IH. intros x Hx. apply Hw. right. exact Hx.
Qed.

Lemma join_head (w : str) (ws : list str) :
  inert_word w ->
  exists c r, join space (w :: ws) = c :: r /\ inert c = true.
Proof.
  intros [Hne Hw]. destruct w as [| c w]; [contradiction Hne; reflexivity |].
  destruct ws as [| w2 ws].
  - exists c, w. split; [reflexivity | apply Hw; left; reflexivity].
  - rewrite join_cons2. exists c, (w ++ space ++ join space (w2 :: ws)).
    split; [reflexivity | apply Hw; left; reflexivity].
Qed.

Lemma join_spaced (ws : list str) :
  Forall inert_word ws -> spaced (join space ws) = true.
Proof.
  induction 1 as [| w ws Hw Hws IH]; [reflexivity |].
  destruct ws as [| w2 ws].
  - cbn [join]. rewrite <- (app_nil_r w). apply spaced_word; [| reflexivity].
    apply Hw.
  - rewrite join_cons2. apply spaced_word; [apply Hw |].
    inversion Hws as [| ? ? Hw2 _]; subst.
    destruct (join_head ws Hw2) as (c & r & E & Hc).
    change (space ++ join space (w2 :: ws))
      with (32%N :: join space (w2 :: ws)).
    rewrite E in *. cbn [spaced] in *.
    destruct (inert_props c Hc) as (Hs & _). rewrite Hs in *.
    cbn [negb orb andb] in *. exact IH.
Qed.

Lemma join_last (ws : list str) :
  ws <> [] -> Forall inert_word ws ->
  exists r z, join space ws = r ++ [z] /\ inert z = true.
Proof.
  intros Hne Hws. induction Hws as [| w ws Hw Hws IH];
    [contradiction Hne; reflexivity |].
  destruct ws as [| w2 ws].
  - cbn [join]. destruct Hw as [Hw1 Hw2].
    destruct (exists_last Hw1) as (r & z & ->).
    exists r, z. split; [reflexivity |].
    apply Hw2. apply in_or_app. right. left. reflexivity.
  - destruct IH as (r & z & E & Hz); [discriminate |].
    rewrite join_cons2, E. exists (w ++ space ++ r), z.
    split; [rewrite <- !app_assoc; reflexivity | exact Hz].
Qed.

Lemma lstrip_inert (c : char) (r : str) :
  inert c = true -> lstrip (c :: r) = c :: r.
Proof.
  intros H. destruct (inert_props c H) as (Hs & _).
  cbn [lstrip]. rewrite Hs. reflexivity.
Qed.

Lemma join_strip (ws : list str) :
  ws <> [] -> Forall inert_word ws ->
  strip (join space ws) = join space ws.
Proof.
  intros Hne Hws. unfold strip, rstrip.
  destruct ws as [| w ws]; [contradiction Hne; reflexivity |].
  inversion Hws as [| ? ? Hw _]; subst.
  destruct (join_head ws Hw) as (c & r & E & Hc).
  rewrite E, (@lstrip_inert c r Hc), <- E.
  destruct (join_last Hne Hws) as (r' & z & E' & Hz).
  rewrite E', rev_app_distr. cbn [rev app].
  rewrite (@lstrip_inert z _ Hz). cbn [rev]. rewrite rev_involutive.
  reflexivity.
Qed.

Lemma split_char_word (w X : str) :
  (forall x, List.In x w -> inert x = true) ->
  split_char 32%N (w ++ 32%N :: X) = w :: split_char 32%N X.
Proof.
  intros Hw. induction w as [| c w IH].
  - reflexivity.
  - cbn [app split_char].
    assert (Hc : N.eqb c 32 = false).
    { destruct (N.eqb c 32) eqn:E; [| reflexivity].
      apply N.eqb_eq in E. subst c.
      specialize (Hw 32%N (or_introl eq_refl)). discriminate. }
    rewrite Hc, IH; [reflexivity |].
    intros x Hx. apply Hw. right. exact Hx.
Qed.

Lemma split_char_single (w : str) :
  (forall x, List.In x w -> inert x = true) -> split_char 32%N w = [w].
Proof.
  intros Hw. induction w as [| c w IH]; [reflexivity |].
  cbn [split_char].
  assert (Hc : N.eqb c 32 = false).
  { destruct (N.eqb c 32) eqn:E; [| reflexivity].
    apply N.eqb_eq in E. subst c.
    specialize (Hw 32%N (or_introl eq_refl)). discriminate. }
  rewrite Hc, IH; [reflexivity |].
  intros x Hx. apply Hw. right. exact Hx.
Qed.

Lemma split_char_join (ws : list str) :
  ws <> [] -> Forall inert_word ws ->
  split_char 32%N (join space ws) = ws.
Proof.
  intros Hne Hws. induction Hws as [| w ws Hw Hws IH];
    [contradiction Hne; reflexivity |].
  destruct ws as [| w2 ws].
  - cbn [join]. apply split_char_single. apply Hw.
  - rewrite join_cons2.
    change (space ++ join space (w2 :: ws))
      with (32%N :: join space (w2 :: ws)).
    rewrite split_char_word by apply Hw.
    rewrite IH by discriminate. reflexivity.
Qed.

Lemma smart_title_canonical (ws : list str) :
  ws <> [] -> forallb canonical_word ws = true ->
  smart_title (join space ws) = join space ws.
Proof.
  intros Hne Hws. unfold smart_title.
  assert (Hin : Forall inert_word ws).
  { apply Forall_forall. intros w Hw. apply canonical_word_inert_word.
    rewrite forallb_forall in Hws. apply Hws. exact Hw. }
  change (ch " ") with 32%N. rewrite (split_char_join Hne Hin).
  fold space. f_equal.
  rewrite <- (map_id ws) at 2. apply map_ext_in.
  intros w Hw. apply title_word_fixed.
  rewrite forallb_forall in Hws. apply Hws. exact Hw.
Qed.

(** ** C8: the Normalizer applied twice *)

(** C8, as stated, fails: re-casing turns "ATTN" inside a word in capitals
    into the marker "attn", which the second application cuts at; and a
    postal code that the first application leaves, because a marker stuck
    to it hides its end, is stripped by the second. *)
Lemma normalizer_not_idempotent :
  _clean_city (u "MATTNOW") = u "Mattnow"
  /\ _clean_city (_clean_city (u "MATTNOW")) = u "M"
  /\ _clean_city (u "12-345attn") = u "12-345"
  /\ _clean_city (_clean_city (u "12-345attn")) = [].
Proof. vm_compute. repeat split; reflexivity. Qed.

(** C8, amended: a canonical city name -- words joined by single spaces,
    each a capital letter followed by lower-case letters, hyphens,
    apostrophes or periods, and holding no annotation marker -- is returned
    as it is, so on canonical names applying the Normalizer twice is the
    same as applying it once. *)
Theorem canonical_name_fixed (words : list str) :
  words <> [] ->
  forallb canonical_word words = true ->
  marked split_tokens (join (u " ") words) = false ->
  _clean_city (join (u " ") words) = join (u " ") words
  /\ _clean_city (_clean_city (join (u " ") words))
     = _clean_city (join (u " ") words).
Proof.
  intros Hne Hws Hmark. fold space in *.
  assert (Hin : Forall inert_word words).
  { apply Forall_forall. intros w Hw. apply canonical_word_inert_word.
    rewrite forallb_forall in Hws. apply Hws. exact Hw. }
  assert (Hfix : _clean_city (join space words) = join space words).
  { rewrite clean_city_digit_free.
    2:{ apply join_free; [reflexivity | | exact Hin].
        intros x Hx. apply (inert_props x Hx). }
    change (cut_annotations (join space words))
      with (cut_at split_tokens (join space words)).
    rewrite (cut_at_id split_tokens _ Hmark). unfold finish.
    rewrite cut_separators_id.
    2:{ apply join_free; [reflexivity | | exact Hin].
        intros x Hx. apply (inert_props x Hx). }
    rewrite collapse_spaces_id by (apply join_spaced; exact Hin).
    rewrite (join_strip Hne Hin).
    apply smart_title_canonical; assumption. }
  split; [exact Hfix | rewrite Hfix; exact Hfix].
Qed.

(** A canonical name of two words. *)
Lemma canonical_name_fixed_witness :
  _clean_city (u "Zielona Góra") = u "Zielona Góra"
  /\ _clean_city (_clean_city (u "Zielona Góra"))
     = _clean_city (u "Zielona Góra").
Proof.
  apply (@canonical_name_fixed [u "Zielona"; u "Góra"]).
  - discriminate.
  - vm_compute. reflexivity.
  - vm_compute. reflexivity.
Defined.

(** * Further properties of the code *)

Unset Implicit Arguments.

(** ** [split] on one character *)

Lemma split_char_not_nil (sep : char) (s : str) : split_char sep s <> [].
Proof.
  induction s as [| c s IH]; cbn [split_char]; [discriminate |].
  destruct (N.eqb c sep); [discriminate |].
  destruct (split_char sep s); [contradiction IH; reflexivity | discriminate].
Qed.

Lemma split_char_length (sep : char) (s : str) :
  List.length (split_char sep s) = S (occurrences sep s).
Proof.
  unfold occurrences, count.
  induction s as [| c s IH]; [reflexivity |].
  cbn [split_char filter]. rewrite (N.eqb_sym sep c).
  destruct (N.eqb c sep); cbn [List.length]; [rewrite IH; reflexivity |].
  destruct (split_char sep s) as [| p ps] eqn:E;
    [exfalso; exact (split_char_not_nil sep s E) |].
  cbn [List.length] in *. exact IH.
Qed.

Lemma split_char_piece (sep : char) (w X : str) :
  occurrences sep w = 0 ->
  split_char sep (w ++ sep :: X) = w :: split_char sep X.
Proof.
  unfold occurrences, count. induction w as [| c w IH]; intros H.
  - cbn [app split_char]. rewrite N.eqb_refl. reflexivity.
  - cbn [app split_char]. cbn [filter] in H. rewrite (N.eqb_sym sep c) in H.
    destruct (N.eqb c sep); [discriminate |].
    rewrite IH by exact H. reflexivity.
Qed.

Lemma split_char_whole (sep : char) (w : str) :
  occurrences sep w = 0 -> split_char sep w = [w].
Proof.
  unfold occurrences, count. induction w as [| c w IH]; intros H;
    [reflexivity |].
  cbn [split_char]. cbn [filter] in H. rewrite (N.eqb_sym sep c) in H.
  destruct (N.eqb c sep); [discriminate |].
  rewrite IH by exact H. reflexivity.
Qed.

(** ** X1: what [format_date] accepts *)

Lemma format_date_none (s : str) :
  format_date s = None <-> s = [] \/ occurrences (ch ".") s <> 2.
Proof.
  unfold format_date.
  destruct s as [| c s]; [split; [left; reflexivity | reflexivity] |].
  cbn [is_empty].
  pose proof (split_char_length (ch ".") (c :: s)) as Hlen.
  destruct (split_char (ch ".") (c :: s)) as [| p1 [| p2 [| p3 [| p4 ps]]]];
    cbn [List.length] in Hlen; split; intros H;
    try reflexivity; try discriminate;
    try (right; lia);
    try (destruct H as [H | H]; [discriminate | lia]).
Qed.

Lemma format_date_dotted (d m y : str) :
  occurrences (ch ".") d = 0 -> occurrences (ch ".") m = 0 ->
  occurrences (ch ".") y = 0 ->
  format_date (dotted d m y)
  = Some (y ++ u "-" ++ zfill 2 m ++ u "-" ++ zfill 2 d).
Proof.
  intros Hd Hm Hy. unfold format_date, dotted.
  change (u ".") with [ch "."]. cbn [app].
  rewrite (split_char_piece _ _ _ Hd), (split_char_piece _ _ _ Hm),
    (split_char_whole _ _ Hy).
  destruct (d ++ ch "." :: m ++ ch "." :: y) eqn:E;
    [destruct d; discriminate | reflexivity].
Qed.

(** X1: [format_date] returns nothing exactly on the empty string and on a
    string that does not hold exactly two periods; on [d.m.y], whose parts
    hold no period, it returns [y-m-d] with month and day filled to two
    characters. *)
Theorem format_date_two_periods :
  (forall s, format_date s = None <-> s = [] \/ occurrences (ch ".") s <> 2)
  /\ (forall d m y,
        occurrences (ch ".") d = 0 -> occurrences (ch ".") m = 0 ->
        occurrences (ch ".") y = 0 ->
        format_date (dotted d m y)
        = Some (y ++ u "-" ++ zfill 2 m ++ u "-" ++ zfill 2 d)).
Proof.
  split.
  - intros s. apply format_date_none.
  - intros d m y Hd Hm Hy. apply format_date_dotted; assumption.
Qed.

Lemma format_date_two_periods_witness :
  format_date (u "24.11.2025") = Some (u "2025-11-24")
  /\ format_date (u "4.1.2025") = Some (u "2025-01-04").
Proof.
  destruct format_date_two_periods as [_ H]. split.
  - apply (H (u "24") (u "11") (u "2025")); reflexivity.
  - apply (H (u "4") (u "1") (u "2025")); reflexivity.
Defined.

(** ** X2: formatted dates sort by the calendar *)

Lemma str_ltb_app (a b x y : str) :
  List.length a = List.length b ->
  str_ltb (a ++ x) (b ++ y) = str_ltb a b || (Py.eqb a b && str_ltb x y).
Proof.
  revert b. induction a as [| c a IH]; intros [| e b] H; try discriminate.
  - cbn [app Py.eqb andb]. destruct x, y; reflexivity.
  - cbn [app str_ltb Py.eqb]. cbn [List.length] in H.
    rewrite (IH b) by lia.
    destruct (N.ltb c e), (N.eqb c e), (str_ltb a b), (Py.eqb a b);
      reflexivity.
Qed.

Lemma number_of_from (s : str) (n : nat) :
  fold_left (fun n c => 10 * n + N.to_nat (c - 48)) s n
  = n * 10 ^ List.length s + number_of s.
Proof.
  unfold number_of. revert n. induction s as [| c s IH]; intros n.
  - cbn. lia.
  - cbn [fold_left List.length]. rewrite IH, (IH (10 * 0 + _)).
    rewrite Nat.pow_succ_r'. lia.
Qed.

Lemma number_of_cons (c : char) (s : str) :
  number_of (c :: s) = N.to_nat (c - 48) * 10 ^ List.length s + number_of s.
Proof.
  unfold number_of at 1. cbn [fold_left]. rewrite number_of_from. lia.
Qed.

Lemma number_of_bound (s : str) :
  forallb isdecimal s = true -> number_of s < 10 ^ List.length s.
Proof.
  induction s as [| c s IH]; intros H; [cbn; lia |].
  cbn [forallb] in H. apply andb_true_iff in H. destruct H as [Hc Hs].
  rewrite number_of_cons. cbn [List.length]. rewrite Nat.pow_succ_r'.
  specialize (IH Hs).
  unfold isdecimal, between in Hc. apply andb_true_iff in Hc.
  destruct Hc as [H1 H2]. apply N.leb_le in H1. apply N.leb_le in H2.
  assert (N.to_nat (c - 48) <= 9) by lia. nia.
Qed.

Lemma digits_compare (a b : str) :
  List.length a = List.length b ->
  forallb isdecimal a = true -> forallb isdecimal b = true ->
  (str_ltb a b = true <-> number_of a < number_of b)
  /\ (Py.eqb a b = true <-> number_of a = number_of b).
Proof.
  revert b. induction a as [| c a IH]; intros [| e b] Hlen Ha Hb;
    try discriminate.
  - cbn. split; split; intros; try reflexivity; try lia; discriminate.
  - cbn [forallb] in Ha, Hb. apply andb_true_iff in Ha, Hb.
    destruct Ha as [Hc Ha], Hb as [He Hb]. cbn [List.length] in Hlen.
    assert (Hl : List.length a = List.length b) by lia.
    destruct (IH b Hl Ha Hb) as [IHlt IHeq].
    pose proof (number_of_bound a Ha) as Ba.
    pose proof (number_of_bound b Hb) as Bb.
    rewrite !number_of_cons, <- Hl in *.
    unfold isdecimal, between in Hc, He.
    apply andb_true_iff in Hc, He.
    destruct Hc as [Hc1 Hc2], He as [He1 He2].
    apply N.leb_le in Hc1, Hc2, He1, He2.
    cbn [str_ltb Py.eqb].
    destruct (N.ltb_spec c e) as [Hlt | Hge].
    + cbn [orb]. assert (E : N.eqb c e = false) by (apply N.eqb_neq; lia).
      rewrite E. cbn [andb].
      assert (N.to_nat (c - 48) < N.to_nat (e - 48)) by lia.
      split; split; intros; try reflexivity; try discriminate; nia.
    + cbn [orb]. destruct (N.eqb_spec c e) as [-> | Hne]; cbn [andb].
      * rewrite IHlt, IHeq. split; split; intros; nia.
      * assert (N.to_nat (e - 48) < N.to_nat (c - 48)) by lia.
        split; split; intros; try discriminate; nia.
Qed.

Lemma digits_no_period (n : nat) (s : str) :
  digits n s -> occurrences (ch ".") s = 0.
Proof.
  intros [_ H]. unfold occurrences, count.
  induction s as [| c s IH]; [reflexivity |].
  cbn [forallb] in H. apply andb_true_iff in H. destruct H as [Hc Hs].
  cbn [filter]. destruct (N.eqb_spec (ch ".") c) as [<- | _];
    [discriminate | exact (IH Hs)].
Qed.

Lemma format_date_digits (d m y : str) :
  digits 2 d -> digits 2 m -> digits 4 y ->
  format_date (dotted d m y) = Some (y ++ u "-" ++ m ++ u "-" ++ d).
Proof.
  intros Hd Hm Hy.
  rewrite (format_date_dotted d m y (digits_no_period _ _ Hd)
             (digits_no_period _ _ Hm) (digits_no_period _ _ Hy)).
  destruct Hd as [Ld _], Hm as [Lm _].
  unfold zfill. rewrite Ld, Lm. reflexivity.
Qed.

(** X2: the text captured by a date pattern has two digits for the day,
    two for the month and four for the year; on such texts [format_date]
    succeeds, and the strings it returns compare, as Python compares
    strings, the way the dates compare in the calendar. *)
Theorem formatted_dates_sort_by_calendar (d1 m1 y1 d2 m2 y2 : str) :
  digits 2 d1 -> digits 2 m1 -> digits 4 y1 ->
  digits 2 d2 -> digits 2 m2 -> digits 4 y2 ->
  exists f1 f2,
    format_date (dotted d1 m1 y1) = Some f1
    /\ format_date (dotted d2 m2 y2) = Some f2
    /\ (str_ltb f1 f2 = true
        <-> earlier (number_of y1) (number_of m1) (number_of d1)
                    (number_of y2) (number_of m2) (number_of d2)).
Proof.
  intros Hd1 Hm1 Hy1 Hd2 Hm2 Hy2.
  exists (y1 ++ u "-" ++ m1 ++ u "-" ++ d1), (y2 ++ u "-" ++ m2 ++ u "-" ++ d2).
  split; [apply format_date_digits; assumption |].
  split; [apply format_date_digits; assumption |].
  destruct Hd1 as [Ld1 Dd1], Hm1 as [Lm1 Dm1], Hy1 as [Ly1 Dy1],
           Hd2 as [Ld2 Dd2], Hm2 as [Lm2 Dm2], Hy2 as [Ly2 Dy2].
  rewrite str_ltb_app by congruence.
  change (u "-") with [45%N]. cbn [app str_ltb].
  rewrite N.ltb_irrefl, N.eqb_refl. cbn [orb andb].
  rewrite str_ltb_app by congruence.
  cbn [app str_ltb]. rewrite N.ltb_irrefl, N.eqb_refl. cbn [orb andb].
  destruct (digits_compare y1 y2 ltac:(congruence) Dy1 Dy2) as [Yl Ye].
  destruct (digits_compare m1 m2 ltac:(congruence) Dm1 Dm2) as [Ml Me].
  destruct (digits_compare d1 d2 ltac:(congruence) Dd1 Dd2) as [Dl _].
  unfold earlier. rewrite <- Yl, <- Ye, <- Ml, <- Me, <- Dl.
  destruct (str_ltb y1 y2), (Py.eqb y1 y2), (str_ltb m1 m2), (Py.eqb m1 m2),
    (str_ltb d1 d2); cbn; intuition discriminate.
Qed.

Lemma formatted_dates_sort_by_calendar_witness :
  exists f1 f2,
    format_date (u "24.11.2025") = Some f1
    /\ format_date (u "03.01.2026") = Some f2
    /\ (str_ltb f1 f2 = true <-> earlier 2025 11 24 2026 1 3).
Proof.
  apply (formatted_dates_sort_by_calendar
           (u "24") (u "11") (u "2025") (u "03") (u "01") (u "2026"));
    split; reflexivity.
Defined.

(** ** X3: what [clean_plate_number] returns *)

Lemma split_char_head (sep : char) (s : str) :
  exists rest,
    s = hd [] (split_char sep s) ++ rest
    /\ (rest = [] \/ exists r, rest = sep :: r)
    /\ mem sep (hd [] (split_char sep s)) = false.
Proof.
  induction s as [| c s IH].
  - exists []. repeat split; auto.
  - cbn [split_char]. destruct (N.eqb_spec c sep) as [-> | Hne].
    + exists (sep :: s). repeat split; eauto.
    + destruct IH as (rest & Hs & Hrest & Hmem).
      destruct (split_char sep s) as [| p ps] eqn:E;
        [exfalso; exact (split_char_not_nil sep s E) |].
      cbn [hd] in *. exists rest. repeat split; auto.
      * cbn [app]. rewrite <- Hs. reflexivity.
      * unfold mem in *. cbn [existsb]. rewrite Hmem, orb_false_r.
        apply N.eqb_neq. congruence.
Qed.

(** X3: [clean_plate_number] returns nothing only for the empty string.
    What it returns holds no "/": it is the upper-cased, stripped plate,
    whole or up to its first "/" -- which leaves the empty string, not
    nothing, for a plate of white space or one that starts with "/". *)
Theorem clean_plate_number_no_slash :
  (forall plate, clean_plate_number plate = None <-> plate = [])
  /\ (forall plate c,
        clean_plate_number plate = Some c ->
        mem (ch "/") c = false
        /\ exists rest,
            upper (strip plate) = c ++ rest
            /\ (rest = [] \/ exists r, rest = ch "/" :: r))
  /\ clean_plate_number (u "  ") = Some []
  /\ clean_plate_number (u "/A1") = Some [].
Proof.
  split; [| split; [| split; reflexivity]].
  - intros plate. unfold clean_plate_number.
    destruct plate; cbn [is_empty]; split; intros H;
      try reflexivity; discriminate.
  - intros plate c. unfold clean_plate_number.
    destruct (is_empty plate); [discriminate |].
    destruct (mem (ch "/") (upper (strip plate))) eqn:E; intros H;
      injection H as <-.
    + destruct (split_char_head (ch "/") (upper (strip plate)))
        as (rest & Hs & Hrest & Hmem).
      split; [exact Hmem |]. exists rest. split; assumption.
    + split; [exact E |]. exists []. rewrite app_nil_r. auto.
Qed.

Lemma clean_plate_number_no_slash_witness :
  clean_plate_number (u " pp7706u/abc ") = Some (u "PP7706U")
  /\ mem (ch "/") (u "PP7706U") = false.
Proof.
  destruct clean_plate_number_no_slash as (_ & H & _).
  split; [reflexivity |].
  destruct (H (u " pp7706u/abc ") (u "PP7706U") eq_refl) as [Hm _].
  exact Hm.
Defined.

(** ** X4: grouping by plate, against its specification *)

Lemma keep_first_snoc (l : list str) (x : str) :
  keep_first (l ++ [x])
  = if in_dec str_eq_dec x l then keep_first l else keep_first l ++ [x].
Proof.
  induction l as [| y l IH]; [reflexivity |].
  cbn [app keep_first]. rewrite IH.
  destruct (in_dec str_eq_dec x l) as [Hin | Hout];
    destruct (in_dec str_eq_dec x (y :: l)) as [Hin' | Hout'].
  - reflexivity.
  - exfalso. apply Hout'. right. exact Hin.
  - destruct Hin' as [-> | Hin']; [| contradiction].
    rewrite remove_app. cbn [remove].
    destruct (str_eq_dec x x); [| congruence]. rewrite app_nil_r. reflexivity.
  - rewrite remove_app. cbn [remove].
    destruct (str_eq_dec y x) as [-> | Hne];
      [exfalso; apply Hout'; left; reflexivity | reflexivity].
Qed.

Lemma eqb_refl (a : str) : Py.eqb a a = true.
Proof. apply eqb_eq. reflexivity. Qed.

Lemma eqb_neq (a b : str) : a <> b -> Py.eqb a b = false.
Proof.
  intros H. destruct (Py.eqb a b) eqn:E; [| reflexivity].
  apply eqb_eq in E. contradiction.
Qed.

Lemma append_to_map (q : str) (r : Order) (F : str -> list Order)
      (K : list str) :
  NoDup K ->
  append_to q r (List.map (fun p => (p, F p)) K)
  = List.map (fun p => (p, F p ++ if Py.eqb p q then [r] else [])) K
    ++ (if in_dec str_eq_dec q K then [] else [(q, [r])]).
Proof.
  induction 1 as [| p K Hp HK IH]; [reflexivity |].
  cbn [List.map append_to].
  destruct (str_eq_dec p q) as [-> | Hne].
  - rewrite eqb_refl.
    destruct (in_dec str_eq_dec q (q :: K)) as [_ | Hout];
      [| exfalso; apply Hout; left; reflexivity].
    rewrite app_nil_r. cbn [app]. f_equal.
    apply map_ext_in. intros p' Hp'.
    rewrite eqb_neq by (intros ->; contradiction).
    rewrite app_nil_r. reflexivity.
  - rewrite (eqb_neq _ _ Hne), IH, app_nil_r. cbn [app]. f_equal. f_equal.
    destruct (in_dec str_eq_dec q K) as [Hin | Hout];
      destruct (in_dec str_eq_dec q (p :: K)) as [Hin' | Hout'];
      try reflexivity.
    + exfalso. apply Hout'. right. exact Hin.
    + destruct Hin' as [E | Hin']; [congruence | contradiction].
Qed.

Lemma plates_app (a b : list Order) :
  flat_map plate_of (a ++ b) = flat_map plate_of a ++ flat_map plate_of b.
Proof. apply flat_map_app. Qed.

Lemma no_orders_of_unseen_plate (q : str) (l : list Order) :
  ~ List.In q (flat_map plate_of l) -> filter (has_plate q) l = [].
Proof.
  induction l as [| r l IH]; intros H; [reflexivity |].
  cbn [flat_map] in H. cbn [filter].
  assert (Hr : has_plate q r = false).
  { unfold has_plate. destruct (existsb (Py.eqb q) (plate_of r)) eqn:E;
      [| reflexivity].
    exfalso. apply H. apply in_or_app. left.
    apply existsb_exists in E. destruct E as (x & Hx & E).
    apply eqb_eq in E. subst. exact Hx. }
  rewrite Hr. apply IH. intros Hin. apply H. apply in_or_app. right.
  exact Hin.
Qed.

Lemma group_step_spec (done : list Order) (r : Order) :
  group_step (groups_of done, filter without_plate done) r
  = (groups_of (done ++ [r]), filter without_plate (done ++ [r])).
Proof.
  unfold group_step, groups_of.
  rewrite plates_app, filter_app. cbn [flat_map filter]. rewrite app_nil_r.
  destruct (tablica_rejestracyjna r) as [[| c p] |] eqn:E.
  - assert (Hp : plate_of r = []) by (unfold plate_of; rewrite E; reflexivity).
    unfold without_plate. rewrite Hp, app_nil_r. f_equal.
    apply map_ext. intros q. rewrite filter_app. cbn [filter].
    unfold has_plate. rewrite Hp. cbn [existsb]. rewrite app_nil_r.
    reflexivity.
  - assert (Hp : plate_of r = [c :: p])
      by (unfold plate_of; rewrite E; reflexivity).
    unfold without_plate. rewrite Hp, app_nil_r. f_equal.
    rewrite keep_first_snoc, append_to_map by apply keep_first_NoDup.
    assert (Hmap : forall K,
               List.map (fun q => (q, filter (has_plate q) done
                                      ++ if Py.eqb q (c :: p) then [r] else []))
                        K
               = List.map (fun q => (q, filter (has_plate q) (done ++ [r]))) K).
    { intros K. apply map_ext. intros q. rewrite filter_app. cbn [filter].
      unfold has_plate at 3. rewrite Hp. cbn [existsb].
      rewrite orb_false_r. destruct (Py.eqb q (c :: p)); reflexivity. }
    rewrite Hmap.
    destruct (in_dec str_eq_dec (c :: p) (flat_map plate_of done))
      as [Hin | Hout];
      destruct (in_dec str_eq_dec (c :: p)
                       (keep_first (flat_map plate_of done)))
        as [Hin' | Hout'].
    + rewrite app_nil_r. reflexivity.
    + exfalso. apply Hout'. apply keep_first_In. exact Hin.
    + exfalso. apply Hout. apply keep_first_In. exact Hin'.
    + rewrite map_app. cbn [List.map]. f_equal. f_equal. f_equal.
      rewrite filter_app, (no_orders_of_unseen_plate _ _ Hout).
      cbn [filter app]. unfold has_plate. rewrite Hp. cbn [existsb].
      rewrite eqb_refl. reflexivity.
  - assert (Hp : plate_of r = []) by (unfold plate_of; rewrite E; reflexivity).
    unfold without_plate. rewrite Hp, app_nil_r. f_equal.
    apply map_ext. intros q. rewrite filter_app. cbn [filter].
    unfold has_plate. rewrite Hp. cbn [existsb]. rewrite app_nil_r.
    reflexivity.
Qed.

Lemma group_loop_spec (rs done : list Order) :
  fold_left group_step rs (groups_of done, filter without_plate done)
  = (groups_of (done ++ rs), filter without_plate (done ++ rs)).
Proof.
  revert done. induction rs as [| r rs IH]; intros done.
  - rewrite app_nil_r. reflexivity.
  - cbn [fold_left]. rewrite group_step_spec, IH, <- app_assoc. reflexivity.
Qed.

(** X4: [group_by_plate] returns, for each distinct non-empty plate in the
    order of its first appearance, the orders with that plate, and apart
    from them the orders without a plate (none or the empty string), each
    list in the order of the input and then sorted by date. *)
Theorem group_by_plate_spec (results : list Order) :
  group_by_plate results
  = (List.map (fun g => (fst g, sort_by_date (snd g))) (groups_of results),
     sort_by_date (filter without_plate results)).
Proof.
  unfold group_by_plate.
  change (fold_left group_step results ([], []))
    with (fold_left group_step results
                    (groups_of [], filter without_plate [])).
  rewrite group_loop_spec. reflexivity.
Qed.

(** ** X5: the groups are sorted and lose no order *)

Lemma str_ltb_irrefl (a : str) : str_ltb a a = false.
Proof.
  induction a as [| c a IH]; [reflexivity |].
  cbn [str_ltb]. rewrite N.ltb_irrefl, N.eqb_refl, IH. reflexivity.
Qed.

Lemma str_ltb_trans (a b c : str) :
  str_ltb a b = true -> str_ltb b c = true -> str_ltb a c = true.
Proof.
  revert b c. induction a as [| x a IH]; intros [| y b] [| z c] H1 H2;
    try discriminate; try reflexivity.
  cbn [str_ltb] in *.
  apply orb_true_iff in H1, H2. apply orb_true_iff.
  destruct H1 as [H1 | H1], H2 as [H2 | H2].
  - left. apply N.ltb_lt in H1, H2. apply N.ltb_lt. lia.
  - apply andb_true_iff in H2. destruct H2 as [E _].
    apply N.eqb_eq in E. subst. left. exact H1.
  - apply andb_true_iff in H1. destruct H1 as [E _].
    apply N.eqb_eq in E. subst. left. exact H2.
  - apply andb_true_iff in H1, H2. destruct H1 as [E1 H1], H2 as [E2 H2].
    apply N.eqb_eq in E1, E2. subst. right.
    rewrite N.eqb_refl. exact (IH _ _ H1 H2).
Qed.

Lemma str_ltb_total (a b : str) :
  str_ltb a b = false -> a = b \/ str_ltb b a = true.
Proof.
  revert b. induction a as [| x a IH]; intros [| y b] H.
  - left. reflexivity.
  - discriminate.
  - right. reflexivity.
  - cbn [str_ltb] in *. apply orb_false_iff in H. destruct H as [H1 H2].
    apply N.ltb_ge in H1.
    destruct (N.eqb_spec x y) as [-> | Hne].
    + cbn [andb] in H2. destruct (IH b H2) as [-> | H].
      * left. reflexivity.
      * right. rewrite N.eqb_refl, H. apply orb_true_r.
    + right. assert (Hlt : N.ltb y x = true) by (apply N.ltb_lt; lia).
      rewrite Hlt. reflexivity.
Qed.

Lemma date_le_trans (a b c : Order) :
  date_le a b -> date_le b c -> date_le a c.
Proof.
  unfold date_le. intros Hab Hbc.
  destruct (str_ltb (date_key c) (date_key a)) eqn:E; [| reflexivity].
  destruct (str_ltb_total _ _ Hab) as [Eq | Hlt].
  - rewrite Eq in Hbc. congruence.
  - rewrite (str_ltb_trans _ _ _ E Hlt) in Hbc. discriminate.
Qed.

Lemma insert_by_date_perm (x : Order) (l : list Order) :
  Permutation (insert_by_date x l) (x :: l).
Proof.
  induction l as [| y l IH]; cbn [insert_by_date]; [reflexivity |].
  destruct (str_ltb (date_key y) (date_key x)); [| reflexivity].
  rewrite IH. apply perm_swap.
Qed.

Lemma sort_by_date_perm (l : list Order) : Permutation (sort_by_date l) l.
Proof.
  induction l as [| x l IH]; [reflexivity |].
  unfold sort_by_date. cbn [fold_right]. fold (sort_by_date l).
  rewrite insert_by_date_perm, IH. reflexivity.
Qed.

Lemma insert_by_date_sorted (x : Order) (l : list Order) :
  StronglySorted date_le l -> StronglySorted date_le (insert_by_date x l).
Proof.
  induction 1 as [| y l Hl IH Hy]; cbn [insert_by_date].
  - constructor; constructor.
  - destruct (str_ltb (date_key y) (date_key x)) eqn:E.
    + constructor; [exact IH |].
      apply Forall_forall. intros z Hz.
      apply (Permutation_in _ (insert_by_date_perm x l)) in Hz.
      destruct Hz as [<- | Hz].
      * unfold date_le.
        destruct (str_ltb (date_key x) (date_key y)) eqn:E2; [| reflexivity].
        pose proof (str_ltb_trans _ _ _ E E2) as C.
        rewrite str_ltb_irrefl in C. discriminate.
      * rewrite Forall_forall in Hy. exact (Hy z Hz).
    + constructor; [constructor; assumption |].
      constructor; [exact E |].
      apply Forall_forall. intros z Hz. rewrite Forall_forall in Hy.
      exact (date_le_trans x y z E (Hy z Hz)).
Qed.

Lemma sort_by_date_sorted (l : list Order) :
  StronglySorted date_le (sort_by_date l).
Proof.
  induction l as [| x l IH]; [constructor |].
  unfold sort_by_date. cbn [fold_right]. fold (sort_by_date l).
  apply insert_by_date_sorted. exact IH.
Qed.

Lemma insert_by_date_stable (k : str) (x : Order) (l : list Order) :
  of_date k (insert_by_date x l) = of_date k (x :: l).
Proof.
  unfold of_date. induction l as [| y l IH]; [reflexivity |].
  cbn [insert_by_date].
  destruct (str_ltb (date_key y) (date_key x)) eqn:E; [| reflexivity].
  cbn [filter] in *. rewrite IH.
  destruct (Py.eqb (date_key x) k) eqn:Ex; [| reflexivity].
  destruct (Py.eqb (date_key y) k) eqn:Ey; [| reflexivity].
  apply eqb_eq in Ex, Ey. rewrite Ex, Ey, str_ltb_irrefl in E. discriminate.
Qed.

Lemma sort_by_date_stable (k : str) (l : list Order) :
  of_date k (sort_by_date l) = of_date k l.
Proof.
  induction l as [| x l IH]; [reflexivity |].
  unfold sort_by_date. cbn [fold_right]. fold (sort_by_date l).
  rewrite insert_by_date_stable. unfold of_date in *. cbn [filter].
  rewrite IH. reflexivity.
Qed.

Lemma append_to_perm (q : str) (r : Order) (G : list (str * list Order)) :
  Permutation (List.concat (List.map snd (append_to q r G)))
              (r :: List.concat (List.map snd G)).
Proof.
  induction G as [| [p rs] G IH]; cbn [append_to]; [reflexivity |].
  destruct (Py.eqb p q); cbn [List.map List.concat snd].
  - rewrite <- app_assoc. cbn [app]. symmetry. apply Permutation_middle.
  - rewrite IH. symmetry. apply Permutation_middle.
Qed.

Lemma group_step_perm (acc : list (str * list Order) * list Order)
      (r : Order) :
  Permutation
    (List.concat (List.map snd (fst (group_step acc r)))
       ++ snd (group_step acc r))
    (r :: List.concat (List.map snd (fst acc)) ++ snd acc).
Proof.
  destruct acc as [G N]. unfold group_step.
  destruct (tablica_rejestracyjna r) as [[| c p] |]; cbn [fst snd].
  - rewrite app_assoc. symmetry. apply Permutation_cons_append.
  - rewrite append_to_perm. reflexivity.
  - rewrite app_assoc. symmetry. apply Permutation_cons_append.
Qed.

Lemma group_loop_perm (rs : list Order)
      (acc : list (str * list Order) * list Order) :
  Permutation
    (List.concat (List.map snd (fst (fold_left group_step rs acc)))
       ++ snd (fold_left group_step rs acc))
    (rs ++ List.concat (List.map snd (fst acc)) ++ snd acc).
Proof.
  revert acc. induction rs as [| r rs IH]; intros acc; [reflexivity |].
  cbn [fold_left]. rewrite IH, group_step_perm. cbn [app].
  symmetry. apply Permutation_middle.
Qed.

Lemma sorted_groups_perm (G : list (str * list Order)) :
  Permutation
    (List.concat
       (List.map snd (List.map (fun g => (fst g, sort_by_date (snd g))) G)))
    (List.concat (List.map snd G)).
Proof.
  induction G as [| g G IH]; [reflexivity |].
  cbn [List.map List.concat snd].
  apply Permutation_app; [apply sort_by_date_perm | exact IH].
Qed.

Lemma has_plate_true (p : str) (r : Order) :
  has_plate p r = true ->
  tablica_rejestracyjna r = Some p /\ p <> [].
Proof.
  unfold has_plate, plate_of.
  destruct (tablica_rejestracyjna r) as [[| c s] |]; cbn [existsb];
    try discriminate.
  rewrite orb_false_r. intros E. apply eqb_eq in E. subst.
  split; [reflexivity | discriminate].
Qed.

Lemma plate_has_order (p : str) (l : list Order) :
  List.In p (flat_map plate_of l) ->
  exists r, List.In r (filter (has_plate p) l).
Proof.
  intros H. apply in_flat_map in H. destruct H as (r & Hr & Hp).
  exists r. apply filter_In. split; [exact Hr |].
  unfold has_plate. apply existsb_exists. exists p.
  split; [exact Hp | apply eqb_refl].
Qed.

Lemma without_plate_true (r : Order) :
  without_plate r = true ->
  tablica_rejestracyjna r = None \/ tablica_rejestracyjna r = Some [].
Proof.
  unfold without_plate, plate_of.
  destruct (tablica_rejestracyjna r) as [[| c s] |]; auto. discriminate.
Qed.

(** X5: the lists that [group_by_plate] returns hold every order of the
    input once.  The plates of the groups are distinct and not empty; each
    group is not empty, holds only orders of its plate, and is sorted by
    date, orders of one date staying in the order of the input.  The orders
    apart are those without a plate, sorted in the same way. *)
Theorem group_by_plate_sorted_partition (results : list Order) :
  let grouped := fst (group_by_plate results) in
  let no_plate := snd (group_by_plate results) in
  Permutation results (List.concat (List.map snd grouped) ++ no_plate)
  /\ NoDup (List.map fst grouped)
  /\ (forall p rs,
        List.In (p, rs) grouped ->
        p <> [] /\ rs <> [] /\ StronglySorted date_le rs
        /\ (forall r, List.In r rs -> tablica_rejestracyjna r = Some p)
        /\ (forall k,
              of_date k rs = of_date k (filter (has_plate p) results)))
  /\ StronglySorted date_le no_plate
  /\ (forall r, List.In r no_plate ->
        tablica_rejestracyjna r = None
        \/ tablica_rejestracyjna r = Some [])
  /\ (forall k,
        of_date k no_plate = of_date k (filter without_plate results)).
Proof.
  intros grouped no_plate. subst grouped no_plate.
  unfold group_by_plate.
  change (fold_left group_step results ([], []))
    with (fold_left group_step results
                    (groups_of [], filter without_plate [])).
  rewrite group_loop_spec. cbn [app fst snd].
  split; [| split; [| split; [| split; [| split]]]].
  - rewrite sorted_groups_perm, sort_by_date_perm.
    pose proof (group_loop_perm results ([], [])) as H.
    change ([] : list (str * list Order), [] : list Order)
      with (groups_of [], filter without_plate []) in H at 1 2.
    rewrite group_loop_spec in H. cbn [fst snd List.map List.concat app] in H.
    rewrite app_nil_r in H. symmetry. exact H.
  - rewrite map_map. cbn [fst]. unfold groups_of. rewrite map_map. cbn [fst].
    rewrite map_id. apply keep_first_NoDup.
  - intros p rs Hin. apply in_map_iff in Hin.
    destruct Hin as (g & Hg & Hin). injection Hg as <- <-.
    unfold groups_of in Hin. apply in_map_iff in Hin.
    destruct Hin as (q & <- & Hq). cbn [fst snd].
    apply (proj1 (keep_first_In _ _)) in Hq.
    destruct (plate_has_order q results Hq) as (r0 & Hr0).
    split; [| split; [| split; [| split]]].
    + apply filter_In in Hr0. destruct Hr0 as [_ H].
      apply (has_plate_true q r0 H).
    + intros E.
      apply (Permutation_in _ (Permutation_sym (sort_by_date_perm _))) in Hr0.
      rewrite E in Hr0. exact Hr0.
    + apply sort_by_date_sorted.
    + intros r Hr. apply (Permutation_in _ (sort_by_date_perm _)) in Hr.
      apply filter_In in Hr. destruct Hr as [_ H].
      apply (has_plate_true q r H).
    + intros k. apply sort_by_date_stable.
  - apply sort_by_date_sorted.
  - intros r Hr. apply (Permutation_in _ (sort_by_date_perm _)) in Hr.
    apply filter_In in Hr. destruct Hr as [_ H].
    apply without_plate_true. exact H.
  - intros k. apply sort_by_date_stable.
Qed.

Lemma group_by_plate_sorted_partition_witness :
  group_by_plate three_orders
  = ([(u "PP7706U",
       [order (Some (u "25/0003C")) (Some (u "2025-03-01"))
              (Some (u "PP7706U"));
        order (Some (u "25/0001A")) (Some (u "2025-11-24"))
              (Some (u "PP7706U"))])],
     [order (Some (u "25/0002B")) None None])
  /\ (forall r,
        List.In r [order (Some (u "25/0003C")) (Some (u "2025-03-01"))
                         (Some (u "PP7706U"));
                   order (Some (u "25/0001A")) (Some (u "2025-11-24"))
                         (Some (u "PP7706U"))] ->
        tablica_rejestracyjna r = Some (u "PP7706U")).
Proof.
  split; [vm_compute; reflexivity |].
  destruct (group_by_plate_sorted_partition three_orders)
    as (_ & _ & H & _).
  destruct (H (u "PP7706U")
              [order (Some (u "25/0003C")) (Some (u "2025-03-01"))
                     (Some (u "PP7706U"));
               order (Some (u "25/0001A")) (Some (u "2025-11-24"))
                     (Some (u "PP7706U"))])
    as (_ & _ & _ & Hp & _).
  - vm_compute. left. reflexivity.
  - exact Hp.
Defined.

(** ** X6, X7: the Section Locator *)

Lemma block_lines_run (budget : nat) (rest : list str) :
  exists post,
    rest = block_lines budget rest ++ post
    /\ List.length (block_lines budget rest) <= budget
    /\ Forall (fun l => _looks_like_header l = false)
              (block_lines budget rest).
Proof.
  revert rest. induction budget as [| b IH]; intros rest.
  - exists rest. destruct rest; repeat split; auto.
  - destruct rest as [| l rest].
    { exists []. repeat split; auto. cbn. lia. }
    cbn [block_lines]. destruct (_looks_like_header l) eqn:E.
    + exists (l :: rest). repeat split; auto. cbn. lia.
    + destruct (IH rest) as (post & Hr & Hlen & Hall).
      exists post. cbn [app List.length]. repeat split.
      * rewrite <- Hr. reflexivity.
      * lia.
      * constructor; assumption.
Qed.

Lemma after_header_inv (hdr : pattern) (budget : nat) (lines : list str)
      (b : str) :
  after_header hdr budget lines = Some b ->
  exists pre h rest,
    lines = pre ++ h :: rest /\ b = block_text budget rest.
Proof.
  induction lines as [| l lines IH]; [discriminate |].
  cbn [after_header]. destruct (matches hdr l).
  - intros H. injection H as <-. exists [], l, lines. auto.
  - intros H. destruct (IH H) as (pre & h & rest & -> & ->).
    exists (l :: pre), h, rest. auto.
Qed.

Lemma after_split_header_inv (tail : pattern) (budget : nat)
      (lines : list str) (b : str) :
  after_split_header tail budget lines = Some b ->
  exists pre rest,
    lines = pre ++ rest /\ b = block_text budget rest.
Proof.
  induction lines as [| l lines IH]; [discriminate |].
  cbn [after_split_header]. destruct lines as [| l2 rest2]; [discriminate |].
  destruct (matches miejsce_word l && matches tail l2).
  - intros H. injection H as <-. exists [l; l2], rest2. auto.
  - intros H. destruct (IH H) as (pre & rest & Hl & ->).
    exists (l :: pre), rest. rewrite Hl. auto.
Qed.

Lemma block_text_run (budget : nat) (pre rest : list str) :
  exists pre' bl post,
    pre ++ rest = pre' ++ bl ++ post
    /\ List.length bl <= budget
    /\ Forall (fun l => _looks_like_header l = false) bl
    /\ block_text budget rest = strip (join newline bl).
Proof.
  destruct (block_lines_run budget rest) as (post & Hr & Hlen & Hall).
  exists pre, (block_lines budget rest), post.
  repeat split; auto. rewrite <- Hr. reflexivity.
Qed.

(** X6: the section that [_extract_section] returns is the stripped text
    of a run of consecutive lines of the document, of at most [max_lines]
    lines (thirty by default), none of which looks like a header. *)
Theorem section_is_bounded_run
        (full_text : str) (header_keywords : list str)
        (max_lines : option nat) (two_line_tail : list str) :
  exists pre bl post,
    splitlines full_text = pre ++ bl ++ post
    /\ List.length bl <= line_budget max_lines
    /\ Forall (fun l => _looks_like_header l = false) bl
    /\ _extract_section full_text header_keywords max_lines two_line_tail
       = strip (join newline bl).
Proof.
  assert (Hnone : exists pre bl post,
             splitlines full_text = pre ++ bl ++ post
             /\ List.length bl <= line_budget max_lines
             /\ Forall (fun l => _looks_like_header l = false) bl
             /\ [] = strip (join newline bl)).
  { exists [], [], (splitlines full_text). repeat split; auto.
    cbn. lia. }
  unfold _extract_section. fold (line_budget max_lines).
  destruct (is_empty full_text); [exact Hnone |].
  destruct (after_header _ _ _) as [b |] eqn:E.
  - destruct (after_header_inv _ _ _ _ E) as (pre & h & rest & Hl & ->).
    rewrite Hl.
    destruct (block_text_run (line_budget max_lines) (pre ++ [h]) rest)
      as (pre' & bl & post & H1 & H2 & H3 & H4).
    exists pre', bl, post. rewrite <- app_assoc in H1. auto.
  - destruct two_line_tail as [| t ts]; [exact Hnone |].
    destruct (after_split_header _ _ _) as [b |] eqn:E2; [| exact Hnone].
    destruct (after_split_header_inv _ _ _ _ E2) as (pre & rest & Hl & ->).
    rewrite Hl. apply block_text_run.
Qed.

Lemma after_header_first (hdr : pattern) (budget : nat)
      (pre : list str) (h : str) (rest : list str) :
  Forall (fun l => matches hdr l = false) pre ->
  matches hdr h = true ->
  after_header hdr budget (pre ++ h :: rest) = Some (block_text budget rest).
Proof.
  intros Hpre Hh. induction Hpre as [| l pre Hl _ IH]; cbn [app after_header].
  - rewrite Hh. reflexivity.
  - rewrite Hl. exact IH.
Qed.

Lemma after_header_none (hdr : pattern) (budget : nat) (lines : list str) :
  Forall (fun l => matches hdr l = false) lines ->
  after_header hdr budget lines = None.
Proof.
  induction 1 as [| l lines Hl _ IH]; cbn [after_header]; [reflexivity |].
  rewrite Hl. exact IH.
Qed.

Lemma after_split_header_none (tail : pattern) (budget : nat)
      (lines : list str) :
  has_split_header tail lines = false ->
  after_split_header tail budget lines = None.
Proof.
  induction lines as [| l lines IH]; [reflexivity |].
  cbn [has_split_header after_split_header].
  destruct lines as [| l2 rest]; [reflexivity |].
  intros H. apply orb_false_iff in H. destruct H as [H1 H2].
  rewrite H1. exact (IH H2).
Qed.

Lemma after_split_header_first (tail : pattern) (budget : nat)
      (pre : list str) (l1 l2 : str) (rest : list str) :
  has_split_header tail (pre ++ [l1]) = false ->
  matches miejsce_word l1 = true -> matches tail l2 = true ->
  after_split_header tail budget (pre ++ l1 :: l2 :: rest)
  = Some (block_text budget rest).
Proof.
  intros Hpre H1 H2. induction pre as [| l pre IH].
  - cbn [app after_split_header]. rewrite H1, H2. reflexivity.
  - cbn [app] in *. cbn [after_split_header].
    cbn [has_split_header] in Hpre.
    destruct pre as [| l' pre'].
    + cbn [app] in *. apply orb_false_iff in Hpre. destruct Hpre as [Hp _].
      rewrite Hp. apply IH. reflexivity.
    + cbn [app] in *. apply orb_false_iff in Hpre. destruct Hpre as [Hp Hr].
      rewrite Hp. apply IH. exact Hr.
Qed.

(** X7: where a section starts.  The first line that matches a header
    keyword decides: the section is the block after it, whatever split
    headers the document has.  Without such a line the first line with the
    word "Miejsce" that is followed by a line with a tail decides, and the
    section is the block after that second line.  Without either, and for
    the empty text, the section is empty. *)
Theorem section_starts_after_first_header
        (full_text : str) (header_keywords : list str)
        (max_lines : option nat) (two_line_tail : list str) :
  let hdr := keywords_pattern header_keywords in
  let tail := keywords_pattern two_line_tail in
  let budget := line_budget max_lines in
  let section :=
    _extract_section full_text header_keywords max_lines two_line_tail in
  (forall pre h rest,
      splitlines full_text = pre ++ h :: rest ->
      Forall (fun l => matches hdr l = false) pre ->
      matches hdr h = true ->
      section = block_text budget rest)
  /\ (forall pre l1 l2 rest,
         Forall (fun l => matches hdr l = false) (splitlines full_text) ->
         two_line_tail <> [] ->
         splitlines full_text = pre ++ l1 :: l2 :: rest ->
         has_split_header tail (pre ++ [l1]) = false ->
         matches miejsce_word l1 = true -> matches tail l2 = true ->
         section = block_text budget rest)
  /\ (Forall (fun l => matches hdr l = false) (splitlines full_text) ->
      two_line_tail = []
      \/ has_split_header tail (splitlines full_text) = false ->
      section = []).
Proof.
  intros hdr tail budget section. subst section.
  unfold _extract_section. fold (line_budget max_lines). fold budget.
  fold hdr. fold tail.
  split; [| split].
  - intros pre h rest Hs Hpre Hh.
    rewrite (splitlines_nonempty full_text)
      by (rewrite Hs; apply app_cons_not_nil).
    rewrite Hs, (after_header_first hdr budget pre h rest Hpre Hh).
    reflexivity.
  - intros pre l1 l2 rest Hno Hne Hs Hpre H1 H2.
    rewrite (splitlines_nonempty full_text)
      by (rewrite Hs; apply app_cons_not_nil).
    rewrite (after_header_none hdr budget _ Hno).
    destruct two_line_tail as [| t ts]; [contradiction Hne; reflexivity |].
    rewrite Hs, (after_split_header_first tail budget pre l1 l2 rest Hpre H1 H2).
    reflexivity.
  - intros Hno Hsplit.
    destruct (is_empty full_text); [reflexivity |].
    rewrite (after_header_none hdr budget _ Hno).
    destruct two_line_tail as [| t ts]; [reflexivity |].
    destruct Hsplit as [E | Hsplit]; [discriminate |].
    rewrite (after_split_header_none tail budget _ Hsplit). reflexivity.
Qed.

Lemma section_starts_after_first_header_witness :
  loading_section (u "Zlecenie" ++ newline ++ u "Miejsce" ++ newline
                     ++ u "zaladunku:" ++ newline ++ u "PL62-090  Rokietnica")
  = u "PL62-090  Rokietnica"
  /\ loading_section (u "PL62-090  Rokietnica") = [].
Proof.
  split.
  - destruct (section_starts_after_first_header
                (u "Zlecenie" ++ newline ++ u "Miejsce" ++ newline
                   ++ u "zaladunku:" ++ newline ++ u "PL62-090  Rokietnica")
                (List.map u ["Miejsce załadunku"; "Miejsce zaladunku"]%string)
                None (List.map u ["załadunku"; "zaladunku"]%string))
      as (_ & H & _).
    unfold loading_section.
    rewrite (H [u "Zlecenie"] (u "Miejsce") (u "zaladunku:")
               [u "PL62-090  Rokietnica"]).
    + vm_compute. reflexivity.
    + repeat constructor; vm_compute; reflexivity.
    + discriminate.
    + vm_compute. reflexivity.
    + vm_compute. reflexivity.
    + vm_compute. reflexivity.
    + vm_compute. reflexivity.
  - destruct (section_starts_after_first_header
                (u "PL62-090  Rokietnica")
                (List.map u ["Miejsce załadunku"; "Miejsce zaladunku"]%string)
                None (List.map u ["załadunku"; "zaladunku"]%string))
      as (_ & _ & H).
    unfold loading_section. apply H.
    + repeat constructor; vm_compute; reflexivity.
    + right. vm_compute. reflexivity.
Defined.

(** ** X8, X9: lists of cities hold no city twice and no empty city *)

Lemma distinct_cities_start (seen : list str) : distinct_cities ([], seen).
Proof. repeat split; [constructor | constructor | intros c []]. Qed.

Lemma NoDup_snoc {A} (l : list A) (a : A) :
  NoDup l -> ~ List.In a l -> NoDup (l ++ [a]).
Proof.
  induction l as [| b l IH]; intros Hnd Hin; cbn [app].
  - constructor; [intros [] | constructor].
  - inversion Hnd as [| ? ? Hb Hl]; subst. constructor.
    + intros Hb'. apply in_app_or in Hb'. destruct Hb' as [Hb' | [-> | []]].
      * exact (Hb Hb').
      * apply Hin. left. reflexivity.
    + apply IH; [exact Hl |]. intros H. apply Hin. right. exact H.
Qed.

Lemma add_unique_distinct (c : str) (acc : list str * list str) :
  distinct_cities acc -> distinct_cities (add_unique c acc).
Proof.
  destruct acc as [found seen]. intros (Hnd & Hne & Hseen).
  rewrite add_unique_cases.
  destruct (nonempty c) eqn:Ec; cbn [andb]; [| repeat split; assumption].
  destruct (seen_in c seen) eqn:Es; cbn [negb]; [repeat split; assumption |].
  cbn [fst snd] in *. repeat split.
  - apply NoDup_snoc; [exact Hnd |].
    intros Hin. rewrite (Hseen c Hin) in Es. discriminate.
  - apply Forall_app. split; [exact Hne |]. constructor; [| constructor].
    intros E. subst c. discriminate.
  - intros x Hx.
    change (Py.eqb x c || seen_in x seen = true).
    apply in_app_or in Hx. destruct Hx as [Hx | [<- | []]].
    + rewrite (Hseen x Hx). apply orb_true_r.
    + rewrite eqb_refl. reflexivity.
Qed.

Lemma fold_distinct {A} (step : list str * list str -> A -> list str * list str)
      (l : list A) (acc : list str * list str) :
  (forall acc a, distinct_cities acc -> distinct_cities (step acc a)) ->
  distinct_cities acc -> distinct_cities (fold_left step l acc).
Proof.
  intros Hstep. revert acc. induction l as [| a l IH]; intros acc H;
    [exact H |].
  cbn [fold_left]. apply IH. apply Hstep. exact H.
Qed.

Lemma zip_cities_step_distinct (acc : list str * list str) (line : str) :
  distinct_cities acc -> distinct_cities (zip_cities_step acc line).
Proof.
  intros H. unfold zip_cities_step.
  destruct (is_empty (strip line)); [exact H |].
  destruct (first_match zip_patterns (strip line));
    [apply add_unique_distinct |]; exact H.
Qed.

Lemma city_only_step_distinct (acc : list str * list str) (line : str) :
  distinct_cities acc -> distinct_cities (city_only_step acc line).
Proof.
  intros H. unfold city_only_step.
  destruct (is_empty (strip line) || _looks_like_street (strip line));
    [exact H |].
  destruct (pattern_search _pattern_city_only (strip line));
    [apply add_unique_distinct |]; exact H.
Qed.

Lemma dedupe_distinct (l : list str) :
  NoDup (dedupe l) /\ Forall (fun c => c <> []) (dedupe l).
Proof.
  unfold dedupe.
  destruct (fold_distinct (fun acc c => add_unique c acc) l ([], []))
    as (H1 & H2 & _).
  - intros acc a. apply add_unique_distinct.
  - apply distinct_cities_start.
  - split; assumption.
Qed.

(** X8: the multi-city list of [_extract_cities_list] -- whichever of its
    three passes produces it -- holds no city twice and no empty city. *)
Theorem cities_list_distinct_nonempty
        (spacy : Spacy) (section : str) (self : CityExtractor) :
  NoDup (value (_extract_cities_list spacy section self))
  /\ Forall (fun c => c <> [])
            (value (_extract_cities_list spacy section self)).
Proof.
  unfold _extract_cities_list.
  pose proof (fold_distinct zip_cities_step (splitlines section) ([], [])
                zip_cities_step_distinct (distinct_cities_start []))
    as H1.
  destruct (fst (fold_left zip_cities_step (splitlines section) ([], [])))
    as [| c1 l1] eqn:E1.
  - pose proof (fold_distinct city_only_step (splitlines section) _
                  city_only_step_distinct H1) as H2.
    destruct (fst (fold_left city_only_step (splitlines section) _))
      as [| c2 l2] eqn:E2.
    + rewrite bind_value.
      destruct (value (_ensure_models spacy self)) as [| nlp pipes];
        [split; constructor |].
      unfold ret, value. cbn [fst].
      match goal with
      | |- NoDup (fst (fold_left ?f ?l ?a)) /\ _ =>
        destruct (fold_distinct f l a) as (H3 & H4 & _)
      end.
      * intros acc sc Hacc. destruct (PrimFloat.leb (fst sc) 0);
          [exact Hacc | apply add_unique_distinct; exact Hacc].
      * apply distinct_cities_start.
      * split; assumption.
    + destruct H2 as (H3 & H4 & _). rewrite E2 in H3, H4.
      split; assumption.
  - destruct H1 as (H3 & H4 & _). rewrite E1 in H3, H4. split; assumption.
Qed.

Lemma global_city_candidates_nonempty (full_text : str) :
  Forall (fun c => c <> []) (_find_global_city_candidates full_text).
Proof.
  unfold _find_global_city_candidates.
  destruct (is_empty full_text); [constructor | apply dedupe_distinct].
Qed.

Lemma global_ner_candidates_nonempty
      (spacy : Spacy) (full_text : str) (self : CityExtractor) :
  Forall (fun c => c <> [])
         (value (_find_global_ner_candidates spacy full_text self)).
Proof.
  unfold _find_global_ner_candidates. rewrite bind_value.
  destruct (value (_ensure_models spacy self)); [constructor |].
  unfold ret, value. cbn [fst]. apply dedupe_distinct.
Qed.

Lemma hd_error_nonempty (cands : list str) :
  Forall (fun c => c <> []) cands -> hd_error cands <> Some [].
Proof.
  intros H. destruct cands as [| c cs]; [discriminate |].
  inversion H; subst. cbn. congruence.
Qed.

Lemma last_error_nonempty (cands : list str) :
  Forall (fun c => c <> []) cands -> last_error cands <> Some [].
Proof.
  intros H. destruct cands as [| c cs]; [discriminate |].
  cbn [last_error]. intros E. injection E as E.
  rewrite Forall_forall in H. apply (H (last cs c)); [| exact E].
  clear. induction cs as [| d cs IH]; cbn [last].
  - left. reflexivity.
  - destruct cs as [| e cs'].
    + right. left. reflexivity.
    + destruct IH as [IH | IH]; [left; exact IH | right; right; exact IH].
Qed.

Lemma extract_ner_only_value
      (spacy : Spacy) (full_text : str) (self : CityExtractor) :
  exists l0 u0 cands,
    value (extract_ner_only spacy full_text self)
    = (or_else l0 (hd_error cands), or_else u0 (last_error cands))
    /\ Forall (fun c => c <> []) cands
    /\ (loading_section full_text = [] -> l0 = None)
    /\ (unloading_section full_text = [] -> u0 = None).
Proof.
  unfold extract_ner_only. rewrite !bind_value.
  set (m1 := if is_empty (loading_section full_text) then ret None
             else _ner_city spacy (loading_section full_text)).
  set (m2 := if is_empty (unloading_section full_text) then ret None
             else _ner_city spacy (unloading_section full_text)).
  set (l0 := value (m1 self)). set (u0 := value (m2 (state_of (m1 self)))).
  set (s2 := state_of (m2 (state_of (m1 self)))).
  exists l0, u0, (value (_find_global_ner_candidates spacy full_text s2)).
  repeat split.
  - rewrite <- fill_missing_spec.
    destruct (is_none l0 || is_none u0); [| reflexivity].
    rewrite bind_value. reflexivity.
  - apply global_ner_candidates_nonempty.
  - intros E. unfold l0, m1. rewrite E. reflexivity.
  - intros E. unfold u0, m2. rewrite E. reflexivity.
Qed.

(** X9: a city that the document-wide fallback supplies is never the empty
    string: when the loading (unloading) section is not found, none of the
    three extraction modes reports the empty string as loading (unloading)
    city -- unlike the section-based steps, which can. *)
Theorem fallback_city_never_empty
        (spacy : Spacy) (self : CityExtractor) (full_text : str) :
  (loading_section full_text = [] ->
   forall r, List.In r (all_modes spacy self full_text) -> fst r <> Some [])
  /\ (unloading_section full_text = [] ->
      forall r, List.In r (all_modes spacy self full_text) ->
                snd r <> Some []).
Proof.
  destruct (extract_ner_only_value spacy full_text self)
    as (l0 & u0 & nc & En & Hnc & Hl0 & Hu0).
  pose proof (global_city_candidates_nonempty full_text) as Hc.
  pose proof (extract_from_text_value spacy full_text self) as Eh.
  cbv zeta in Eh.
  assert (Er : extract_regex_only full_text
               = (or_else (if is_empty (loading_section full_text) then None
                           else _regex_city (loading_section full_text))
                          (hd_error (_find_global_city_candidates full_text)),
                  or_else (if is_empty (unloading_section full_text) then None
                           else _regex_city (unloading_section full_text))
                          (last_error (_find_global_city_candidates full_text)))).
  { unfold extract_regex_only. rewrite <- fill_missing_spec. reflexivity. }
  split; intros E r Hr; unfold all_modes in Hr;
    destruct Hr as [<- | [<- | [<- | []]]].
  - rewrite Er, E. change (is_empty []) with true. cbn [fst or_else].
    apply hd_error_nonempty, Hc.
  - rewrite En, (Hl0 E). cbn [fst or_else]. apply hd_error_nonempty, Hnc.
  - rewrite Eh. unfold loading_by_section at 1. rewrite E.
    change (is_empty []) with true. cbv iota.
    change (value (ret None self)) with (@None str).
    cbn [fst or_else]. apply hd_error_nonempty, Hc.
  - rewrite Er, E. change (is_empty []) with true. cbn [snd or_else].
    apply last_error_nonempty, Hc.
  - rewrite En, (Hu0 E). cbn [snd or_else]. apply last_error_nonempty, Hnc.
  - rewrite Eh. unfold unloading_by_section. rewrite E.
    change (is_empty []) with true. cbv iota.
    match goal with
    | |- context [value (ret None ?s)] =>
      change (value (ret None s)) with (@None str)
    end.
    cbn [snd or_else]. apply last_error_nonempty, Hc.
Qed.

Lemma fallback_city_never_empty_witness :
  loading_section two_postal_lines = []
  /\ unloading_section two_postal_lines = []
  /\ extract_regex_only two_postal_lines
     = (Some (u "Świdnica"), Some (u "Zielona Góra"))
  /\ fst (extract_regex_only two_postal_lines) <> Some []
  /\ snd (extract_regex_only two_postal_lines) <> Some [].
Proof.
  assert (Hl : loading_section two_postal_lines = [])
    by (vm_compute; reflexivity).
  assert (Hu : unloading_section two_postal_lines = [])
    by (vm_compute; reflexivity).
  destruct (fallback_city_never_empty
              no_spacy (MkCityExtractor false [] None) two_postal_lines)
    as [H1 H2].
  split; [exact Hl |]. split; [exact Hu |].
  split; [vm_compute; reflexivity |]. split.
  - apply (H1 Hl). left. reflexivity.
  - apply (H2 Hu). left. reflexivity.
Defined.

(** ** X10: entities with a digit or a street token are never cities *)

Lemma score_positive_plain (ent : Ent) :
  PrimFloat.leb (_score_ner_candidate ent) 0 = false -> plain_name ent.
Proof.
  unfold _score_ner_candidate, plain_name.
  destruct (existsb isdigit (strip (text ent)));
    [vm_compute; discriminate |].
  destruct (_looks_like_street (strip (text ent)));
    [vm_compute; discriminate |].
  auto.
Qed.

Lemma scored_entities_reported
      (pipes : list Pipeline) (section : str) (sc : float * str) :
  List.In sc (scored_entities pipes section) ->
  exists ent, reported pipes section ent /\ plain_name ent
              /\ sc = (_score_ner_candidate ent, _clean_city (text ent)).
Proof.
  unfold scored_entities. intros H.
  apply in_flat_map in H. destruct H as (nlp & Hnlp & H).
  destruct (nlp section) as [ents |] eqn:En; [| destruct H].
  apply in_flat_map in H. destruct H as (ent & Hent & H).
  destruct (PrimFloat.leb (_score_ner_candidate ent) 0) eqn:Es;
    [destruct H |].
  destruct H as [<- | []].
  exists ent. split; [exists nlp, ents; auto |].
  split; [apply score_positive_plain; exact Es | reflexivity].
Qed.

Lemma insert_desc_In (x y : float * str) (l : list (float * str)) :
  List.In y (insert_desc x l) -> y = x \/ List.In y l.
Proof.
  induction l as [| z l IH]; cbn [insert_desc].
  - intros [<- | []]. left. reflexivity.
  - destruct (key_le z x).
    + intros [<- | H]; [left; reflexivity | right; exact H].
    + intros [<- | H]; [right; left; reflexivity |].
      destruct (IH H) as [-> | H']; [left; reflexivity | right; right; exact H'].
Qed.

Lemma sort_desc_In (y : float * str) (l : list (float * str)) :
  List.In y (sort_desc l) -> List.In y l.
Proof.
  induction l as [| x l IH]; [intros [] |].
  unfold sort_desc. cbn [fold_right]. intros H.
  apply insert_desc_In in H. destruct H as [-> | H];
    [left; reflexivity | right; apply IH; exact H].
Qed.

(** X10: when the cascade finds no non-empty city on a section, a city
    returned by [_ner_city] is the normalized text of an entity that a
    loaded pipeline reported on that section, and the stripped text of that
    entity holds no digit and no street token. *)
Theorem ner_city_is_plain_entity
        (spacy : Spacy) (self : CityExtractor) (section c : str) :
  truthy (_regex_city section) = false ->
  value (_ner_city spacy section self) = Some c ->
  exists ent,
    reported (value (_ensure_models spacy self)) section ent
    /\ plain_name ent
    /\ c = _clean_city (text ent).
Proof.
  intros Hz. unfold _ner_city. rewrite bind_value.
  change (value (get self)) with self. change (state_of (get self)) with self.
  destruct (is_empty section || negb (use_spacy self)); [discriminate |].
  rewrite bind_value.
  destruct (value (_ensure_models spacy self)) as [| nlp pipes] eqn:Ep;
    [discriminate |].
  rewrite Hz.
  destruct (sort_desc (scored_entities (nlp :: pipes) section))
    as [| best rest] eqn:Es; [discriminate |].
  unfold ret, value. cbn [fst]. intros E. injection E as <-.
  destruct (scored_entities_reported (nlp :: pipes) section best)
    as (ent & Hr & Hp & Hb).
  { apply sort_desc_In. rewrite Es. left. reflexivity. }
  exists ent. rewrite Hb. auto.
Qed.

Lemma ner_city_is_plain_entity_witness :
  truthy (_regex_city (u "berlin")) = false
  /\ value (_ner_city berlin_tagger (u "berlin") (__init__ true []))
     = Some (u "Berlin")
  /\ exists ent,
       reported (value (_ensure_models berlin_tagger (__init__ true [])))
                (u "berlin") ent
       /\ plain_name ent
       /\ u "Berlin" = _clean_city (text ent).
Proof.
  assert (H1 : truthy (_regex_city (u "berlin")) = false)
    by (vm_compute; reflexivity).
  assert (H2 : value (_ner_city berlin_tagger (u "berlin") (__init__ true []))
               = Some (u "Berlin"))
    by (vm_compute; reflexivity).
  split; [exact H1 |]. split; [exact H2 |].
  exact (ner_city_is_plain_entity berlin_tagger (__init__ true [])
           (u "berlin") (u "Berlin") H1 H2).
Defined.

(** ** X11: without a pipeline *)

Section Unaided.

Variable spacy : Spacy.

Lemma unaided_ensure (self : CityExtractor) :
  unaided spacy self -> unaided spacy (state_of (_ensure_models spacy self)).
Proof.
  unfold unaided, _ensure_models, value, state_of.
  destruct (negb (use_spacy self) || negb (imported spacy)) eqn:E;
    cbn [fst snd]; [rewrite E; reflexivity |].
  destruct (_nlp_pipelines self) as [pipes |] eqn:Ep; cbn [fst snd].
  - rewrite E, Ep. auto.
  - cbn [use_spacy _nlp_pipelines]. rewrite E. auto.
Qed.

Lemma unaided_switched_off (self : CityExtractor) :
  unaided spacy (switched_off self).
Proof. reflexivity. Qed.

Lemma unaided_ner_city (section : str) (self : CityExtractor) :
  unaided spacy self ->
  unaided spacy (state_of (_ner_city spacy section self))
  /\ value (_ner_city spacy section self) = None.
Proof.
  intros H. split; [| apply ner_city_without_pipelines; exact H].
  unfold _ner_city. rewrite bind_state.
  change (value (get self)) with self. change (state_of (get self)) with self.
  destruct (is_empty section || negb (use_spacy self)); [exact H |].
  rewrite bind_state. rewrite H. apply unaided_ensure. exact H.
Qed.

Lemma unaided_cities_list (section : str) (self other : CityExtractor) :
  unaided spacy self -> unaided spacy other ->
  unaided spacy (state_of (_extract_cities_list spacy section self))
  /\ value (_extract_cities_list spacy section self)
     = value (_extract_cities_list spacy section other).
Proof.
  intros H H'. unfold _extract_cities_list.
  destruct (fst (fold_left zip_cities_step _ _)); [| split; [exact H | auto]].
  destruct (fst (fold_left city_only_step _ _)); [| split; [exact H | auto]].
  rewrite bind_state, !bind_value, H, H'.
  split; [apply unaided_ensure; exact H | reflexivity].
Qed.

Lemma unaided_loading (full_text : str) (self other : CityExtractor) :
  unaided spacy self -> unaided spacy other ->
  unaided spacy (state_of (loading_by_section spacy full_text self))
  /\ value (loading_by_section spacy full_text self)
     = value (loading_by_section spacy full_text other).
Proof.
  intros H H'. unfold loading_by_section.
  destruct (is_empty (loading_section full_text)); [split; [exact H | auto] |].
  rewrite bind_state, !bind_value.
  destruct (unaided_ner_city (loading_section full_text) self H) as [Hs Hv].
  destruct (unaided_ner_city (loading_section full_text) other H')
    as [_ Hv'].
  rewrite Hv, Hv'. split; [exact Hs | reflexivity].
Qed.

Lemma unaided_unloading (full_text : str) (self other : CityExtractor) :
  unaided spacy self -> unaided spacy other ->
  value (unloading_by_section spacy full_text self)
  = value (unloading_by_section spacy full_text other).
Proof.
  intros H H'. unfold unloading_by_section.
  destruct (is_empty (unloading_section full_text)); [reflexivity |].
  rewrite !bind_value.
  destruct (unaided_cities_list (unloading_section full_text) self other H H')
    as [Hs Hv].
  destruct (unaided_cities_list (unloading_section full_text) other self H' H)
    as [Hs' _].
  rewrite Hv.
  destruct (value (_extract_cities_list spacy (unloading_section full_text)
                     other)); [| reflexivity].
  rewrite !bind_value.
  destruct (unaided_ner_city (unloading_section full_text) _ Hs) as [_ Hn].
  destruct (unaided_ner_city (unloading_section full_text) _ Hs') as [_ Hn'].
  rewrite Hn, Hn'. reflexivity.
Qed.

End Unaided.

(** X11: when no pipeline is at hand -- tagging off, package absent, or no
    model loading -- the tagger-only mode finds no city at all, and the
    hybrid mode returns what the same extractor returns with tagging
    switched off. *)
Theorem without_pipelines_patterns_decide
        (spacy : Spacy) (self : CityExtractor) (full_text : str) :
  unaided spacy self ->
  value (extract_ner_only spacy full_text self) = (None, None)
  /\ value (extract_from_text spacy full_text self)
     = value (extract_from_text spacy full_text (switched_off self)).
Proof.
  intros H. split.
  - unfold extract_ner_only. rewrite !bind_value.
    set (m1 := if is_empty (loading_section full_text) then ret None
               else _ner_city spacy (loading_section full_text)).
    set (m2 := if is_empty (unloading_section full_text) then ret None
               else _ner_city spacy (unloading_section full_text)).
    assert (H1 : unaided spacy (state_of (m1 self)) /\ value (m1 self) = None).
    { unfold m1. destruct (is_empty (loading_section full_text));
        [split; [exact H | reflexivity] | apply unaided_ner_city; exact H]. }
    destruct H1 as [Hs1 Hv1].
    assert (H2 : unaided spacy (state_of (m2 (state_of (m1 self))))
                 /\ value (m2 (state_of (m1 self))) = None).
    { unfold m2. destruct (is_empty (unloading_section full_text));
        [split; [exact Hs1 | reflexivity] | apply unaided_ner_city; exact Hs1]. }
    destruct H2 as [Hs2 Hv2].
    rewrite Hv1, Hv2. cbn [is_none orb].
    rewrite bind_value.
    unfold _find_global_ner_candidates at 1. rewrite bind_value, Hs2.
    reflexivity.
  - rewrite !extract_from_text_value.
    pose proof (unaided_switched_off spacy self) as H'.
    destruct (unaided_loading spacy full_text self (switched_off self) H H')
      as [Hs Hv].
    destruct (unaided_loading spacy full_text (switched_off self) self H' H)
      as [Hs' _].
    rewrite Hv.
    rewrite (unaided_unloading spacy full_text _ _ Hs Hs').
    reflexivity.
Qed.

Lemma without_pipelines_patterns_decide_witness :
  unaided no_model (__init__ true [])
  /\ value (extract_ner_only no_model two_postal_lines (__init__ true []))
     = (None, None)
  /\ value (extract_from_text no_model two_postal_lines (__init__ true []))
     = value (extract_from_text no_model two_postal_lines
                (switched_off (__init__ true []))).
Proof.
  assert (H : unaided no_model (__init__ true []))
    by (vm_compute; reflexivity).
  split; [exact H |].
  exact (without_pipelines_patterns_decide no_model (__init__ true [])
           two_postal_lines H).
Defined.

(** ** X12: the shape of an order number *)

Lemma rep_loop_sound {A} (ic : bool) (r : Re.regex)
      (IH : forall st (k : mstate -> option A) a,
          rmatch ic r st k = Some a ->
          exists st', run ic r st st' /\ k st' = Some a)
      (k : mstate -> option A) (fuel lo : nat) (hi : option nat)
      (st : mstate) (a : A) :
  rep_loop (fun st' k' => rmatch ic r st' k') k fuel lo hi st = Some a ->
  exists st', run ic (Rep lo hi r) st st' /\ k st' = Some a.
Proof.
  revert lo hi st. induction fuel as [| fuel IHf]; intros lo hi st;
    cbn [rep_loop]; [discriminate |].
  assert (Hstop : (if Nat.eqb lo 0 then k st else None) = Some a ->
                  exists st', run ic (Rep lo hi r) st st' /\ k st' = Some a).
  { destruct lo; cbn [Nat.eqb]; [| discriminate].
    intros H. exists st. split; [apply run_rep_stop | exact H]. }
  destruct (hi_zero hi) eqn:Ehi; [exact Hstop |].
  match goal with
  | |- orelse ?x _ = _ -> _ => destruct x as [b |] eqn:Eb
  end; cbn [orelse]; [| exact Hstop].
  intros E. injection E as ->.
  apply IH in Eb. destruct Eb as (st1 & Hr & Hk).
  destruct (Nat.ltb 0 lo || Nat.ltb (List.length (m_rest st1))
                                    (List.length (m_rest st)));
    [| discriminate].
  apply IHf in Hk. destruct Hk as (st2 & Hr2 & Hk2).
  exists st2. split; [| exact Hk2].
  eapply run_rep_more; eassumption.
Qed.

(** Whatever the matcher returns comes from a run of the pattern. *)
Lemma rmatch_sound {A} (ic : bool) (r : Re.regex) :
  forall st (k : mstate -> option A) a,
    rmatch ic r st k = Some a ->
    exists st', run ic r st st' /\ k st' = Some a.
Proof.
  induction r as [| c | items | | | | r1 IH1 r2 IH2 | r1 IH1 r2 IH2
                  | lo hi r0 IH0 | n r0 IH0];
    intros st k a; cbn [rmatch].
  - intros H. exists st. split; [constructor | exact H].
  - destruct (step (lit_ok ic c) st) as [st' |] eqn:E; [| discriminate].
    intros H. exists st'. split; [constructor; exact E | exact H].
  - destruct (step (in_ok ic items) st) as [st' |] eqn:E; [| discriminate].
    intros H. exists st'. split; [constructor; exact E | exact H].
  - destruct (step isspace st) as [st' |] eqn:E; [| discriminate].
    intros H. exists st'. split; [constructor; exact E | exact H].
  - destruct (step isdecimal st) as [st' |] eqn:E; [| discriminate].
    intros H. exists st'. split; [constructor; exact E | exact H].
  - destruct (at_boundary st) eqn:E; [| discriminate].
    intros H. exists st. split; [constructor; exact E | exact H].
  - intros H. apply IH1 in H. destruct H as (st1 & H1 & H).
    apply IH2 in H. destruct H as (st2 & H2 & H).
    exists st2. split; [econstructor; eassumption | exact H].
  - destruct (rmatch ic r1 st k) as [b |] eqn:E; cbn [orelse].
    + intros H. injection H as ->. apply IH1 in E.
      destruct E as (st' & H1 & H). exists st'.
      split; [apply run_alt_l; exact H1 | exact H].
    + intros H. apply IH2 in H. destruct H as (st' & H2 & H).
      exists st'. split; [apply run_alt_r; exact H2 | exact H].
  - apply rep_loop_sound. exact IH0.
  - intros H. apply IH0 in H. destruct H as (st1 & H1 & H).
    exists (set_group n (consumed st st1) st1).
    split; [constructor; exact H1 | exact H].
Qed.

Lemma step_inv (p : char -> bool) (st st' : mstate) :
  step p st = Some st' ->
  exists x, m_rest st = x :: m_rest st' /\ p x = true
            /\ m_groups st' = m_groups st.
Proof.
  unfold step. destruct (m_rest st) as [| x xs]; [discriminate |].
  destruct (p x) eqn:E; [| discriminate].
  intros H. injection H as <-. exists x. auto.
Qed.

(** A run consumes a prefix of the text that is left. *)
Lemma run_consumes (ic : bool) (r : Re.regex) (st st' : mstate) :
  run ic r st st' -> exists x, m_rest st = x ++ m_rest st'.
Proof.
  induction 1 as [st | c st st' H | items st st' H | st st' H | st st' H
                  | st H | r1 r2 st st1 st2 _ [x1 E1] _ [x2 E2]
                  | r1 r2 st st' _ IH | r1 r2 st st' _ IH
                  | n r st st1 _ [x E] | hi r st
                  | lo hi r st st1 st2 _ _ [x1 E1] _ [x2 E2]];
    try (exists []; reflexivity);
    try (apply step_inv in H; destruct H as (x & E & _);
         exists [x]; exact E);
    try exact IH.
  - exists (x1 ++ x2). rewrite E1, E2, app_assoc. reflexivity.
  - exists x. exact E.
  - exists (x1 ++ x2). rewrite E1, E2, app_assoc. reflexivity.
Qed.

Lemma consumed_prefix (st st' : mstate) (x : str) :
  m_rest st = x ++ m_rest st' -> consumed st st' = x.
Proof.
  intros E. unfold consumed. rewrite E, length_app.
  replace (List.length x + List.length (m_rest st')
           - List.length (m_rest st'))%nat with (List.length x) by lia.
  rewrite firstn_app, firstn_all, Nat.sub_diag. cbn [firstn].
  apply app_nil_r.
Qed.

Lemma run_times_digit (ic : bool) (n : nat) (st st' : mstate) :
  run ic (times n Digit) st st' ->
  exists ds, List.length ds = n /\ forallb isdecimal ds = true
             /\ m_rest st = ds ++ m_rest st'.
Proof.
  unfold times. revert st. induction n as [| n IH]; intros st H.
  - inversion H; subst.
    + exists []. auto.
    + discriminate.
  - inversion H as [| | | | | | | | | | | lo hi r s0 s1 s2 _ Hd Hr]; subst.
    apply IH in Hr. destruct Hr as (ds & Hl & Hf & E).
    inversion Hd as [| | | | ? ? Hs | | | | | | |]; subst.
    apply step_inv in Hs. destruct Hs as (x & Ex & Hx & _).
    exists (x :: ds). cbn [List.length forallb app].
    try rewrite Hl. rewrite Hx, Hf, Ex, E. auto.
Qed.

(** A sequence that ends in group 1: what precedes the group, and the
    group's own run. *)
Lemma run_seq_group (ic : bool) (rs : list Re.regex) (g : Re.regex)
      (st st' : mstate) :
  run ic (seq_of (rs ++ [Group 1 g])) st st' ->
  exists st1 st2 x,
    m_rest st = x ++ m_rest st1
    /\ run ic g st1 st2
    /\ st' = set_group 1 (consumed st1 st2) st2.
Proof.
  revert st. induction rs as [| r rs IH]; intros st H.
  - cbn in H. inversion H as [| | | | | | ? ? ? s1 ? Hg He | | | | |]; subst.
    inversion He; subst.
    inversion Hg as [| | | | | | | | | ? ? ? s2 Hr | |]; subst.
    exists st, s2, []. auto.
  - change (seq_of ((r :: rs) ++ [Group 1 g]))
      with (Cat r (seq_of (rs ++ [Group 1 g]))) in H.
    inversion H as [| | | | | | ? ? ? s1 ? Hr Hrest | | | | |]; subst.
    apply IH in Hrest. destruct Hrest as (st1 & st2 & x & E & Hg & E').
    apply run_consumes in Hr. destruct Hr as [x0 E0].
    exists st1, st2, (x0 ++ x). rewrite E0, E, app_assoc. auto.
Qed.

Lemma search_from_inv (ic : bool) (r : Re.regex) (s : str) :
  forall prev pos m,
    search_from ic r prev s pos = Some m ->
    exists before s0 prev',
      s = before ++ s0
      /\ rmatch ic r (MState prev' s0 []) (fun st => Some st)
         = Some (m_end m).
Proof.
  induction s as [| c s IH]; intros prev pos m; cbn [search_from].
  - destruct (rmatch ic r (MState prev [] []) _) as [st |] eqn:E;
      [| discriminate].
    intros H. injection H as <-. exists [], [], prev. auto.
  - destruct (rmatch ic r (MState prev (c :: s) []) _) as [st |] eqn:E.
    + intros H. injection H as <-. exists [], (c :: s), prev. auto.
    + intros H. apply IH in H. destruct H as (b & s0 & p & Es & H).
      exists (c :: b), s0, p. rewrite Es. auto.
Qed.

Ltac to_props :=
  repeat match goal with
         | H : _ && _ = true |- _ => apply andb_prop in H; destruct H
         | H : _ || _ = true |- _ => apply orb_prop in H; destruct H
         | H : _ && _ = false |- _ => apply andb_false_iff in H; destruct H
         | H : _ || _ = false |- _ => apply orb_false_iff in H; destruct H
         | H : negb _ = true |- _ => apply negb_true_iff in H
         | H : negb _ = false |- _ => apply negb_false_iff in H
         | H : (_ <=? _)%N = true |- _ => apply N.leb_le in H
         | H : (_ <=? _)%N = false |- _ => apply N.leb_gt in H
         | H : (_ =? _)%N = true |- _ => apply N.eqb_eq in H
         | H : (_ =? _)%N = false |- _ => apply N.eqb_neq in H
         end.

Section Letters.

Local Open Scope N_scope.

(** What [[A-Z]] accepts when case is ignored: the Latin letters of both
    cases and the three characters that case folding sends among them. *)
Lemma capital_ignoring_case (l : char) :
  in_ok true [AZ] l = true ->
  order_letter l = true.
Proof.
  intros H.
  assert (T : between 0x61 0x7A (tolower l) = true
              \/ tolower l = 0x131 \/ tolower l = 0x17F).
  { unfold in_ok in H.
    replace (true && existsb (fun i => existsb iscased (item_chars i)) [AZ])
      with true in H by (vm_compute; reflexivity).
    cbn [existsb] in H. rewrite orb_false_r in H.
    unfold lowered_has in H. apply existsb_exists in H.
    destruct H as (c & Hc & H).
    assert (Hr : between 0x41 0x5A c = true).
    { unfold AZ, item_chars, nrange in Hc. apply in_map_iff in Hc.
      destruct Hc as (i & <- & Hi). apply in_seq in Hi.
      change (N.to_nat (ch "Z" + 1 - ch "A")) with 26%nat in Hi.
      change (ch "A") with 65. unfold between.
      apply andb_true_intro. split; apply N.leb_le; lia. }
    assert (Hlo : tolower c = (c + 32)).
    { unfold tolower. rewrite Hr. reflexivity. }
    rewrite Hlo in H. unfold between in Hr. to_props.
    - left. unfold between. subst. rewrite H.
      apply andb_true_intro. split; apply N.leb_le; lia.
    - unfold fixes in H.
      repeat match type of H with
             | context [if ?b then _ else _] => destruct b eqn:?
             end; cbn [mem existsb] in H; try discriminate H;
        rewrite orb_false_r in H; apply N.eqb_eq in H;
        first [solve [auto] | exfalso; to_props; lia]. }
  clear H. unfold order_letter, mem. cbn [existsb].
  change (ch "A") with 0x41. change (ch "Z") with 0x5A.
  change (ch "a") with 0x61. change (ch "z") with 0x7A.
  unfold tolower in T.
  destruct (between 0x41 0x5A l) eqn:E1; [reflexivity |].
  destruct (between 0x61 0x7A l) eqn:E2; [reflexivity |].
  cbn [orb].
  destruct (N.eqb_spec l 0x130); [reflexivity |].
  destruct (N.eqb_spec l 0x131); [reflexivity |].
  destruct (N.eqb_spec l 0x17F); [reflexivity |].
  exfalso. unfold between in *.
  repeat match type of T with
         | context [if ?b then _ else _] => destruct b eqn:?
         end; destruct T as [T | [T | T]]; to_props; try lia;
    assert (El : l = 382) by lia; rewrite El in *; discriminate.
Qed.

End Letters.

Lemma order_number_run (st1 st2 : mstate) :
  run true (seq_of [times 2 Digit; Lit (ch "/"); times 4 Digit; capital])
      st1 st2 ->
  exists g, m_rest st1 = g ++ m_rest st2 /\ order_number_shape g.
Proof.
  intros H. cbn [seq_of fold_right] in H.
  inversion H as [| | | | | | ? ? ? a ? H1 H2 | | | | |]; subst. clear H.
  inversion H2 as [| | | | | | ? ? ? b ? H3 H4 | | | | |]; subst. clear H2.
  inversion H4 as [| | | | | | ? ? ? c ? H5 H6 | | | | |]; subst. clear H4.
  inversion H6 as [| | | | | | ? ? ? d ? H7 H8 | | | | |]; subst. clear H6.
  inversion H8; subst. clear H8.
  apply run_times_digit in H1. destruct H1 as (ds1 & L1 & F1 & E1).
  apply run_times_digit in H5. destruct H5 as (ds2 & L2 & F2 & E2).
  inversion H3 as [| ? ? ? Hs | | | | | | | | | |]; subst.
  apply step_inv in Hs. destruct Hs as (x & Ex & Hx & _).
  unfold capital in H7.
  inversion H7 as [| | ? ? ? Hl | | | | | | | | |]; subst.
  apply step_inv in Hl. destruct Hl as (l & El & Hl & _).
  assert (x = ch "/") by (apply N.eqb_eq; exact Hx). subst x.
  destruct ds1 as [| d1 [| d2 [| ? ?]]]; try discriminate L1.
  destruct ds2 as [| d3 [| d4 [| d5 [| d6 [| ? ?]]]]]; try discriminate L2.
  exists [d1; d2; ch "/"; d3; d4; d5; d6; l]. split.
  - rewrite E1, Ex, E2, El. reflexivity.
  - exists d1, d2, d3, d4, d5, d6, l. split; [reflexivity |].
    split; [| apply capital_ignoring_case; exact Hl].
    cbn [forallb] in *.
    repeat match goal with
           | H : _ && _ = true |- _ => apply andb_prop in H; destruct H
           end.
    repeat match goal with
           | H : isdecimal _ = true |- _ => rewrite H; clear H
           end.
    reflexivity.
Qed.

Lemma order_pattern_search (rs : list Re.regex) (s : str) (m : rmatch_result) :
  pattern_search (Pattern true (seq_of (rs ++ [order_number_group]))) s
  = Some m ->
  order_number_shape (group 1 m) /\ occurs_in (group 1 m) s.
Proof.
  unfold pattern_search, search. cbn [ignorecase tree]. intros H.
  apply search_from_inv in H. destruct H as (before & s0 & prev & Es & H).
  apply rmatch_sound in H. destruct H as (st' & H & E).
  injection E as E. unfold group. rewrite <- E. clear E.
  unfold order_number_group in H. apply run_seq_group in H.
  destruct H as (st1 & st2 & x & Ex & Hg & ->).
  apply order_number_run in Hg. destruct Hg as (g & Eg & Hshape).
  unfold set_group. cbn [m_end m_groups lookup Nat.eqb].
  rewrite (consumed_prefix st1 st2 g Eg).
  split; [exact Hshape |].
  exists (before ++ x), (m_rest st2).
  rewrite Es. cbn [m_rest] in Ex. rewrite Ex, Eg, !app_assoc. reflexivity.
Qed.

(** X12: on a text within the repertoire, an order number returned by
    [_extract_order_number] is two decimal digits, a slash, four decimal
    digits and one letter -- of either case, as the patterns ignore case --
    and it stands in the text as returned. *)
Theorem order_number_is_well_formed (full_text g : str) :
  forallb in_repertoire full_text = true ->
  _extract_order_number full_text = Some g ->
  order_number_shape g /\ occurs_in g full_text.
Proof.
  intros _. unfold _extract_order_number, order_number_patterns.
  cbn [first_match].
  change (seq_of (escape (u "Zlecenie") :: plus Space :: nr_and_number))
    with (seq_of ((escape (u "Zlecenie")
                   :: plus Space
                   :: [Lit (ch "N"); Lit (ch "r"); opt (Lit (ch "."));
                       star Space])
                  ++ [order_number_group])).
  change (seq_of (escape (u "Speditionsauftrag") :: plus Space
                  :: nr_and_number))
    with (seq_of ((escape (u "Speditionsauftrag")
                   :: plus Space
                   :: [Lit (ch "N"); Lit (ch "r"); opt (Lit (ch "."));
                       star Space])
                  ++ [order_number_group])).
  change (seq_of nr_and_number)
    with (seq_of ([Lit (ch "N"); Lit (ch "r"); opt (Lit (ch "."));
                   star Space]
                  ++ [order_number_group])).
  repeat match goal with
         | |- context [pattern_search ?p full_text] =>
           let E := fresh "E" in
           destruct (pattern_search p full_text) as [m |] eqn:E;
             [intros H; injection H as <-;
              apply (order_pattern_search _ _ _ E) |]
         end.
  discriminate.
Qed.

Lemma order_number_is_well_formed_witness :
  _extract_order_number (u "Zlecenie nr. 25/3661a z dnia 24.11.2025")
  = Some (u "25/3661a")
  /\ order_number_shape (u "25/3661a")
  /\ occurs_in (u "25/3661a") (u "Zlecenie nr. 25/3661a z dnia 24.11.2025").
Proof.
  assert (H : _extract_order_number
                (u "Zlecenie nr. 25/3661a z dnia 24.11.2025")
              = Some (u "25/3661a")) by (vm_compute; reflexivity).
  split; [exact H |].
  apply (order_number_is_well_formed _ _); [vm_compute; reflexivity | exact H].
Defined.

(** ** X13: the comparison reports what each mode returns on its own *)

Section Views.

Variable spacy : Spacy.

Lemma same_view_refl (s : CityExtractor) : same_view spacy s s.
Proof. split; reflexivity. Qed.

Lemma same_view_sym (s1 s2 : CityExtractor) :
  same_view spacy s1 s2 -> same_view spacy s2 s1.
Proof. intros [H1 H2]. split; symmetry; assumption. Qed.

Lemma same_view_trans (s1 s2 s3 : CityExtractor) :
  same_view spacy s1 s2 -> same_view spacy s2 s3 -> same_view spacy s1 s3.
Proof.
  intros [H1 H2] [H3 H4]. split; [rewrite H1 | rewrite H2]; assumption.
Qed.

Lemma view_only_ret {A} (a : A) : view_only spacy (ret a).
Proof. split; [intros s; apply same_view_refl | reflexivity]. Qed.

Lemma view_only_bind {A B} (m : M A) (f : A -> M B) :
  view_only spacy m -> (forall a, view_only spacy (f a)) ->
  view_only spacy (bind m f).
Proof.
  intros [Hs Hv] Hf. split.
  - intros s. rewrite bind_state.
    eapply same_view_trans; [apply Hs |]. apply (Hf (value (m s))).
  - intros s1 s2 H. rewrite !bind_value, (Hv s1 s2 H).
    apply (Hf (value (m s2))).
    eapply same_view_trans; [apply same_view_sym, Hs |].
    eapply same_view_trans; [exact H | apply Hs].
Qed.

Lemma view_only_if {A} (b : bool) (m1 m2 : M A) :
  view_only spacy m1 -> view_only spacy m2 ->
  view_only spacy (if b then m1 else m2).
Proof. destruct b; auto. Qed.

Lemma view_only_ensure : view_only spacy (_ensure_models spacy).
Proof.
  split; [| intros s1 s2 [_ H]; exact H].
  intros s. unfold same_view, _ensure_models, value, state_of.
  destruct (negb (use_spacy s) || negb (imported spacy)) eqn:E;
    cbn [fst snd]; [rewrite E; auto |].
  destruct (_nlp_pipelines s) as [pipes |] eqn:Ep; cbn [fst snd].
  - rewrite E, Ep. auto.
  - cbn [use_spacy _nlp_pipelines]. rewrite E. auto.
Qed.

Lemma view_only_ner_city (section : str) :
  view_only spacy (_ner_city spacy section).
Proof.
  assert (Hrest : forall b : bool,
             view_only spacy
               (if b then ret None
                else nlp_pipes <- _ensure_models spacy ;;
                     match nlp_pipes with
                     | [] => ret None
                     | _ :: _ =>
                       if truthy (_regex_city section)
                       then ret (_regex_city section)
                       else match sort_desc
                                    (scored_entities nlp_pipes section) with
                            | [] => ret None
                            | best :: _ => ret (Some (snd best))
                            end
                     end)).
  { intros b. apply view_only_if; [apply view_only_ret |].
    apply view_only_bind; [apply view_only_ensure | intros pipes].
    destruct pipes; [apply view_only_ret |].
    apply view_only_if; [apply view_only_ret |].
    destruct (sort_desc _); apply view_only_ret. }
  split.
  - intros s. unfold _ner_city. rewrite bind_state.
    change (value (get s)) with s. change (state_of (get s)) with s.
    apply Hrest.
  - intros s1 s2 H. unfold _ner_city. rewrite !bind_value.
    change (value (get s1)) with s1. change (state_of (get s1)) with s1.
    change (value (get s2)) with s2. change (state_of (get s2)) with s2.
    destruct H as [Hu Hp]. rewrite Hu.
    apply Hrest. split; assumption.
Qed.

Lemma view_only_cities_list (section : str) :
  view_only spacy (_extract_cities_list spacy section).
Proof.
  unfold _extract_cities_list.
  destruct (fst (fold_left zip_cities_step _ _)); [| apply view_only_ret].
  destruct (fst (fold_left city_only_step _ _)); [| apply view_only_ret].
  apply view_only_bind; [apply view_only_ensure | intros pipes].
  destruct pipes; apply view_only_ret.
Qed.

Lemma view_only_global_ner (full_text : str) :
  view_only spacy (_find_global_ner_candidates spacy full_text).
Proof.
  unfold _find_global_ner_candidates.
  apply view_only_bind; [apply view_only_ensure | intros pipes].
  destruct pipes; apply view_only_ret.
Qed.

Lemma view_only_extract_from_text (full_text : str) :
  view_only spacy (extract_from_text spacy full_text).
Proof.
  unfold extract_from_text.
  apply view_only_bind.
  { apply view_only_if; [apply view_only_ret |].
    apply view_only_bind; [apply view_only_ner_city |].
    intros; apply view_only_ret. }
  intros loading_city. apply view_only_bind.
  { apply view_only_if; [apply view_only_ret |].
    apply view_only_bind; [apply view_only_cities_list | intros l].
    destruct l; [| apply view_only_ret].
    apply view_only_bind; [apply view_only_ner_city |].
    intros; apply view_only_ret. }
  intros unloading_city. apply view_only_if; apply view_only_ret.
Qed.

Lemma view_only_extract_ner_only (full_text : str) :
  view_only spacy (extract_ner_only spacy full_text).
Proof.
  unfold extract_ner_only.
  apply view_only_bind.
  { apply view_only_if; [apply view_only_ret | apply view_only_ner_city]. }
  intros loading_city. apply view_only_bind.
  { apply view_only_if; [apply view_only_ret | apply view_only_ner_city]. }
  intros unloading_city. apply view_only_if; [| apply view_only_ret].
  apply view_only_bind; [apply view_only_global_ner |].
  intros; apply view_only_ret.
Qed.

Lemma view_only_compare_methods (full_text : str) :
  view_only spacy (compare_methods spacy full_text).
Proof.
  unfold compare_methods.
  apply view_only_bind; [apply view_only_extract_ner_only | intros n].
  apply view_only_bind; [apply view_only_extract_from_text | intros h].
  apply view_only_ret.
Qed.

Lemma view_only_call (m : method) : view_only spacy (call spacy m).
Proof.
  destruct m; cbn [call];
    (apply view_only_bind; [| intros; apply view_only_ret]).
  - apply view_only_ensure.
  - apply view_only_ner_city.
  - apply view_only_cities_list.
  - apply view_only_global_ner.
  - apply view_only_extract_from_text.
  - apply view_only_extract_ner_only.
  - apply view_only_compare_methods.
Qed.

End Views.

(** X13: the three entries of [compare_methods] are what the three modes
    return when each is called alone on the same extractor; and whatever
    method was called on the extractor before, which may have loaded and
    cached the models, the hybrid and the tagger-only mode return what they
    return without that call. *)
Theorem compare_methods_reports_each_mode
        (spacy : Spacy) (self : CityExtractor) (full_text : str) :
  value (compare_methods spacy full_text self)
  = MkComparison (extract_regex_only full_text)
                 (value (extract_ner_only spacy full_text self))
                 (value (extract_from_text spacy full_text self))
  /\ forall earlier : method,
      let later := state_of (call spacy earlier self) in
      value (extract_from_text spacy full_text later)
      = value (extract_from_text spacy full_text self)
      /\ value (extract_ner_only spacy full_text later)
         = value (extract_ner_only spacy full_text self).
Proof.
  split.
  - unfold compare_methods. rewrite !bind_value.
    unfold ret, value at 1. cbn [fst]. f_equal.
    apply (proj2 (view_only_extract_from_text spacy full_text)).
    apply same_view_sym.
    apply (proj1 (view_only_extract_ner_only spacy full_text)).
  - intros earlier later.
    assert (H : same_view spacy later self)
      by (apply same_view_sym, (proj1 (view_only_call spacy earlier))).
    split.
    + apply (proj2 (view_only_extract_from_text spacy full_text)), H.
    + apply (proj2 (view_only_extract_ner_only spacy full_text)), H.
Qed.

(** ** X14: the Normalizer returns a tidy name *)

Lemma lstrip_length (s : str) : (List.length (lstrip s) <= List.length s)%nat.
Proof.
  induction s as [| c r IH]; [reflexivity |].
  cbn [lstrip]. destruct (isspace c); cbn [List.length]; lia.
Qed.

Lemma rep_loop_spaces (fuel : nat) :
  forall (s : str) (prev : option char),
    (List.length s < fuel)%nat ->
    exists p,
      rep_loop (fun st' k' => rmatch false Space st' k')
               (fun st => Some st) fuel 0 None (MState prev s [])
      = Some (MState p (lstrip s) []).
Proof.
  set (body := fun (st' : mstate) (k' : mstate -> option mstate) =>
                 rmatch false Space st' k').
  induction fuel as [| fuel IH]; intros s prev Hlen; [lia |].
  cbn [rep_loop Nat.eqb hi_zero]. unfold body at 1.
  cbn [rmatch]. unfold step. cbn [m_rest m_groups].
  destruct s as [| c r]; [exists prev; reflexivity |].
  cbn [lstrip]. destruct (isspace c) eqn:Ec; [| exists prev; reflexivity].
  cbn [m_rest List.length] in *.
  replace (Nat.ltb (List.length r) (S (List.length r))) with true
    by (symmetry; apply Nat.ltb_lt; lia).
  cbn [Nat.ltb Nat.leb orb Nat.pred hi_pred].
  destruct (IH r (Some c)) as [p Hp]; [lia |].
  rewrite Hp. exists p. reflexivity.
Qed.

Lemma spaces_at_run (prev : option char) (c : char) (r : str) :
  isspace c = true ->
  exists p,
    rmatch false (tree spaces) (MState prev (c :: r) []) (fun st => Some st)
    = Some (MState p (lstrip r) []).
Proof.
  intros Hc.
  change (rmatch false (tree spaces) (MState prev (c :: r) [])
                 (fun st => Some st))
    with (rep_loop (fun st' k' => rmatch false Space st' k')
                   (fun st => Some st)
                   (S (S (S (List.length r)))) 1 None
                   (MState prev (c :: r) [])).
  set (body := fun (st' : mstate) (k' : mstate -> option mstate) =>
                 rmatch false Space st' k').
  destruct (rep_loop_spaces (S (S (List.length r))) r (Some c)) as [p Hp];
    [lia |].
  fold body in Hp. revert Hp.
  generalize (S (S (List.length r))) as fuel. intros fuel Hp.
  cbn [rep_loop Nat.eqb hi_zero]. unfold body at 1.
  cbn [rmatch]. unfold step. cbn [m_rest m_groups]. rewrite Hc.
  cbn [Nat.ltb Nat.leb orb Nat.pred hi_pred].
  rewrite Hp. exists p. reflexivity.
Qed.

Lemma collapse_go_true (s : str) :
  collapse_go true s = collapse_go false (lstrip s).
Proof.
  induction s as [| c r IH]; [reflexivity |].
  cbn [collapse_go lstrip]. destruct (isspace c) eqn:Ec; [exact IH |].
  cbn [collapse_go]. rewrite Ec. reflexivity.
Qed.

Lemma sub_spaces_collapse (fuel : nat) :
  forall (s : str) (prev : option char),
    (List.length s < fuel)%nat ->
    sub_go fuel false (tree spaces) (u " ") prev s = collapse_go false s.
Proof.
  induction fuel as [| fuel IH]; intros s prev Hlen; [lia |].
  destruct s as [| c r]; [reflexivity |].
  cbn [List.length] in Hlen. cbn [sub_go collapse_go].
  destruct (isspace c) eqn:Ec.
  - destruct (spaces_at_run prev c r Ec) as [p Hp]. rewrite Hp.
    cbn [m_rest m_prev List.length].
    pose proof (lstrip_length r) as Hl.
    replace (Nat.ltb (List.length (lstrip r)) (S (List.length r))) with true
      by (symmetry; apply Nat.ltb_lt; lia).
    rewrite IH by lia. rewrite collapse_go_true. reflexivity.
  - rewrite (spaces_at_letter prev c r _ Ec).
    rewrite IH by lia. reflexivity.
Qed.

Lemma collapse_spaces (s : str) :
  re_sub spaces (u " ") s = collapse_go false s.
Proof. unfold re_sub, sub. apply sub_spaces_collapse. lia. Qed.

Lemma collapse_starts_plain (s : str) :
  starts_plain (collapse_go true s) = true.
Proof.
  induction s as [| c r IH]; [reflexivity |].
  cbn [collapse_go]. destruct (isspace c) eqn:Ec; [exact IH |].
  cbn [starts_plain]. rewrite Ec. reflexivity.
Qed.

Lemma collapse_spaced (s : str) (b : bool) : spaced (collapse_go b s) = true.
Proof.
  revert b. induction s as [| c r IH]; intros b; [reflexivity |].
  cbn [collapse_go]. destruct (isspace c) eqn:Ec.
  - destruct b; [apply IH |].
    cbn [spaced]. rewrite IH.
    pose proof (collapse_starts_plain r) as H. unfold starts_plain in H.
    rewrite H. reflexivity.
  - cbn [spaced]. rewrite Ec, IH. reflexivity.
Qed.

Lemma collapse_In (s : str) (b : bool) (x : char) :
  List.In x (collapse_go b s) -> isspace x = true \/ List.In x s.
Proof.
  revert b. induction s as [| c r IH]; intros b; [intros [] |].
  cbn [collapse_go]. destruct (isspace c) eqn:Ec.
  - destruct b.
    + intros H. destruct (IH _ H); [left | right; right]; assumption.
    + intros [<- | H]; [left; reflexivity |].
      destruct (IH _ H); [left | right; right]; assumption.
  - intros [<- | H]; [right; left; reflexivity |].
    destruct (IH _ H); [left | right; right]; assumption.
Qed.

Lemma isspace_32 : isspace 32%N = true.
Proof. reflexivity. Qed.

Lemma join_solid_cons (w : str) (ws : list str) :
  exists rest, join space (w :: ws) = w ++ rest.
Proof.
  destruct ws as [| w2 ws]; [exists []; cbn; rewrite app_nil_r; reflexivity |].
  exists (space ++ join space (w2 :: ws)). reflexivity.
Qed.

Lemma join_prepend (c : char) (w : str) (ws : list str) :
  c :: join space (w :: ws) = join space ((c :: w) :: ws).
Proof. destruct ws; reflexivity. Qed.

(** A text whose white space is single spaces is words joined by single
    spaces, with at most one space before and one after. *)
Lemma spaced_words (t : str) :
  spaced t = true ->
  exists lead trail ws,
    Forall solid ws
    /\ t = pad lead ++ join space ws ++ pad trail
    /\ (ws = [] -> trail = false).
Proof.
  induction t as [| c r IH]; intros H.
  - exists false, false, [].
    split; [constructor | split; [reflexivity | reflexivity]].
  - cbn [spaced] in H. apply andb_prop in H. destruct H as [Hc Hr].
    destruct (IH Hr) as (l & tr & ws & Hws & E & Hnil).
    destruct (isspace c) eqn:Ec.
    + cbn [negb orb] in Hc. apply andb_prop in Hc. destruct Hc as [H32 Hd].
      apply N.eqb_eq in H32. subst c.
      destruct l.
      { rewrite E in Hd. cbn in Hd. discriminate. }
      exists true, tr, ws.
      split; [exact Hws | split; [| exact Hnil]].
      rewrite E. reflexivity.
    + assert (Hsolid : forall w, free_of isspace w -> free_of isspace (c :: w)).
      { intros w Hw x [<- | Hx]; [exact Ec | apply Hw; exact Hx]. }
      assert (Hone : solid [c]).
      { split; [discriminate | apply Hsolid; intros x []]. }
      destruct l; cbn [pad app] in E.
      * destruct ws as [| w ws'].
        { rewrite (Hnil eq_refl) in E. cbn in E.
          exists false, true, [[c]].
          split; [constructor; [exact Hone | constructor] |].
          split; [rewrite E; reflexivity | discriminate]. }
        exists false, tr, ([c] :: w :: ws').
        split; [constructor; [exact Hone | exact Hws] |].
        split; [rewrite E; reflexivity | discriminate].
      * destruct ws as [| w ws'].
        { rewrite (Hnil eq_refl) in E. cbn in E.
          exists false, false, [[c]].
          split; [constructor; [exact Hone | constructor] |].
          split; [rewrite E; reflexivity | discriminate]. }
        exists false, tr, ((c :: w) :: ws').
        split; [| split; [| discriminate]].
        -- inversion Hws as [| ? ? [Hne Hw] Hrest]; subst.
           constructor; [| exact Hrest]. split; [discriminate |].
           apply Hsolid. exact Hw.
        -- rewrite E. cbn [pad app]. rewrite <- join_prepend. reflexivity.
Qed.

Lemma join_solid_head (w : str) (ws : list str) :
  Forall solid (w :: ws) ->
  exists c r, join space (w :: ws) = c :: r /\ isspace c = false.
Proof.
  intros H. inversion H as [| ? ? [Hne Hw] _]; subst.
  destruct w as [| c w]; [contradiction Hne; reflexivity |].
  destruct (join_solid_cons (c :: w) ws) as [rest E].
  exists c, (w ++ rest). split; [exact E | apply Hw; left; reflexivity].
Qed.

Lemma join_solid_last (ws : list str) :
  ws <> [] -> Forall solid ws ->
  exists r z, join space ws = r ++ [z] /\ isspace z = false.
Proof.
  induction ws as [| w ws IH]; intros Hne H; [contradiction Hne; reflexivity |].
  inversion H as [| ? ? [Hw Hfree] Hrest]; subst.
  destruct ws as [| w2 ws'].
  - cbn [join]. destruct (exists_last Hw) as (r & z & ->).
    exists r, z. split; [reflexivity |].
    apply Hfree. apply in_or_app. right. left. reflexivity.
  - destruct (IH ltac:(discriminate) Hrest) as (r & z & E & Hz).
    exists (w ++ space ++ r), z. split; [| exact Hz].
    rewrite join_cons2, E, <- !app_assoc. reflexivity.
Qed.

Lemma strip_padded (lead trail : bool) (ws : list str) :
  Forall solid ws -> (ws = [] -> trail = false) ->
  strip (pad lead ++ join space ws ++ pad trail) = join space ws.
Proof.
  intros Hws Hnil. unfold strip.
  assert (Hl : lstrip (pad lead ++ join space ws ++ pad trail)
               = join space ws ++ pad trail).
  { assert (H0 : lstrip (join space ws ++ pad trail)
                 = join space ws ++ pad trail).
    { destruct ws as [| w ws']; [rewrite (Hnil eq_refl); reflexivity |].
      destruct (join_solid_head w ws' Hws) as (c & r & E & Hc).
      rewrite E. cbn [app lstrip]. rewrite Hc. reflexivity. }
    destruct lead; [| exact H0].
    cbn [pad app lstrip]. rewrite isspace_32. exact H0. }
  rewrite Hl. unfold rstrip. rewrite rev_app_distr.
  assert (Hr : lstrip (rev (join space ws)) = rev (join space ws)).
  { destruct ws as [| w ws']; [reflexivity |].
    destruct (join_solid_last (w :: ws') ltac:(discriminate) Hws)
      as (r & z & E & Hz).
    rewrite E, rev_app_distr. cbn [rev app lstrip]. rewrite Hz. reflexivity. }
  destruct trail; cbn [pad rev app lstrip].
  - rewrite isspace_32, Hr. apply rev_involutive.
  - rewrite Hr. apply rev_involutive.
Qed.

Lemma solid_no_space (w : str) : solid w -> occurrences 32%N w = 0.
Proof.
  intros [_ H]. unfold occurrences, count.
  induction w as [| c w IH]; [reflexivity |].
  cbn [filter]. destruct (N.eqb_spec 32%N c) as [<- | _].
  - pose proof isspace_32 as H32.
    rewrite (H 32%N) in H32; [discriminate | left; reflexivity].
  - apply IH. intros x Hx. apply H. right. exact Hx.
Qed.

Lemma split_join_solid (ws : list str) :
  ws <> [] -> Forall solid ws -> split_char 32%N (join space ws) = ws.
Proof.
  induction ws as [| w ws IH]; intros Hne H; [contradiction Hne; reflexivity |].
  inversion H as [| ? ? Hw Hrest]; subst.
  destruct ws as [| w2 ws'].
  - cbn [join]. apply split_char_whole, solid_no_space, Hw.
  - rewrite join_cons2. change space with [32%N]. cbn [app].
    rewrite (split_char_piece 32%N w _ (solid_no_space w Hw)).
    f_equal. apply IH; [discriminate | exact Hrest].
Qed.

Ltac plain_branch :=
  split;
  [match goal with |- isspace ?e = false => destruct (isspace e) eqn:G end
  |match goal with
   | |- is_separator ?e = false => destruct (is_separator e) eqn:G
   end];
  try reflexivity; exfalso;
  unfold isspace, is_separator, mem, between in *;
  change (u ";,|") with [59%N; 44%N; 124%N] in *;
  cbn [existsb] in *; to_props; lia.

Section CaseMaps.

Local Open Scope N_scope.

Lemma toupper_plain (c : char) :
  isspace c = false -> is_separator c = false ->
  isspace (toupper c) = false /\ is_separator (toupper c) = false.
Proof.
  intros Hs Hp. unfold toupper.
  repeat match goal with
         | |- context [if ?b then _ else _] =>
           let E := fresh "E" in
           destruct b eqn:E;
             [clear Hs Hp; first [split; reflexivity | plain_branch]
             | clear E]
         end.
  split; assumption.
Qed.

Lemma tolower_plain (c : char) :
  isspace c = false -> is_separator c = false ->
  isspace (tolower c) = false /\ is_separator (tolower c) = false.
Proof.
  intros Hs Hp. unfold tolower.
  repeat match goal with
         | |- context [if ?b then _ else _] =>
           let E := fresh "E" in
           destruct b eqn:E;
             [clear Hs Hp; first [split; reflexivity | plain_branch]
             | clear E]
         end.
  split; assumption.
Qed.

End CaseMaps.

Lemma title_full_plain (c x : char) :
  isspace c = false -> is_separator c = false ->
  List.In x (title_full c) ->
  isspace x = false /\ is_separator x = false.
Proof.
  intros Hs Hp. unfold title_full.
  destruct (N.eqb c 223); [intros [<- | [<- | []]]; split; reflexivity |].
  destruct (N.eqb c 329); [intros [<- | [<- | []]]; split; reflexivity |].
  intros [<- | []]. apply toupper_plain; assumption.
Qed.

Lemma lower_full_plain (c x : char) :
  isspace c = false -> is_separator c = false ->
  List.In x (lower_full c) ->
  isspace x = false /\ is_separator x = false.
Proof.
  intros Hs Hp. unfold lower_full.
  destruct (N.eqb c 304); [intros [<- | [<- | []]]; split; reflexivity |].
  intros [<- | []]. apply tolower_plain; assumption.
Qed.

Lemma capitalize_plain (w : str) (x : char) :
  free_of isspace w -> free_of is_separator w ->
  List.In x (capitalize w) ->
  isspace x = false /\ is_separator x = false.
Proof.
  intros Hs Hp. destruct w as [| c r]; [intros [] |].
  cbn [capitalize]. intros H. apply in_app_or in H. destruct H as [H | H].
  - apply (title_full_plain c x); [apply Hs | apply Hp | exact H];
      left; reflexivity.
  - unfold lower in H. apply in_flat_map in H. destruct H as (d & Hd & H).
    apply (lower_full_plain d x); [apply Hs | apply Hp | exact H];
      right; exact Hd.
Qed.

Lemma capitalize_not_nil (w : str) : w <> [] -> capitalize w <> [].
Proof.
  destruct w as [| c r]; [intros H; contradiction H; reflexivity |].
  intros _. cbn [capitalize]. unfold title_full.
  destruct (N.eqb c 223); [discriminate |].
  destruct (N.eqb c 329); discriminate.
Qed.

Lemma removelast_In (w : str) (x : char) :
  List.In x (removelast w) -> List.In x w.
Proof.
  induction w as [| c r IH]; [intros [] |].
  cbn [removelast]. destruct r as [| d r']; [intros [] |].
  intros [<- | H]; [left; reflexivity | right; apply IH; exact H].
Qed.

Lemma title_part_tidy (w : str) :
  solid w -> free_of is_separator w ->
  solid (title_part w) /\ free_of is_separator (title_part w).
Proof.
  intros [Hne Hs] Hp. unfold title_part.
  destruct (negb (endswith_char (ch ".") w)).
  - split; [split |].
    + apply capitalize_not_nil. exact Hne.
    + intros x Hx. apply (capitalize_plain w x Hs Hp Hx).
    + intros x Hx. apply (capitalize_plain w x Hs Hp Hx).
  - assert (H : forall x, List.In x (capitalize (removelast w) ++ u ".") ->
                          isspace x = false /\ is_separator x = false).
    { intros x Hx. apply in_app_or in Hx. destruct Hx as [Hx | [<- | []]];
        [| split; reflexivity].
      apply (capitalize_plain (removelast w) x); [| | exact Hx].
      - intros y Hy. apply Hs, removelast_In, Hy.
      - intros y Hy. apply Hp, removelast_In, Hy. }
    split; [split |].
    + intros E. apply app_eq_nil in E. destruct E as [_ E]. discriminate E.
    + intros x Hx. apply (H x Hx).
    + intros x Hx. apply (H x Hx).
Qed.

Lemma separator_search (s : str) :
  forall (prev : option char) (pos : nat),
    match search_from false (tree separators) prev s pos with
    | Some m => exists k, m_start m = (pos + k)%nat
                          /\ free_of is_separator (firstn k s)
    | None => True
    end.
Proof.
  induction s as [| c s IH]; intros prev pos; cbn [search_from].
  - destruct (rmatch false (tree separators) _ _); [| exact I].
    exists 0%nat. split; [cbn; lia | intros x []].
  - destruct (rmatch false (tree separators) (MState prev (c :: s) []) _)
      as [st |] eqn:E.
    + exists 0%nat. split; [cbn; lia | intros x []].
    + assert (Hc : is_separator c = false).
      { cbn [tree separators rmatch] in E. unfold step in E.
        cbn [m_rest] in E.
        change (in_ok false (chars ";,|") c) with (is_separator c) in E.
        destruct (is_separator c); [discriminate E | reflexivity]. }
      specialize (IH (Some c) (S pos)).
      destruct (search_from false (tree separators) (Some c) s (S pos))
        as [m |]; [| exact I].
      destruct IH as (k & Hk & Hfree).
      exists (S k). split; [lia |].
      cbn [firstn]. intros x [<- | Hx]; [exact Hc | apply Hfree; exact Hx].
Qed.

Lemma split_head_separators (s : str) :
  free_of is_separator
          (split_head (ignorecase separators) (tree separators) s).
Proof.
  unfold split_head, search. change (ignorecase separators) with false.
  pose proof (separator_search s None 0) as H.
  destruct (search_from false (tree separators) None s 0) as [m |] eqn:E.
  - destruct H as (k & Hk & Hfree). cbv iota. rewrite Hk. exact Hfree.
  - intros x Hx. destruct (is_separator x) eqn:Ex; [| reflexivity].
    exfalso.
    assert (Hnone : forall (t : str) prev pos,
               search_from false (tree separators) prev t pos = None ->
               free_of is_separator t).
    { clear. induction t as [| c t IH]; intros prev pos H; [intros y [] |].
      cbn [search_from] in H.
      destruct (rmatch false (tree separators) (MState prev (c :: t) []) _)
        as [st |] eqn:E; [discriminate H |].
      cbn [tree separators rmatch] in E. unfold step in E. cbn [m_rest] in E.
      change (in_ok false (chars ";,|") c) with (is_separator c) in E.
      intros y [<- | Hy].
      - destruct (is_separator c); [discriminate E | reflexivity].
      - apply (IH _ _ H). exact Hy. }
    rewrite (Hnone s None 0%nat E x Hx) in Ex. discriminate.
Qed.

Lemma join_In_word (ws : list str) (w : str) (x : char) :
  List.In w ws -> List.In x w -> List.In x (join space ws).
Proof.
  induction ws as [| w0 ws IH]; [intros [] |].
  intros Hw Hx. destruct (join_solid_cons w0 ws) as [rest E].
  destruct Hw as [-> | Hw].
  - rewrite E. apply in_or_app. left. exact Hx.
  - destruct ws as [| w1 ws']; [destruct Hw |].
    rewrite join_cons2. apply in_or_app. right. apply in_or_app. right.
    apply IH; assumption.
Qed.

(** The last steps of the Normalizer, on any text. *)
Lemma finish_tidy (s : str) : tidy (finish s).
Proof.
  unfold finish.
  pose proof (split_head_separators s) as Hsep.
  set (s4 := split_head (ignorecase separators) (tree separators) s) in *.
  rewrite collapse_spaces.
  destruct (spaced_words _ (collapse_spaced s4 false))
    as (lead & trail & ws & Hws & E & Hnil).
  rewrite E, (strip_padded lead trail ws Hws Hnil).
  assert (Hfree : Forall (fun w => solid w /\ free_of is_separator w) ws).
  { rewrite Forall_forall in *. intros w Hw. split; [apply Hws; exact Hw |].
    intros x Hx.
    assert (Hin : List.In x (collapse_go false s4)).
    { rewrite E. apply in_or_app. right. apply in_or_app. left.
      apply (join_In_word ws w x Hw Hx). }
    apply collapse_In in Hin. destruct Hin as [Hsp | Hin].
    - destruct (Hws w Hw) as [_ Hs]. rewrite (Hs x Hx) in Hsp. discriminate.
    - apply Hsep. exact Hin. }
  destruct ws as [| w ws'].
  - exists []. split; [reflexivity | constructor].
  - exists (List.map title_part (w :: ws')). split.
    + unfold smart_title. change (ch " ") with 32%N.
      fold space. rewrite (split_join_solid (w :: ws')); [| discriminate | exact Hws].
      reflexivity.
    + rewrite Forall_forall in *. intros p Hp.
      apply in_map_iff in Hp. destruct Hp as (w0 & <- & Hw0).
      destruct (Hfree w0 Hw0) as [H1 H2].
      apply title_part_tidy; assumption.
Qed.

Lemma clean_city_tidy (raw : str) : tidy (_clean_city raw).
Proof.
  unfold _clean_city.
  destruct (is_empty raw); [exists []; split; [reflexivity | constructor] |].
  apply finish_tidy.
Qed.

(** X14: on a text within the repertoire, the Normalizer returns a tidy
    name: non-empty words joined by single spaces, with no other white
    space and none of the separators [;], [,] and [|] -- or the empty
    string, when no word is left. *)
Theorem clean_city_is_tidy (raw : str) :
  forallb in_repertoire raw = true -> tidy (_clean_city raw).
Proof. intros _. apply clean_city_tidy. Qed.

Lemma clean_city_is_tidy_witness :
  _clean_city (u "PL62-090   nowy  TOMYŚL ; magazyn 2")
  = u "Nowy Tomyśl"
  /\ tidy (u "Nowy Tomyśl").
Proof.
  assert (E : _clean_city (u "PL62-090   nowy  TOMYŚL ; magazyn 2")
              = u "Nowy Tomyśl") by (vm_compute; reflexivity).
  split; [exact E |].
  rewrite <- E. apply clean_city_is_tidy. vm_compute. reflexivity.
Defined.

(** ** X15: the cities of the regex-only mode are tidy names *)

Lemma zip_pass_tidy (lines : list str) (c : str) :
  zip_pass lines = Some c -> tidy c.
Proof.
  induction lines as [| l rest IH]; [discriminate |].
  cbn [zip_pass]. destruct (is_empty (strip l)); [exact IH |].
  destruct (first_match zip_patterns (strip l)) as [g |].
  - intros H. injection H as <-. apply clean_city_tidy.
  - destruct (Nat.ltb _ _); exact IH.
Qed.

Lemma city_only_pass_tidy (lines : list str) (c : str) :
  city_only_pass lines = Some c -> tidy c.
Proof.
  induction lines as [| l rest IH]; [discriminate |].
  cbn [city_only_pass]. destruct (is_empty (strip l)); [exact IH |].
  destruct (_looks_like_street (strip l)); [exact IH |].
  destruct (pattern_search _pattern_city_only (strip l)) as [m |];
    [| exact IH].
  intros H. injection H as <-. apply clean_city_tidy.
Qed.

Lemma regex_city_tidy (section c : str) :
  _regex_city section = Some c -> tidy c.
Proof.
  unfold _regex_city. destruct (is_empty section); [discriminate |].
  destruct (zip_pass (splitlines section)) as [z |] eqn:E.
  - intros H. injection H as <-. apply (zip_pass_tidy _ _ E).
  - apply city_only_pass_tidy.
Qed.

Lemma global_candidates_tidy (full_text : str) :
  Forall tidy (_find_global_city_candidates full_text).
Proof.
  rewrite global_candidates_spec. apply Forall_forall. intros c Hc.
  apply (proj1 (keep_first_In _ _)) in Hc.
  apply filter_In in Hc. destruct Hc as [Hc _].
  apply in_flat_map in Hc. destruct Hc as (l & _ & Hc).
  unfold line_candidate in Hc.
  destruct (first_match zip_patterns (strip l));
    [destruct Hc as [<- | []]; apply clean_city_tidy |].
  destruct (pattern_search _pattern_city_only (strip l));
    [destruct Hc as [<- | []]; apply clean_city_tidy | destruct Hc].
Qed.

Lemma hd_error_Forall {A} (P : A -> Prop) (l : list A) (x : A) :
  Forall P l -> hd_error l = Some x -> P x.
Proof.
  intros H E. destruct l as [| y l]; [discriminate |].
  injection E as <-. inversion H; assumption.
Qed.

Lemma last_error_Forall (P : str -> Prop) (l : list str) (x : str) :
  Forall P l -> last_error l = Some x -> P x.
Proof.
  intros H E. destruct l as [| y l]; [discriminate |].
  cbn [last_error] in E. injection E as <-.
  rewrite Forall_forall in H. apply H.
  clear. induction l as [| d l IH]; cbn [last].
  - left. reflexivity.
  - destruct l as [| e l'].
    + right. left. reflexivity.
    + destruct IH as [IH | IH]; [left; exact IH | right; right; exact IH].
Qed.

(** X15: on a document within the repertoire, every city that the
    regex-only mode reports, from a section or from the document-wide
    fallback, is a tidy name. *)
Theorem regex_only_cities_are_tidy (full_text c : str) :
  forallb in_repertoire full_text = true ->
  fst (extract_regex_only full_text) = Some c
  \/ snd (extract_regex_only full_text) = Some c ->
  tidy c.
Proof.
  intros _. rewrite extract_regex_only_value. cbn [fst snd].
  pose proof (global_candidates_tidy full_text) as Hc.
  intros [H | H].
  - destruct (is_empty (loading_section full_text)).
    + cbn [or_else] in H. apply (hd_error_Forall tidy _ c Hc H).
    + destruct (_regex_city (loading_section full_text)) as [z |] eqn:E;
        cbn [or_else] in H.
      * injection H as <-. apply (regex_city_tidy _ _ E).
      * apply (hd_error_Forall tidy _ c Hc H).
  - destruct (is_empty (unloading_section full_text)).
    + cbn [or_else] in H. apply (last_error_Forall tidy _ c Hc H).
    + destruct (_regex_city (unloading_section full_text)) as [z |] eqn:E;
        cbn [or_else] in H.
      * injection H as <-. apply (regex_city_tidy _ _ E).
      * apply (last_error_Forall tidy _ c Hc H).
Qed.

Lemma regex_only_cities_are_tidy_witness :
  extract_regex_only untidy_order = (Some (u "Nowy Tomyśl"), Some (u "Berlin"))
  /\ tidy (u "Nowy Tomyśl").
Proof.
  assert (E : extract_regex_only untidy_order
              = (Some (u "Nowy Tomyśl"), Some (u "Berlin")))
    by (vm_compute; reflexivity).
  split; [exact E |].
  apply (regex_only_cities_are_tidy untidy_order (u "Nowy Tomyśl"));
    [vm_compute; reflexivity | left; rewrite E; reflexivity].
Defined.

(** ** The patterns of the field extractors *)

Lemma rep_loop_xsound {A} (fl : Rx.flags) (r : Rx.regex)
      (IH : forall st (k : mstate -> option A) a,
          Rx.rmatch fl r st k = Some a ->
          exists st', xrun fl r st st' /\ k st' = Some a)
      (k : mstate -> option A) (fuel lo : nat) (hi : option nat)
      (st : mstate) (a : A) :
  rep_loop (fun st' k' => Rx.rmatch fl r st' k') k fuel lo hi st = Some a ->
  exists st', xrun fl (Rx.Rep true lo hi r) st st' /\ k st' = Some a.
Proof.
  revert lo hi st. induction fuel as [| fuel IHf]; intros lo hi st;
    cbn [rep_loop]; [discriminate |].
  assert (Hstop : (if Nat.eqb lo 0 then k st else None) = Some a ->
                  exists st', xrun fl (Rx.Rep true lo hi r) st st'
                              /\ k st' = Some a).
  { destruct lo; cbn [Nat.eqb]; [| discriminate].
    intros H. exists st. split; [apply xrun_rep_stop | exact H]. }
  destruct (hi_zero hi) eqn:Ehi; [exact Hstop |].
  match goal with
  | |- orelse ?x _ = _ -> _ => destruct x as [b |] eqn:Eb
  end; cbn [orelse]; [| exact Hstop].
  intros E. injection E as ->.
  apply IH in Eb. destruct Eb as (st1 & Hr & Hk).
  destruct (Nat.ltb 0 lo || Nat.ltb (List.length (m_rest st1))
                                    (List.length (m_rest st)));
    [| discriminate].
  apply IHf in Hk. destruct Hk as (st2 & Hr2 & Hk2).
  exists st2. split; [| exact Hk2].
  eapply xrun_rep_more; eassumption.
Qed.

Lemma lazy_loop_xsound {A} (fl : Rx.flags) (r : Rx.regex)
      (IH : forall st (k : mstate -> option A) a,
          Rx.rmatch fl r st k = Some a ->
          exists st', xrun fl r st st' /\ k st' = Some a)
      (k : mstate -> option A) (fuel lo : nat) (hi : option nat)
      (st : mstate) (a : A) :
  Rx.lazy_loop (fun st' k' => Rx.rmatch fl r st' k') k fuel lo hi st
  = Some a ->
  exists st', xrun fl (Rx.Rep false lo hi r) st st' /\ k st' = Some a.
Proof.
  revert lo hi st. induction fuel as [| fuel IHf]; intros lo hi st;
    cbn [Rx.lazy_loop]; [discriminate |].
  set (more := if hi_zero hi then None else _).
  assert (Hmore : more = Some a ->
                  exists st', xrun fl (Rx.Rep false lo hi r) st st'
                              /\ k st' = Some a).
  { unfold more. destruct (hi_zero hi) eqn:Ehi; [discriminate |].
    intros Eb. apply IH in Eb. destruct Eb as (st1 & Hr & Hk).
    destruct (Nat.ltb 0 lo || Nat.ltb (List.length (m_rest st1))
                                      (List.length (m_rest st)));
      [| discriminate].
    apply IHf in Hk. destruct Hk as (st2 & Hr2 & Hk2).
    exists st2. split; [| exact Hk2].
    eapply xrun_rep_more; eassumption. }
  destruct lo; cbn [Nat.eqb]; [| exact Hmore].
  destruct (k st) as [b |] eqn:Ek; cbn [orelse]; [| exact Hmore].
  intros E. injection E as ->.
  exists st. split; [apply xrun_rep_stop | exact Ek].
Qed.

(** Whatever the matcher returns comes from a run of the pattern. *)
Lemma xmatch_sound {A} (fl : Rx.flags) (r : Rx.regex) :
  forall st (k : mstate -> option A) a,
    Rx.rmatch fl r st k = Some a ->
    exists st', xrun fl r st st' /\ k st' = Some a.
Proof.
  induction r as [| c | negate items | | | | | r1 IH1 r2 IH2 | r1 IH1 r2 IH2
                  | greedy lo hi r0 IH0 | n r0 IH0];
    intros st k a; cbn [Rx.rmatch].
  - intros H. exists st. split; [constructor | exact H].
  - destruct (step (lit_ok (Rx.ignorecase fl) c) st) as [st' |] eqn:E;
      [| discriminate].
    intros H. exists st'. split; [constructor; exact E | exact H].
  - destruct (step (Rx.class_ok (Rx.ignorecase fl) negate items) st)
      as [st' |] eqn:E; [| discriminate].
    intros H. exists st'. split; [constructor; exact E | exact H].
  - destruct (step (Rx.any_ok fl) st) as [st' |] eqn:E; [| discriminate].
    intros H. exists st'. split; [constructor; exact E | exact H].
  - destruct (step isspace st) as [st' |] eqn:E; [| discriminate].
    intros H. exists st'. split; [constructor; exact E | exact H].
  - destruct (step isdecimal st) as [st' |] eqn:E; [| discriminate].
    intros H. exists st'. split; [constructor; exact E | exact H].
  - destruct (at_boundary st) eqn:E; [| discriminate].
    intros H. exists st. split; [constructor; exact E | exact H].
  - intros H. apply IH1 in H. destruct H as (st1 & H1 & H).
    apply IH2 in H. destruct H as (st2 & H2 & H).
    exists st2. split; [econstructor; eassumption | exact H].
  - destruct (Rx.rmatch fl r1 st k) as [b |] eqn:E; cbn [orelse].
    + intros H. injection H as ->. apply IH1 in E.
      destruct E as (st' & H1 & H). exists st'.
      split; [apply xrun_alt_l; exact H1 | exact H].
    + intros H. apply IH2 in H. destruct H as (st' & H2 & H).
      exists st'. split; [apply xrun_alt_r; exact H2 | exact H].
  - destruct greedy.
    + apply rep_loop_xsound. exact IH0.
    + apply lazy_loop_xsound. exact IH0.
  - intros H. apply IH0 in H. destruct H as (st1 & H1 & H).
    exists (set_group n (consumed st st1) st1).
    split; [constructor; exact H1 | exact H].
Qed.

(** A run consumes a prefix of the text that is left. *)
Lemma xrun_consumes (fl : Rx.flags) (r : Rx.regex) (st st' : mstate) :
  xrun fl r st st' -> exists x, m_rest st = x ++ m_rest st'.
Proof.
  induction 1 as [st | c st st' H | negate items st st' H | st st' H
                  | st st' H | st st' H
                  | st H | r1 r2 st st1 st2 _ [x1 E1] _ [x2 E2]
                  | r1 r2 st st' _ IH | r1 r2 st st' _ IH
                  | n r st st1 _ [x E] | greedy hi r st
                  | greedy lo hi r st st1 st2 _ _ [x1 E1] _ [x2 E2]];
    try (exists []; reflexivity);
    try (apply step_inv in H; destruct H as (x & E & _);
         exists [x]; exact E);
    try exact IH.
  - exists (x1 ++ x2). rewrite E1, E2, app_assoc. reflexivity.
  - exists x. exact E.
  - exists (x1 ++ x2). rewrite E1, E2, app_assoc. reflexivity.
Qed.

Lemma xsearch_from_inv (fl : Rx.flags) (r : Rx.regex) (s : str) :
  forall prev pos m,
    Rx.search_from fl r prev s pos = Some m ->
    exists before s0 prev',
      s = before ++ s0
      /\ xrun fl r (MState prev' s0 []) (m_end m).
Proof.
  induction s as [| c s IH]; intros prev pos m; cbn [Rx.search_from].
  - destruct (Rx.rmatch fl r (MState prev [] []) _) as [st |] eqn:E;
      [| discriminate].
    intros H. injection H as <-. exists [], [], prev. split; [reflexivity |].
    apply xmatch_sound in E. destruct E as (st' & Hr & E).
    injection E as <-. exact Hr.
  - destruct (Rx.rmatch fl r (MState prev (c :: s) []) _) as [st |] eqn:E.
    + intros H. injection H as <-. exists [], (c :: s), prev.
      split; [reflexivity |].
      apply xmatch_sound in E. destruct E as (st' & Hr & E).
      injection E as <-. exact Hr.
    + intros H. apply IH in H. destruct H as (b & s0 & p & Es & H).
      exists (c :: b), s0, p. rewrite Es. auto.
Qed.

Lemma xrun_groupless (fl : Rx.flags) (r : Rx.regex) (st st' : mstate) :
  xrun fl r st st' -> no_group r = true -> m_groups st' = m_groups st.
Proof.
  induction 1 as [st | c st st' H | negate items st st' H | st st' H
                  | st st' H | st st' H
                  | st H | r1 r2 st st1 st2 _ IH1 _ IH2
                  | r1 r2 st st' _ IH | r1 r2 st st' _ IH
                  | n r st st1 _ IH | greedy hi r st
                  | greedy lo hi r st st1 st2 _ _ IH1 _ IH2];
    cbn [no_group]; intros Hn;
    try reflexivity;
    try (apply step_inv in H; destruct H as (x & _ & _ & E); exact E).
  - apply andb_prop in Hn. destruct Hn as [H1 H2].
    rewrite (IH2 H2). apply IH1. exact H1.
  - apply andb_prop in Hn. apply IH. apply Hn.
  - apply andb_prop in Hn. apply IH. apply Hn.
  - discriminate.
  - rewrite (IH2 Hn). apply IH1. exact Hn.
Qed.

Lemma no_group_seq (rs : list Rx.regex) :
  no_group (Rx.seq_of rs) = forallb no_group rs.
Proof.
  induction rs as [| r rs IH]; [reflexivity |].
  cbn [Rx.seq_of fold_right forallb no_group]. fold (Rx.seq_of rs).
  rewrite IH. reflexivity.
Qed.

Lemma xrun_seq_split (fl : Rx.flags) (rs1 : list Rx.regex) (r : Rx.regex)
      (rs2 : list Rx.regex) (st st' : mstate) :
  xrun fl (Rx.seq_of (rs1 ++ r :: rs2)) st st' ->
  exists st1 st2 x,
    m_rest st = x ++ m_rest st1
    /\ xrun fl r st1 st2
    /\ xrun fl (Rx.seq_of rs2) st2 st'.
Proof.
  revert st. induction rs1 as [| r1 rs1 IH]; intros st H.
  - change (Rx.seq_of ([] ++ r :: rs2)) with (Rx.Cat r (Rx.seq_of rs2)) in H.
    inversion H as [| | | | | | | ? ? ? s1 ? Hr Hrest | | | | |]; subst.
    exists st, s1, []. auto.
  - change (Rx.seq_of ((r1 :: rs1) ++ r :: rs2))
      with (Rx.Cat r1 (Rx.seq_of (rs1 ++ r :: rs2))) in H.
    inversion H as [| | | | | | | ? ? ? s1 ? Hr Hrest | | | | |]; subst.
    apply IH in Hrest. destruct Hrest as (st1 & st2 & x & E & Hg & Hafter).
    apply xrun_consumes in Hr. destruct Hr as [x0 E0].
    exists st1, st2, (x0 ++ x). rewrite E0, E, app_assoc. auto.
Qed.

(** What group 1 holds after a search: a text that its pattern ran over,
    and that stands in the text searched. *)
Lemma xsearch_group (fl : Rx.flags) (p g : Rx.regex) (s : str)
      (m : rmatch_result) :
  captures_with g p ->
  Rx.search fl p s = Some m ->
  exists st1 st2,
    xrun fl g st1 st2
    /\ m_rest st1 = group 1 m ++ m_rest st2
    /\ occurs_in (group 1 m) s.
Proof.
  intros (rs1 & rs2 & -> & Hafter) H. unfold Rx.search in H.
  apply xsearch_from_inv in H. destruct H as (before & s0 & prev & Es & H).
  apply xrun_seq_split in H. destruct H as (st1 & st2 & x & Ex & Hg & Hrest).
  inversion Hg as [| | | | | | | | | | ? ? ? sg Hrun | |]; subst.
  destruct (xrun_consumes _ _ _ _ Hrun) as [xg Eg].
  assert (Hgroup : group 1 m = xg).
  { unfold group.
    rewrite (xrun_groupless _ _ _ _ Hrest);
      [| rewrite no_group_seq; exact Hafter].
    unfold set_group. cbn [m_groups lookup Nat.eqb].
    apply consumed_prefix. exact Eg. }
  exists st1, sg. rewrite Hgroup. split; [exact Hrun |].
  split; [exact Eg |].
  exists (before ++ x), (m_rest sg).
  cbn [m_rest] in Ex. rewrite Ex, Eg, !app_assoc. reflexivity.
Qed.

Lemma one_char_digit (fl : Rx.flags) : one_char fl isdecimal Rx.Digit.
Proof.
  intros st st' H. inversion H; subst.
  match goal with
  | Hs : step _ _ = Some _ |- _ =>
    apply step_inv in Hs; destruct Hs as (x & E & Hx & _)
  end.
  exists x. auto.
Qed.

Lemma one_char_lit (fl : Rx.flags) (c : char) :
  one_char fl (lit_ok (Rx.ignorecase fl) c) (Rx.Lit c).
Proof.
  intros st st' H. inversion H; subst.
  match goal with
  | Hs : step _ _ = Some _ |- _ =>
    apply step_inv in Hs; destruct Hs as (x & E & Hx & _)
  end.
  exists x. auto.
Qed.

Lemma one_char_class (fl : Rx.flags) (negate : bool) (items : list Rx.xitem) :
  one_char fl (Rx.class_ok (Rx.ignorecase fl) negate items)
           (Rx.Class negate items).
Proof.
  intros st st' H. inversion H; subst.
  match goal with
  | Hs : step _ _ = Some _ |- _ =>
    apply step_inv in Hs; destruct Hs as (x & E & Hx & _)
  end.
  exists x. auto.
Qed.

(** A bounded repetition of a one-character pattern consumes between [lo]
    and [hi] such characters. *)
Lemma xrun_rep_chars (fl : Rx.flags) (P : char -> bool) (r : Rx.regex)
      (greedy : bool) :
  one_char fl P r ->
  forall (hi lo : nat) (st st' : mstate),
    xrun fl (Rx.Rep greedy lo (Some hi) r) st st' ->
    exists xs,
      lo <= List.length xs <= hi
      /\ forallb P xs = true
      /\ m_rest st = xs ++ m_rest st'.
Proof.
  intros Hone. induction hi as [| hi IH]; intros lo st st' H.
  - inversion H; subst.
    + exists []. cbn. repeat split; lia.
    + discriminate.
  - inversion H as [| | | | | | | | | | | g0 h0 r0 s0
                    | g0 lo0 h0 r0 s0 s1 s2 _ Hd Hr]; subst.
    + exists []. cbn. repeat split; lia.
    + apply IH in Hr. destruct Hr as (xs & Hl & Hf & E).
      apply Hone in Hd. destruct Hd as (x & Ex & Hx).
      exists (x :: xs). cbn [List.length forallb app].
      rewrite Hx, Hf, Ex, E. repeat split; lia.
Qed.

Lemma xrun_cat_inv (fl : Rx.flags) (r : Rx.regex) (rs : list Rx.regex)
      (st st' : mstate) :
  xrun fl (Rx.seq_of (r :: rs)) st st' ->
  exists st1, xrun fl r st st1 /\ xrun fl (Rx.seq_of rs) st1 st'.
Proof.
  intros H. change (Rx.seq_of (r :: rs)) with (Rx.Cat r (Rx.seq_of rs)) in H.
  inversion H as [| | | | | | | ? ? ? s1 ? Hr Hrest | | | | |]; subst.
  exists s1. auto.
Qed.

Lemma xrun_nil_inv (fl : Rx.flags) (st st' : mstate) :
  xrun fl (Rx.seq_of []) st st' -> st' = st.
Proof. intros H. inversion H; subst. reflexivity. Qed.

(** ** X16: the unloading date *)

Lemma lit_ok_uncased (ic : bool) (c x : char) :
  iscased c = false -> lit_ok ic c x = true -> x = c.
Proof.
  intros Hc. unfold lit_ok. rewrite Hc, andb_false_r.
  intros H. apply N.eqb_eq. exact H.
Qed.

Lemma xrun_times_digits (fl : Rx.flags) (n : nat) (st st' : mstate) :
  xrun fl (Rx.times n Rx.Digit) st st' ->
  exists ds, digits n ds /\ m_rest st = ds ++ m_rest st'.
Proof.
  intros H. unfold Rx.times in H.
  apply (xrun_rep_chars fl isdecimal _ _ (one_char_digit fl)) in H.
  destruct H as (ds & Hl & Hf & E).
  exists ds. split; [split; [lia | exact Hf] | exact E].
Qed.

Lemma xrun_lit_uncased (fl : Rx.flags) (c : char) (st st' : mstate) :
  iscased c = false ->
  xrun fl (Rx.Lit c) st st' -> m_rest st = c :: m_rest st'.
Proof.
  intros Hc H. apply one_char_lit in H. destruct H as (x & E & Hx).
  apply (lit_ok_uncased _ _ _ Hc) in Hx. subst x. exact E.
Qed.

Lemma date_text_run (fl : Rx.flags) (st1 st2 : mstate) :
  xrun fl date_text st1 st2 ->
  exists d m y,
    digits 2 d /\ digits 2 m /\ digits 4 y
    /\ m_rest st1 = dotted d m y ++ m_rest st2.
Proof.
  intros H. unfold date_text in H.
  apply xrun_cat_inv in H. destruct H as (a & Hd & H).
  apply xrun_cat_inv in H. destruct H as (b & Hp1 & H).
  apply xrun_cat_inv in H. destruct H as (c & Hm & H).
  apply xrun_cat_inv in H. destruct H as (e & Hp2 & H).
  apply xrun_cat_inv in H. destruct H as (f & Hy & H).
  apply xrun_nil_inv in H. subst st2.
  apply xrun_times_digits in Hd. destruct Hd as (d & Dd & Ed).
  apply xrun_times_digits in Hm. destruct Hm as (m & Dm & Em).
  apply xrun_times_digits in Hy. destruct Hy as (y & Dy & Ey).
  apply xrun_lit_uncased in Hp1; [| reflexivity].
  apply xrun_lit_uncased in Hp2; [| reflexivity].
  exists d, m, y. repeat (split; [assumption |]).
  unfold dotted. change (u ".") with [ch "."].
  rewrite Ed, Hp1, Em, Hp2, Ey, <- !app_assoc. reflexivity.
Qed.

Lemma date_loop_spec (patterns : list Rx.regex) (full_text : str) :
  Forall (captures_with date_text) patterns ->
  (forall f,
      date_loop patterns full_text = Some f ->
      exists d m y,
        digits 2 d /\ digits 2 m /\ digits 4 y
        /\ occurs_in (dotted d m y) full_text
        /\ f = iso_date y m d)
  /\ (date_loop patterns full_text = None
      <-> none_matches IGNORECASE patterns full_text).
Proof.
  induction 1 as [| p rest Hp _ [IH1 IH2]]; cbn [date_loop].
  - split; [discriminate |]. split; [constructor | reflexivity].
  - destruct (Rx.search IGNORECASE p full_text) as [m |] eqn:E.
    + destruct (xsearch_group _ _ _ _ _ Hp E) as (st1 & st2 & Hrun & Eg & Hocc).
      apply date_text_run in Hrun.
      destruct Hrun as (d & mo & y & Dd & Dm & Dy & Ed).
      assert (Hg : group 1 m = dotted d mo y).
      { rewrite Eg in Ed. apply app_inv_tail in Ed. exact Ed. }
      rewrite Hg in *. rewrite (format_date_digits d mo y Dd Dm Dy).
      split.
      * intros f Hf. injection Hf as <-. exists d, mo, y. auto 6.
      * split; [discriminate |].
        intros Hn. inversion Hn as [| ? ? Hnone _]; subst.
        rewrite E in Hnone. discriminate.
    + split; [exact IH1 |]. rewrite IH2. split.
      * intros Hn. constructor; assumption.
      * intros Hn. inversion Hn; assumption.
Qed.

Lemma date_patterns_capture : Forall (captures_with date_text) date_patterns.
Proof.
  unfold date_patterns. repeat constructor.
  - exists [Rx.text "Termin"; Rx.plus Rx.Space; Rx.text "rozładunku";
            Rx.plus colon_or_space], []. split; reflexivity.
  - exists [Rx.text "Termin"; Rx.plus Rx.Space; Rx.text "rozladunku";
            Rx.plus colon_or_space], []. split; reflexivity.
  - exists [Rx.text "Entladetermin"; Rx.star Rx.Space;
            Rx.opt (Rx.Lit (ch ":")); Rx.star Rx.Space], [].
    split; reflexivity.
  - exists [Rx.Alt (Rx.text "Entlade") (Rx.text "rozlad");
            Rx.star (Rx.Class true [Rx.DigitCat])], [].
    split; reflexivity.
Qed.

(** X16: on a text within the repertoire, [_extract_unloading_date]
    returns nothing exactly when none of its four patterns matches.  What
    it returns is a date [d.m.y] that stands in the text, with two digits
    for the day, two for the month and four for the year, rewritten as
    [y-m-d]; no check is made that day and month exist in the calendar. *)
Theorem unloading_date_is_rewritten (full_text : str) :
  forallb in_repertoire full_text = true ->
  (forall f,
      _extract_unloading_date full_text = Some f ->
      exists d m y,
        digits 2 d /\ digits 2 m /\ digits 4 y
        /\ occurs_in (dotted d m y) full_text
        /\ f = iso_date y m d)
  /\ (_extract_unloading_date full_text = None
      <-> none_matches IGNORECASE date_patterns full_text).
Proof.
  intros _. apply date_loop_spec, date_patterns_capture.
Qed.

Lemma unloading_date_is_rewritten_witness :
  _extract_unloading_date (u "Termin rozładunku: 24.11.2025")
  = Some (u "2025-11-24")
  /\ _extract_unloading_date (u "Entladetermin 99.99.0000")
     = Some (u "0000-99-99")
  /\ exists d m y,
       digits 2 d /\ digits 2 m /\ digits 4 y
       /\ occurs_in (dotted d m y) (u "Termin rozładunku: 24.11.2025")
       /\ u "2025-11-24" = iso_date y m d.
Proof.
  assert (E : _extract_unloading_date (u "Termin rozładunku: 24.11.2025")
              = Some (u "2025-11-24")) by (vm_compute; reflexivity).
  split; [exact E |]. split; [vm_compute; reflexivity |].
  apply (proj1 (unloading_date_is_rewritten
                  (u "Termin rozładunku: 24.11.2025")
                  ltac:(vm_compute; reflexivity))).
  exact E.
Defined.

(** ** X17: the license plate *)

Section PlateLetters.

Local Open Scope N_scope.

Lemma tolower_latin (x k : char) :
  between 0x61 0x7A k = true -> k <> 0x69 ->
  tolower x = k -> x = k \/ x = k - 32.
Proof.
  intros Hk Hi. unfold tolower, between in *.
  repeat match goal with
         | |- context [if ?b then _ else _] => destruct b eqn:?
         end; intros T; to_props; lia.
Qed.

Lemma upper_full_lower (x : char) :
  between 0x61 0x7A x = true -> upper_full x = [x - 32].
Proof.
  intros H. unfold upper_full, toupper. rewrite H.
  unfold between in H. to_props.
  destruct (N.eqb_spec x 0xDF); [lia |].
  destruct (N.eqb_spec x 0x149); [lia | reflexivity].
Qed.

Lemma toupper_low (x : char) : x < 0x61 -> toupper x = x.
Proof.
  intros H. unfold toupper, between.
  repeat match goal with
         | |- context [if ?b then _ else _] =>
           destruct b eqn:?; [exfalso; to_props; lia |]
         end.
  reflexivity.
Qed.

Lemma upper_full_low (x : char) : x < 0x61 -> upper_full x = [x].
Proof.
  intros H. unfold upper_full. rewrite (toupper_low x H).
  destruct (N.eqb_spec x 0xDF); [lia |].
  destruct (N.eqb_spec x 0x149); [lia | reflexivity].
Qed.

Lemma lit_P (x : char) :
  lit_ok true (ch "P") x = true ->
  upper_full x = [ch "P"] /\ isspace x = false.
Proof.
  unfold lit_ok.
  replace (true && iscased (ch "P")) with true by (vm_compute; reflexivity).
  change (tolower (ch "P")) with 112. change (fixes 112) with (@nil char).
  cbn [mem existsb]. rewrite orb_false_r. intros H. apply N.eqb_eq in H.
  apply tolower_latin in H; [| reflexivity | discriminate].
  destruct H as [-> | ->]; split; reflexivity.
Qed.

Lemma class_lpn (x : char) :
  Rx.class_ok true false lpn x = true ->
  exists c, upper_full x = [c] /\ mem c (u "LPN") = true
            /\ isspace x = false.
Proof.
  unfold Rx.class_ok.
  replace (true && existsb Rx.xitem_cased lpn) with true
    by (vm_compute; reflexivity).
  cbn [xorb]. unfold lpn. cbn [existsb Rx.xitem_lowered_has].
  unfold lowered_has. cbn [item_chars existsb].
  change (tolower (ch "L")) with 108. change (tolower (ch "P")) with 112.
  change (tolower (ch "N")) with 110.
  change (fixes 108) with (@nil char). change (fixes 112) with (@nil char).
  change (fixes 110) with (@nil char).
  cbn [mem existsb]. rewrite !orb_false_r. intros H.
  apply orb_prop in H. destruct H as [H | H];
    [| apply orb_prop in H; destruct H as [H | H]];
    apply N.eqb_eq in H;
    (apply tolower_latin in H; [| reflexivity | discriminate]);
    destruct H as [-> | ->];
    eexists; (split; [reflexivity | split; reflexivity]).
Qed.

Lemma class_AZ (x : char) :
  Rx.class_ok true false [Rx.Plain AZ] x = true -> order_letter x = true.
Proof.
  intros H. apply capital_ignoring_case. exact H.
Qed.

Lemma order_letter_upper (x : char) :
  order_letter x = true ->
  isdecimal x = false
  /\ isspace x = false
  /\ exists c, upper_full x = [c]
               /\ between (ch "A") (ch "Z") c || (c =? 0x130) = true.
Proof.
  unfold order_letter. change (ch "A") with 0x41. change (ch "Z") with 0x5A.
  change (ch "a") with 0x61. change (ch "z") with 0x7A.
  intros H.
  assert (Hcases : between 0x41 0x5A x = true \/ between 0x61 0x7A x = true
                   \/ x = 0x130 \/ x = 0x131 \/ x = 0x17F).
  { unfold mem in H. cbn [existsb] in H. to_props; auto; discriminate. }
  clear H.
  destruct Hcases as [H | [H | [-> | [-> | ->]]]].
  - split; [| split].
    + unfold isdecimal, between in *. to_props.
      destruct ((48 <=? x) && (x <=? 57)) eqn:E; [to_props; lia | reflexivity].
    + unfold between in H. to_props.
      destruct (isspace x) eqn:E; [| reflexivity].
      unfold isspace, between, mem in E. cbn [existsb] in E. to_props; lia.
    + exists x. rewrite H. split; [| reflexivity].
      apply upper_full_low. unfold between in H. to_props. lia.
  - split; [| split].
    + unfold isdecimal, between in *. to_props.
      destruct ((48 <=? x) && (x <=? 57)) eqn:E; [to_props; lia | reflexivity].
    + unfold between in H. to_props.
      destruct (isspace x) eqn:E; [| reflexivity].
      unfold isspace, between, mem in E. cbn [existsb] in E. to_props; lia.
    + exists (x - 32). split; [apply upper_full_lower; exact H |].
      unfold between in *. to_props.
      apply orb_true_intro. left. apply andb_true_intro.
      split; apply N.leb_le; lia.
  - repeat split; try reflexivity. exists 0x130. split; reflexivity.
  - repeat split; try reflexivity. exists 0x49. split; reflexivity.
  - repeat split; try reflexivity. exists 0x53. split; reflexivity.
Qed.

Lemma digit_upper (x : char) :
  isdecimal x = true -> upper_full x = [x] /\ isspace x = false.
Proof.
  intros H. unfold isdecimal, between in H. to_props. split.
  - apply upper_full_low. lia.
  - destruct (isspace x) eqn:E; [| reflexivity].
    unfold isspace, between, mem in E. cbn [existsb] in E. to_props; lia.
Qed.

End PlateLetters.

Lemma plate_stem_run (rest : list Rx.regex) (st st' : mstate) :
  xrun IGNORECASE_DOTALL (Rx.seq_of (plate_stem ++ rest)) st st' ->
  exists c1 c2 ds st1,
    m_rest st = c1 :: c2 :: ds ++ m_rest st1
    /\ lit_ok true (ch "P") c1 = true
    /\ Rx.class_ok true false lpn c2 = true
    /\ 4 <= List.length ds <= 5
    /\ forallb isdecimal ds = true
    /\ xrun IGNORECASE_DOTALL (Rx.seq_of rest) st1 st'.
Proof.
  intros H. unfold plate_stem in H. cbn [app] in H.
  apply xrun_cat_inv in H. destruct H as (a & H1 & H).
  apply xrun_cat_inv in H. destruct H as (b & H2 & H).
  apply xrun_cat_inv in H. destruct H as (c & H3 & H).
  apply one_char_lit in H1. destruct H1 as (c1 & E1 & Hc1).
  apply one_char_class in H2. destruct H2 as (c2 & E2 & Hc2).
  apply (xrun_rep_chars _ isdecimal _ _ (one_char_digit _)) in H3.
  destruct H3 as (ds & Hl & Hf & E3).
  exists c1, c2, ds, c. rewrite E1, E2, E3.
  split; [reflexivity |]. split; [exact Hc1 |]. split; [exact Hc2 |].
  split; [exact Hl |]. split; [exact Hf | exact H].
Qed.

Lemma plate_check_run (st st' : mstate) :
  xrun IGNORECASE_DOTALL plate_check st st' ->
  exists g, raw_plate g /\ m_rest st = g ++ m_rest st'.
Proof.
  intros H. unfold plate_check in H. apply plate_stem_run in H.
  destruct H as (c1 & c2 & ds & st1 & E & H1 & H2 & Hl & Hf & H).
  apply xrun_cat_inv in H. destruct H as (a & Ho & H).
  apply xrun_nil_inv in H. subst a.
  apply (xrun_rep_chars _ _ _ _ (one_char_class _ _ _)) in Ho.
  destruct Ho as (xs & Hxl & Hxf & Ex).
  exists (c1 :: c2 :: ds ++ xs). split.
  - exists c1, c2, ds, xs. split; [reflexivity |].
    split; [exact H1 |]. split; [exact H2 |]. split; [exact Hl |].
    split; [exact Hf |].
    destruct xs as [| x [| y xs]]; [left; reflexivity | | cbn in Hxl; lia].
    right. exists x. split; [reflexivity |].
    cbn [forallb] in Hxf. rewrite andb_true_r in Hxf. exact Hxf.
  - rewrite E, Ex. cbn [app]. rewrite <- app_assoc. reflexivity.
Qed.

Lemma plate_with_letter_run (st st' : mstate) :
  xrun IGNORECASE_DOTALL plate_with_letter st st' ->
  exists g, raw_plate g /\ m_rest st = g ++ m_rest st'.
Proof.
  intros H. unfold plate_with_letter in H. apply plate_stem_run in H.
  destruct H as (c1 & c2 & ds & st1 & E & H1 & H2 & Hl & Hf & H).
  apply xrun_cat_inv in H. destruct H as (a & Ho & H).
  apply xrun_nil_inv in H. subst a.
  apply one_char_class in Ho. destruct Ho as (x & Ex & Hx).
  exists (c1 :: c2 :: ds ++ [x]). split.
  - exists c1, c2, ds, [x]. split; [reflexivity |].
    split; [exact H1 |]. split; [exact H2 |]. split; [exact Hl |].
    split; [exact Hf |]. right. exists x. split; [reflexivity | exact Hx].
  - rewrite E, Ex. cbn [app]. rewrite <- app_assoc. reflexivity.
Qed.

Ltac run_check :=
  repeat (first
    [ progress cbn [app List.map Rx.seq_of fold_right Rx.rmatch
                    Rx.ignorecase rep_loop Nat.add List.length m_rest
                    m_groups m_prev Nat.eqb hi_zero hi_pred Nat.pred
                    Nat.ltb Nat.leb orb orelse]
    | progress unfold step
    | match goal with
      | H : ?b = true |- context [if ?b then _ else _] => rewrite H
      | H : ?b = false |- context [if ?b then _ else _] => rewrite H
      end ]).

(** The check on a captured plate never fails. *)
Lemma plate_check_accepts (g : str) :
  raw_plate g -> Rx.match_ IGNORECASE plate_check g <> None.
Proof.
  intros (c1 & c2 & ds & l & -> & H1 & H2 & Hl & Hf & Hletter).
  unfold lpn in H2.
  assert (Hx : forall x, Rx.class_ok true false [Rx.Plain AZ] x = true ->
                         isdecimal x = false).
  { intros x Hx. apply class_AZ in Hx.
    apply (order_letter_upper x Hx). }
  destruct ds as [| d1 [| d2 [| d3 [| d4 [| d5 [| d6 ds]]]]]];
    cbn [List.length] in Hl; try lia;
    cbn [forallb] in Hf;
    repeat match goal with
           | H : _ && _ = true |- _ => apply andb_prop in H; destruct H
           end;
    (destruct Hletter as [-> | (x & -> & Hletter)];
     [| pose proof (Hx x Hletter)]);
    unfold Rx.match_, plate_check, plate_stem, plate_letter, Rx.one_of,
      Rx.opt, Rx.upto, IGNORECASE;
    run_check; discriminate.
Qed.

Lemma strip_free (g : str) : free_of isspace g -> strip g = g.
Proof.
  intros H.
  assert (Hl : forall s, free_of isspace s -> lstrip s = s).
  { intros s Hs. destruct s as [| c r]; [reflexivity |].
    cbn [lstrip]. rewrite (Hs c); [reflexivity | left; reflexivity]. }
  unfold strip, rstrip. rewrite (Hl g H), Hl; [apply rev_involutive |].
  intros x Hx. apply H. apply in_rev. exact Hx.
Qed.

Lemma upper_digits (ds : str) :
  forallb isdecimal ds = true ->
  upper ds = ds /\ free_of isspace ds /\ mem (ch "/") ds = false.
Proof.
  induction ds as [| d ds IH]; intros H.
  - split; [reflexivity |]. split; [intros x [] | reflexivity].
  - cbn [forallb] in H. apply andb_prop in H. destruct H as [Hd Hds].
    destruct (IH Hds) as (Eu & Hfree & Hslash).
    destruct (digit_upper d Hd) as [Ed Hs].
    split; [| split].
    + unfold upper in *. cbn [flat_map]. rewrite Ed, Eu. reflexivity.
    + intros x [<- | Hx]; [exact Hs | apply Hfree; exact Hx].
    + unfold mem in *. cbn [existsb]. rewrite Hslash, orb_false_r.
      apply N.eqb_neq. intros E. rewrite <- E in Hd. discriminate.
Qed.

Lemma raw_plate_clean (g : str) :
  raw_plate g ->
  clean_plate_number g = Some (upper g) /\ plate_shape (upper g).
Proof.
  intros (c1 & c2 & ds & l & -> & H1 & H2 & Hl & Hf & Hletter).
  destruct (lit_P c1 H1) as [E1 S1].
  destruct (class_lpn c2 H2) as (c & E2 & Hc & S2).
  destruct (upper_digits ds Hf) as (Ed & Sd & Nd).
  assert (HL : exists L,
             upper l = L /\ free_of isspace l /\ mem (ch "/") L = false
             /\ (L = []
                 \/ exists x, L = [x]
                              /\ between (ch "A") (ch "Z") x
                                 || N.eqb x 0x130 = true)).
  { destruct Hletter as [-> | (x & -> & Hx)].
    - exists []. split; [reflexivity |]. split; [intros y [] |].
      split; [reflexivity | left; reflexivity].
    - apply class_AZ in Hx.
      destruct (order_letter_upper x Hx) as (_ & Sx & X & EX & HX).
      exists [X]. split; [unfold upper; cbn [flat_map]; rewrite EX; reflexivity |].
      split; [intros y [<- | []]; exact Sx |].
      split; [| right; exists X; split; [reflexivity | exact HX]].
      unfold mem. cbn [existsb]. rewrite orb_false_r.
      apply N.eqb_neq. intros E. rewrite <- E in HX. discriminate. }
  destruct HL as (L & EL & SL & NL & HLshape).
  assert (Eup : upper (c1 :: c2 :: ds ++ l) = ch "P" :: c :: ds ++ L).
  { unfold upper in *. cbn [flat_map]. rewrite E1, E2, flat_map_app, Ed, EL.
    reflexivity. }
  assert (Hfree : free_of isspace (c1 :: c2 :: ds ++ l)).
  { intros x [<- | [<- | Hx]]; [exact S1 | exact S2 |].
    apply in_app_or in Hx. destruct Hx as [Hx | Hx];
      [apply Sd | apply SL]; exact Hx. }
  split.
  - unfold clean_plate_number. cbn [is_empty].
    rewrite (strip_free _ Hfree), Eup.
    assert (Hno : mem (ch "/") (ch "P" :: c :: ds ++ L) = false).
    { unfold mem in *. cbn [existsb]. rewrite existsb_app.
      apply orb_false_intro; [reflexivity |].
      apply orb_false_intro;
        [| apply orb_false_intro; [exact Nd | exact NL]].
      apply N.eqb_neq. intros E. rewrite <- E in Hc. discriminate. }
    rewrite Hno. reflexivity.
  - rewrite Eup. exists c, ds, L. auto 6.
Qed.

Lemma plate_loop_spec (patterns : list Rx.regex) (full_text : str) :
  Forall (fun p => captures_with plate_check p
                   \/ captures_with plate_with_letter p) patterns ->
  (forall p,
      plate_loop patterns full_text = Some p ->
      plate_shape p
      /\ exists g, occurs_in g full_text /\ raw_plate g /\ p = upper g)
  /\ (plate_loop patterns full_text = None
      <-> none_matches IGNORECASE_DOTALL patterns full_text).
Proof.
  induction 1 as [| pat rest Hp _ [IH1 IH2]]; cbn [plate_loop].
  - split; [discriminate |]. split; [constructor | reflexivity].
  - destruct (Rx.search IGNORECASE_DOTALL pat full_text) as [m |] eqn:E.
    + assert (Hraw : raw_plate (group 1 m) /\ occurs_in (group 1 m) full_text).
      { destruct Hp as [Hp | Hp];
          destruct (xsearch_group _ _ _ _ _ Hp E)
            as (st1 & st2 & Hrun & Eg & Hocc);
          [apply plate_check_run in Hrun | apply plate_with_letter_run in Hrun];
          destruct Hrun as (g & Hg & Eg');
          rewrite Eg in Eg'; apply app_inv_tail in Eg'; rewrite Eg';
          rewrite Eg' in Hocc; auto. }
      destruct Hraw as [Hraw Hocc].
      pose proof (plate_check_accepts _ Hraw) as Hcheck.
      destruct (Rx.match_ IGNORECASE plate_check (group 1 m));
        [| contradiction Hcheck; reflexivity].
      destruct (raw_plate_clean _ Hraw) as [Eclean Hshape].
      rewrite Eclean. split.
      * intros p Hpl. injection Hpl as <-. split; [exact Hshape |].
        exists (group 1 m). auto.
      * split; [discriminate |].
        intros Hn. inversion Hn as [| ? ? Hnone _]; subst.
        rewrite E in Hnone. discriminate.
    + split; [exact IH1 |]. rewrite IH2. split.
      * intros Hn. constructor; assumption.
      * intros Hn. inversion Hn; assumption.
Qed.

Lemma plate_patterns_capture :
  Forall (fun p => captures_with plate_check p
                   \/ captures_with plate_with_letter p) plate_patterns.
Proof.
  unfold plate_patterns.
  constructor; [| constructor; [| constructor; [| constructor;
                                                  [| constructor]]]].
  - left. exists (samochod ++ [Rx.star Rx.Space]), [].
    split; reflexivity.
  - right. exists (samochod ++ [Rx.lazy_star Rx.Any]), [].
    split; reflexivity.
  - left.
    exists [Rx.text "LKW-Nr"; Rx.opt (Rx.Lit (ch ".")); Rx.star Rx.Space;
            Rx.opt (Rx.Lit (ch ":")); Rx.star Rx.Space], [].
    split; reflexivity.
  - left.
    exists [Rx.WordB],
           [Rx.opt (Rx.Cat (Rx.Lit (ch "/"))
                           (Rx.plus (Rx.one_of
                                       [AZ; CRange (ch "0") (ch "9")])));
            Rx.WordB].
    split; reflexivity.
Qed.

(** X17: on a text within the repertoire, [_extract_license_plate] returns
    nothing exactly when none of its four patterns matches: the check on
    the captured plate never fails.  What it returns is a plate in
    capitals -- P, one of L, P and N, four or five digits and at most one
    letter -- which is the upper-cased form of a plate that stands in the
    text in either case. *)
Theorem license_plate_is_canonical (full_text : str) :
  forallb in_repertoire full_text = true ->
  (forall p,
      _extract_license_plate full_text = Some p ->
      plate_shape p
      /\ exists g, occurs_in g full_text /\ raw_plate g /\ p = upper g)
  /\ (_extract_license_plate full_text = None
      <-> none_matches IGNORECASE_DOTALL plate_patterns full_text).
Proof.
  intros _. apply plate_loop_spec, plate_patterns_capture.
Qed.

Lemma license_plate_is_canonical_witness :
  _extract_license_plate (u "Samochód: pp7706u/WGM123")
  = Some (u "PP7706U")
  /\ plate_shape (u "PP7706U").
Proof.
  assert (E : _extract_license_plate (u "Samochód: pp7706u/WGM123")
              = Some (u "PP7706U")) by (vm_compute; reflexivity).
  split; [exact E |].
  apply (proj1 (license_plate_is_canonical
                  (u "Samochód: pp7706u/WGM123")
                  ltac:(vm_compute; reflexivity))).
  exact E.
Defined.

(** ** X18: the freight price *)

Lemma replace_char_app (old : char) (new a b : str) :
  replace_char old new (a ++ b)
  = replace_char old new a ++ replace_char old new b.
Proof. unfold replace_char. apply flat_map_app. Qed.

Lemma replace_char_other (old : char) (new s : str) :
  (forall x, List.In x s -> x <> old) -> replace_char old new s = s.
Proof.
  unfold replace_char. induction s as [| c s IH]; intros H; [reflexivity |].
  cbn [flat_map]. destruct (N.eqb_spec c old) as [E | _].
  - contradiction (H c (or_introl eq_refl)).
  - cbn [app]. rewrite IH; [reflexivity |].
    intros x Hx. apply H. right. exact Hx.
Qed.

Lemma digit_is_no_mark (x : char) :
  isdecimal x = true ->
  x <> ch "." /\ x <> ch " " /\ x <> ch "," /\ isspace x = false.
Proof.
  intros H. repeat split; try (intros ->; discriminate H).
  destruct (isspace x) eqn:E; [| reflexivity].
  unfold isdecimal, isspace, between, mem in *. cbn [existsb] in E.
  to_props; lia.
Qed.

Lemma replace_digits (old : char) (new ds : str) :
  forallb isdecimal ds = true ->
  old = ch "." \/ old = ch " " \/ old = ch "," ->
  replace_char old new ds = ds.
Proof.
  intros H Hold. apply replace_char_other. intros x Hx.
  rewrite forallb_forall in H.
  destruct (digit_is_no_mark x (H x Hx)) as (H1 & H2 & H3 & _).
  destruct Hold as [-> | [-> | ->]]; assumption.
Qed.

Lemma filter_digits (ds : str) :
  forallb isdecimal ds = true -> filter isdecimal ds = ds.
Proof.
  induction ds as [| d ds IH]; [reflexivity |].
  cbn [forallb filter]. intros H. apply andb_prop in H. destruct H as [Hd H].
  rewrite Hd, (IH H). reflexivity.
Qed.

Lemma digits_no_period_in (ds : str) :
  forallb isdecimal ds = true -> occurrences (ch ".") ds = 0.
Proof. intros H. apply (digits_no_period (List.length ds)). split; auto. Qed.

Lemma py_float_digits (whole frac : str) :
  whole <> [] -> forallb isdecimal whole = true -> digits 2 frac ->
  py_float (whole ++ u "." ++ frac)
  = Some (PrimFloat.div (float_of_Z (digits_value (whole ++ frac)))
                        100%float).
Proof.
  intros Hne Hw [Hl Hf]. unfold py_float.
  change (u ".") with [ch "."]. cbn [app].
  rewrite (split_char_piece _ _ _ (digits_no_period_in whole Hw)),
    (split_char_whole _ _ (digits_no_period_in frac Hf)).
  rewrite Hw, Hf, Hl.
  destruct whole; [contradiction Hne; reflexivity |].
  destruct frac; [discriminate Hl |]. reflexivity.
Qed.

Lemma py_float_broken (a b frac : str) (x : char) :
  forallb isdecimal a = true -> forallb isdecimal b = true ->
  forallb isdecimal frac = true ->
  isspace x = true ->
  py_float (a ++ [x] ++ b ++ u "." ++ frac) = None.
Proof.
  intros Ha Hb Hf Hx. unfold py_float.
  assert (Hxd : isdecimal x = false).
  { destruct (isdecimal x) eqn:E; [| reflexivity].
    destruct (digit_is_no_mark x E) as (_ & _ & _ & Hs).
    rewrite Hs in Hx. discriminate. }
  assert (Hw : occurrences (ch ".") (a ++ [x] ++ b) = 0).
  { unfold occurrences, count. rewrite !filter_app, !length_app.
    fold (count (N.eqb (ch ".")) a). fold (occurrences (ch ".") a).
    fold (count (N.eqb (ch ".")) b). fold (occurrences (ch ".") b).
    rewrite (digits_no_period_in a Ha), (digits_no_period_in b Hb).
    cbn [filter]. destruct (N.eqb_spec (ch ".") x) as [<- | _];
      [discriminate Hx | reflexivity]. }
  change (u ".") with [ch "."].
  replace (a ++ [x] ++ b ++ [ch "."] ++ frac)
    with ((a ++ [x] ++ b) ++ ch "." :: frac)
    by (rewrite <- !app_assoc; reflexivity).
  rewrite (split_char_piece _ _ _ Hw),
    (split_char_whole _ _ (digits_no_period_in frac Hf)).
  assert (Hall : forallb isdecimal (a ++ [x] ++ b) = false).
  { rewrite !forallb_app. cbn [forallb]. rewrite Hxd.
    destruct (forallb isdecimal a); reflexivity. }
  rewrite Hall, andb_false_r. reflexivity.
Qed.

Lemma period_or_space_ok (x : char) :
  Rx.class_ok true false [Rx.Plain (CChar (ch ".")); Rx.SpaceCat] x = true ->
  x = ch "." \/ isspace x = true.
Proof.
  unfold Rx.class_ok.
  replace (true && existsb Rx.xitem_cased
                           [Rx.Plain (CChar (ch ".")); Rx.SpaceCat])
    with false by (vm_compute; reflexivity).
  cbn [xorb existsb Rx.xitem_has item_has]. rewrite orb_false_r.
  intros H. apply orb_prop in H. destruct H as [H | H];
    [left; apply N.eqb_eq; exact H | right; exact H].
Qed.

Lemma thousands_amount_run (st st' : mstate) :
  xrun IGNORECASE_DOTALL thousands_amount st st' ->
  exists g a s b c, amount g a s b c /\ m_rest st = g ++ m_rest st'.
Proof.
  intros H. unfold thousands_amount in H.
  apply xrun_cat_inv in H. destruct H as (s1 & Ha & H).
  apply xrun_cat_inv in H. destruct H as (s2 & Hs & H).
  apply xrun_cat_inv in H. destruct H as (s3 & Hb & H).
  apply xrun_cat_inv in H. destruct H as (s4 & Hcomma & H).
  apply xrun_cat_inv in H. destruct H as (s5 & Hc & H).
  apply xrun_nil_inv in H. subst s5.
  apply (xrun_rep_chars _ isdecimal _ _ (one_char_digit _)) in Ha.
  destruct Ha as (a & La & Fa & Ea).
  apply (xrun_rep_chars _ _ _ _ (one_char_class _ _ _)) in Hs.
  destruct Hs as (s & Ls & Fs & Es).
  apply xrun_times_digits in Hb. destruct Hb as (b & [Lb Fb] & Eb).
  apply xrun_lit_uncased in Hcomma; [| reflexivity].
  apply xrun_times_digits in Hc. destruct Hc as (c & Dc & Ec).
  exists (a ++ s ++ b ++ u "," ++ c), a, s, b, c. split.
  - split; [reflexivity |]. split; [exact Fa |]. split; [exact Fb |].
    split; [exact Dc |]. split; [rewrite length_app; lia |].
    destruct s as [| x [| y s]]; [left; reflexivity | | cbn in Ls; lia].
    right. exists x. split; [reflexivity |].
    cbn [forallb] in Fs. rewrite andb_true_r in Fs.
    apply period_or_space_ok. exact Fs.
  - change (u ",") with [ch ","].
    rewrite Ea, Es, Eb, Hcomma, Ec, <- !app_assoc. reflexivity.
Qed.

Lemma plain_amount_run (st st' : mstate) :
  xrun IGNORECASE_DOTALL plain_amount st st' ->
  exists g a s b c, amount g a s b c /\ m_rest st = g ++ m_rest st'.
Proof.
  intros H. unfold plain_amount in H.
  apply xrun_cat_inv in H. destruct H as (s1 & Ha & H).
  apply xrun_cat_inv in H. destruct H as (s2 & Hcomma & H).
  apply xrun_cat_inv in H. destruct H as (s3 & Hc & H).
  apply xrun_nil_inv in H. subst s3.
  apply (xrun_rep_chars _ isdecimal _ _ (one_char_digit _)) in Ha.
  destruct Ha as (a & La & Fa & Ea).
  apply xrun_lit_uncased in Hcomma; [| reflexivity].
  apply xrun_times_digits in Hc. destruct Hc as (c & Dc & Ec).
  exists (a ++ [] ++ [] ++ u "," ++ c), a, [], [], c. split.
  - split; [reflexivity |]. split; [exact Fa |]. split; [reflexivity |].
    split; [exact Dc |]. split; [rewrite app_nil_r; lia |].
    left. reflexivity.
  - change (u ",") with [ch ","]. cbn [app].
    rewrite Ea, Hcomma, Ec, <- !app_assoc. reflexivity.
Qed.

Lemma amount_cents (g a s b c : str) :
  amount g a s b c -> cents g = digits_value ((a ++ b) ++ c).
Proof.
  intros (-> & Fa & Fb & [_ Fc] & _ & Hs). unfold cents.
  rewrite !filter_app, (filter_digits a Fa), (filter_digits b Fb),
    (filter_digits c Fc).
  assert (Es : filter isdecimal s = []).
  { destruct Hs as [-> | (x & -> & [-> | Hx])]; [reflexivity | reflexivity |].
    cbn [filter]. destruct (isdecimal x) eqn:E; [| reflexivity].
    destruct (digit_is_no_mark x E) as (_ & _ & _ & Hsp).
    rewrite Hsp in Hx. discriminate. }
  rewrite Es. change (filter isdecimal (u ",")) with (@nil char).
  cbn [app]. rewrite app_assoc. reflexivity.
Qed.

(** The text that reaches [float]. *)
Lemma amount_read (g a s b c : str) :
  amount g a s b c ->
  let fracht_str :=
    replace_char (ch ",") (u ".")
      (replace_char (ch " ") [] (replace_char (ch ".") [] g)) in
  (exists x, s = [x] /\ odd_space x /\ py_float fracht_str = None)
  \/ py_float fracht_str
     = Some (PrimFloat.div (float_of_Z (cents g)) 100%float).
Proof.
  intros Ham. pose proof (amount_cents _ _ _ _ _ Ham) as Ecents.
  destruct Ham as (-> & Fa & Fb & Dc & Hlen & Hs).
  pose proof Dc as [Lc Fc].
  cbv zeta. rewrite !replace_char_app.
  rewrite !(replace_digits _ _ a Fa), !(replace_digits _ _ b Fb),
    !(replace_digits _ _ c Fc) by auto.
  change (replace_char (ch ",") (u ".")
            (replace_char (ch " ") [] (replace_char (ch ".") [] (u ","))))
    with (u ".").
  assert (Hwhole : a ++ b <> []).
  { intros E. rewrite E in Hlen. cbn in Hlen. lia. }
  assert (Hgood :
            py_float (a ++ [] ++ b ++ u "." ++ c)
            = Some (PrimFloat.div
                      (float_of_Z (cents (a ++ s ++ b ++ u "," ++ c)))
                      100%float)).
  { rewrite Ecents. cbn [app].
    replace (a ++ b ++ u "." ++ c) with ((a ++ b) ++ u "." ++ c)
      by (rewrite <- app_assoc; reflexivity).
    apply py_float_digits; [exact Hwhole | | exact Dc].
    rewrite forallb_app, Fa, Fb. reflexivity. }
  destruct Hs as [-> | (x & -> & [-> | Hx])].
  - right. exact Hgood.
  - right. exact Hgood.
  - destruct (N.eqb_spec x 32) as [-> | Hne].
    + right. exact Hgood.
    + left. exists x. split; [reflexivity |]. split; [split; assumption |].
      assert (E : replace_char (ch ",") (u ".")
                    (replace_char (ch " ") [] (replace_char (ch ".") [] [x]))
                  = [x]).
      { assert (Hone : forall old new, x <> old ->
                                       replace_char old new [x] = [x]).
        { intros old new Ho. unfold replace_char. cbn [flat_map app].
          destruct (N.eqb_spec x old) as [Eo | _];
            [contradiction (Ho Eo) | reflexivity]. }
        rewrite (Hone (ch ".")) by (intros ->; discriminate Hx).
        rewrite (Hone (ch " ")) by exact Hne.
        apply Hone. intros ->. discriminate Hx. }
      rewrite E. apply py_float_broken; assumption.
Qed.

Lemma freight_loop_spec (patterns : list Rx.regex) (full_text : str) :
  Forall (fun p => captures_with thousands_amount p
                   \/ captures_with plain_amount p) patterns ->
  (forall v,
      freight_loop patterns full_text = Returns (Some v) ->
      PrimFloat.leb FRACHT_MIN v = true /\ PrimFloat.leb v FRACHT_MAX = true
      /\ exists g a s b c,
          occurs_in g full_text /\ amount g a s b c
          /\ v = PrimFloat.div (float_of_Z (cents g)) 100%float)
  /\ (freight_loop patterns full_text = Raises ->
      exists g a x b c,
        occurs_in g full_text /\ amount g a [x] b c /\ odd_space x).
Proof.
  induction 1 as [| pat rest Hp _ [IH1 IH2]]; cbn [freight_loop].
  - split; [intros v H; discriminate H | intros H; discriminate H].
  - destruct (Rx.search IGNORECASE_DOTALL pat full_text) as [m |] eqn:E;
      [| split; assumption].
    assert (Ham : exists a s b c,
               amount (group 1 m) a s b c /\ occurs_in (group 1 m) full_text).
    { destruct Hp as [Hp | Hp];
        destruct (xsearch_group _ _ _ _ _ Hp E)
          as (st1 & st2 & Hrun & Eg & Hocc);
        [apply thousands_amount_run in Hrun | apply plain_amount_run in Hrun];
        destruct Hrun as (g & a & s & b & c & Hg & Eg');
        rewrite Eg in Eg'; apply app_inv_tail in Eg'; rewrite Eg';
        rewrite Eg' in Hocc; exists a, s, b, c; auto. }
    destruct Ham as (a & s & b & c & Ham & Hocc).
    destruct (amount_read _ _ _ _ _ Ham) as [(x & -> & Hodd & Er) | Er];
      cbv zeta in Er; rewrite Er.
    + split; [intros v H; discriminate H |].
      intros _. exists (group 1 m), a, x, b, c. auto.
    + destruct (PrimFloat.leb FRACHT_MIN _ && PrimFloat.leb _ FRACHT_MAX)
        eqn:Erange; [| split; assumption].
      apply andb_prop in Erange. destruct Erange as [Hmin Hmax].
      split; [| intros H; discriminate H].
      intros v H. injection H as <-.
      split; [exact Hmin |]. split; [exact Hmax |].
      exists (group 1 m), a, s, b, c. auto.
Qed.

Lemma freight_patterns_capture :
  Forall (fun p => captures_with thousands_amount p
                   \/ captures_with plain_amount p) freight_patterns.
Proof.
  unfold freight_patterns.
  constructor; [| constructor; [| constructor; [| constructor;
    [| constructor; [| constructor; [| constructor]]]]]].
  - left. exists (vereinbarter_frachtpreis ++ [Rx.lazy_star Rx.Any]),
                 [Rx.star Rx.Space; Rx.Lit 0x20AC%N].
    split; reflexivity.
  - left. exists (uzgodniony_fracht ++ [Rx.lazy_star Rx.Any]),
                 [Rx.star Rx.Space; Rx.Lit 0x20AC%N].
    split; reflexivity.
  - right. exists (vereinbarter_frachtpreis ++ [Rx.lazy_star Rx.Any]),
                  [Rx.star Rx.Space; Rx.Lit 0x20AC%N].
    split; reflexivity.
  - right. exists (uzgodniony_fracht ++ [Rx.lazy_star Rx.Any]),
                  [Rx.star Rx.Space; Rx.Lit 0x20AC%N].
    split; reflexivity.
  - left. exists [Rx.text "Frachtpreis"; Rx.lazy_star Rx.Any],
                 [Rx.star Rx.Space; Rx.Lit 0x20AC%N].
    split; reflexivity.
  - right. exists [Rx.text "Frachtpreis"; Rx.lazy_star Rx.Any],
                  [Rx.star Rx.Space; Rx.Lit 0x20AC%N].
    split; reflexivity.
Qed.

(** X18: on a text within the repertoire, a price that
    [_extract_freight_price] returns lies within the bounds of [config.py],
    and it is an amount that stands in the text -- three to five digits,
    with or without a period or a white-space character before the last
    three, a comma and two digits -- read in hundredths.  The call raises
    only on an amount that stands in the text with a white-space character
    other than the space, such as a line break, before its last three
    digits: [float] does not read it. *)
Theorem freight_price_read_or_raised (full_text : str) :
  forallb in_price_repertoire full_text = true ->
  (forall v,
      _extract_freight_price full_text = Returns (Some v) ->
      PrimFloat.leb FRACHT_MIN v = true /\ PrimFloat.leb v FRACHT_MAX = true
      /\ exists g a s b c,
          occurs_in g full_text /\ amount g a s b c
          /\ v = PrimFloat.div (float_of_Z (cents g)) 100%float)
  /\ (_extract_freight_price full_text = Raises ->
      exists g a x b c,
        occurs_in g full_text /\ amount g a [x] b c /\ odd_space x).
Proof.
  intros _. apply freight_loop_spec, freight_patterns_capture.
Qed.

Lemma freight_price_read_or_raised_witness :
  _extract_freight_price two_prices = Returns (Some 1250%float)
  /\ _extract_freight_price broken_price = Raises
  /\ (exists g a x b c,
        occurs_in g broken_price /\ amount g a [x] b c /\ odd_space x)
  /\ PrimFloat.leb FRACHT_MIN 1250%float = true.
Proof.
  assert (E1 : _extract_freight_price two_prices = Returns (Some 1250%float))
    by (vm_compute; reflexivity).
  assert (E2 : _extract_freight_price broken_price = Raises)
    by (vm_compute; reflexivity).
  split; [exact E1 |]. split; [exact E2 |]. split.
  - apply (proj2 (freight_price_read_or_raised broken_price
                    ltac:(vm_compute; reflexivity))).
    exact E2.
  - apply (proj1 (freight_price_read_or_raised two_prices
                    ltac:(vm_compute; reflexivity)) _ E1).
Defined.

(** * C1: the prefixed postal line *)












Section CodeLetters.

Local Open Scope N_scope.



End CodeLetters.



(** ** The words of a text *)








(** ** The steps of the Normalizer, one by one *)







(** ** What the two prefixed patterns match *)











(** ** Case mappings make no digit *)


Section CaseDigits.

Local Open Scope N_scope.



End CaseDigits.







